(** * Kerr black-hole ray marcher: geodesic integrator, metric radii and disk model

    A shallow embedding of the numerical core of the WebGL Kerr-metric
    renderer:

    - the GLSL shader code ([utils.glsl], [kerr-metric.glsl],
      [geodesic-integrator.glsl], [accretion-disk.glsl],
      [advanced-features.glsl], and of [fragment-shader.glsl] the
      integration loop, the ray generation and the debug overlays) is
      written once over an interface [GLFloat] of
      float operations, so that control-flow results hold whatever the
      float semantics is (rounding, NaN, infinities), and is instantiated
      at the real numbers for the properties that are statements of real
      arithmetic;
    - the JavaScript classes [KerrMetric] and [AccretionDisk] are embedded
      over the real numbers (rounding is not modelled). *)

From Stdlib Require Import Reals Lra Psatz QArith Qreals ZArith Bool String List.

(* ====================================================================== *)
(** * Part I.  GLSL code over an abstract float type                       *)
(* ====================================================================== *)

Module GLSL.

Declare Scope glsl_scope.
Delimit Scope glsl_scope with glsl.

(** The float operations the shader uses.  [lit] injects a decimal literal
    of the source text; the comparisons are boolean and independent of each
    other, as they are for IEEE floats ([x >= y] is not [!(x < y)] when a
    NaN is involved). *)
Class GLFloat (F : Type) : Type := {
  lit    : Q -> F;
  fadd   : F -> F -> F;
  fsub   : F -> F -> F;
  fmul   : F -> F -> F;
  fdiv   : F -> F -> F;
  fneg   : F -> F;
  fabs   : F -> F;
  fsqrt  : F -> F;
  fsin   : F -> F;
  fcos   : F -> F;
  facos  : F -> F;
  fatan2 : F -> F -> F;      (* GLSL atan(y, x) *)
  fexp   : F -> F;
  fpow   : F -> F -> F;
  flt    : F -> F -> bool;   (* x <  y *)
  fle    : F -> F -> bool;   (* x <= y *)
  feq    : F -> F -> bool    (* x == y *)
}.

Arguments lit {F _} _%_Q.

Infix "+" := fadd : glsl_scope.
Infix "-" := fsub : glsl_scope.
Infix "*" := fmul : glsl_scope.
Infix "/" := fdiv : glsl_scope.
Notation "- x" := (fneg x) : glsl_scope.
Notation "x <? y" := (flt x y) : glsl_scope.
Notation "x >? y" := (flt y x) : glsl_scope.
Notation "x <=? y" := (fle x y) : glsl_scope.
Notation "x >=? y" := (fle y x) : glsl_scope.
Notation "x !=? y" := (negb (feq x y)) (at level 70) : glsl_scope.

Record vec2 (F : Type) : Type := mkVec2 { ux : F; uy : F }.
Record vec3 (F : Type) : Type := mkVec3 { vx : F; vy : F; vz : F }.
Arguments mkVec2 {F} _ _.
Arguments ux {F} _.
Arguments uy {F} _.
Arguments mkVec3 {F} _ _ _.
Arguments vx {F} _.
Arguments vy {F} _.
Arguments vz {F} _.

(** Ray termination status codes ([#define RAY_ACTIVE 0] ...). *)
Inductive RayStatus : Set :=
  | RAY_ACTIVE
  | RAY_CAPTURED
  | RAY_ESCAPED
  | RAY_MAX_STEPS.

Definition status_code (s : RayStatus) : Z :=
  match s with
  | RAY_ACTIVE => 0
  | RAY_CAPTURED => 1
  | RAY_ESCAPED => 2
  | RAY_MAX_STEPS => 3
  end.

(** The phase-space point carried by the integration loop: the five
    [inout] variables of [rk4Step] and the three conserved quantities. *)
Record GeodesicState (F : Type) : Type := mkState {
  st_r : F;
  st_theta : F;
  st_phi : F;
  st_pr : F;
  st_ptheta : F;
  st_E : F;
  st_Lz : F;
  st_Q : F
}.
Arguments mkState {F} _ _ _ _ _ _ _ _.
Arguments st_r {F} _.
Arguments st_theta {F} _.
Arguments st_phi {F} _.
Arguments st_pr {F} _.
Arguments st_ptheta {F} _.
Arguments st_E {F} _.
Arguments st_Lz {F} _.
Arguments st_Q {F} _.

(** What an integrator hands back: the returned status code, the [out]
    parameter [finalDir], and (ghost) the number of [rk4Step] calls made. *)
Record RayResult (F : Type) : Type := mkResult {
  status : RayStatus;
  finalDir : vec3 F;
  rk4Calls : nat
}.
Arguments mkResult {F} _ _ _.
Arguments status {F} _.
Arguments finalDir {F} _.
Arguments rk4Calls {F} _.

(** The per-ray accumulators of [integrateGeodesicWithFeatures] ([out]
    parameters and the three [prev*] locals). *)
Record Accumulators (F : Type) : Type := mkAcc {
  diskColor : vec3 F;
  diskAlpha : F;
  jetColor : vec3 F;
  ergoColor : vec3 F;
  minRadius : F;
  totalPhiChange : F;
  prevTheta : F;
  prevR : F;
  prevPhi : F
}.
Arguments mkAcc {F} _ _ _ _ _ _ _ _ _.
Arguments diskColor {F} _.
Arguments diskAlpha {F} _.
Arguments jetColor {F} _.
Arguments ergoColor {F} _.
Arguments minRadius {F} _.
Arguments totalPhiChange {F} _.
Arguments prevTheta {F} _.
Arguments prevR {F} _.
Arguments prevPhi {F} _.

(** The uniforms read by the feature-sampling loop. *)
Record Uniforms (F : Type) : Type := mkUniforms {
  u_showDisk : bool;
  u_showJets : bool;
  u_showErgosphere : bool;
  u_diskInnerRadius : F;
  u_diskOuterRadius : F;
  u_diskTemperature : F;
  u_diskThickness : F
}.
Arguments u_showDisk {F} _.
Arguments u_showJets {F} _.
Arguments u_showErgosphere {F} _.
Arguments u_diskInnerRadius {F} _.
Arguments u_diskOuterRadius {F} _.
Arguments u_diskTemperature {F} _.
Arguments u_diskThickness {F} _.

Section Shader.

Context {F : Type} {FO : GLFloat F}.
Local Open Scope glsl_scope.

(** ** utils.glsl: constants *)

Definition PI : F := lit 3.14159265359.
Definition TWO_PI : F := lit 6.28318530718.
Definition HALF_PI : F := lit 1.57079632679.
Definition EPSILON : F := lit 1e-6.

(** ** GLSL built-ins, as the language specification defines them *)

(** [min(x,y)] returns [y] if [y < x], otherwise [x]. *)
Definition min (x y : F) : F := if y <? x then y else x.
(** [max(x,y)] returns [y] if [x < y], otherwise [x]. *)
Definition max (x y : F) : F := if x <? y then y else x.
(** [clamp(x,lo,hi)] is [min(max(x,lo),hi)]. *)
Definition clamp (x lo hi : F) : F := min (max x lo) hi.
(** [sign(x)] is 1, 0 or -1. *)
Definition sign (x : F) : F :=
  if x >? lit 0 then lit 1 else if x <? lit 0 then lit (-1) else lit 0.
(** [smoothstep(e0,e1,x)]: Hermite interpolation. *)
Definition smoothstep (e0 e1 x : F) : F :=
  let t := clamp ((x - e0) / (e1 - e0)) (lit 0) (lit 1) in
  t * t * (lit 3 - lit 2 * t).

Definition vadd (u v : vec3 F) : vec3 F :=
  mkVec3 (vx u + vx v) (vy u + vy v) (vz u + vz v).
Definition vsub (u v : vec3 F) : vec3 F :=
  mkVec3 (vx u - vx v) (vy u - vy v) (vz u - vz v).
Definition vscale (k : F) (v : vec3 F) : vec3 F :=
  mkVec3 (k * vx v) (k * vy v) (k * vz v).
Definition vmul (v : vec3 F) (k : F) : vec3 F :=
  mkVec3 (vx v * k) (vy v * k) (vz v * k).
Definition vdiv (v : vec3 F) (k : F) : vec3 F :=
  mkVec3 (vx v / k) (vy v / k) (vz v / k).
Definition dot (u v : vec3 F) : F := vx u * vx v + vy u * vy v + vz u * vz v.
Definition cross (u v : vec3 F) : vec3 F :=
  mkVec3 (vy u * vz v - vz u * vy v)
         (vz u * vx v - vx u * vz v)
         (vx u * vy v - vy u * vx v).
Definition length (v : vec3 F) : F := fsqrt (dot v v).
Definition length2 (x y : F) : F := fsqrt (x * x + y * y).
Definition normalize (v : vec3 F) : vec3 F := vdiv v (length v).
Definition vzero : vec3 F := mkVec3 (lit 0) (lit 0) (lit 0).

(** ** utils.glsl: mathematical utilities and coordinate transformations *)

Definition safeSqrt (x : F) : F := fsqrt (max x (lit 0)).

Definition cartesianToSpherical (p : vec3 F) : vec3 F :=
  let r := length p in
  if r <? EPSILON then mkVec3 (lit 0) (lit 0) (lit 0)
  else
    let theta := facos (clamp (vz p / r) (lit (-1)) (lit 1)) in
    let phi := fatan2 (vy p) (vx p) in
    let phi := if phi <? lit 0 then phi + TWO_PI else phi in
    mkVec3 r theta phi.

Definition sphericalToCartesian (sph : vec3 F) : vec3 F :=
  let r := vx sph in
  let theta := vy sph in
  let phi := vz sph in
  let sinTheta := fsin theta in
  mkVec3 (r * sinTheta * fcos phi) (r * sinTheta * fsin phi) (r * fcos theta).

Definition cartesianToBoyerLindquist (p : vec3 F) (a : F) : vec3 F :=
  let x := vx p in
  let y := vy p in
  let z := vz p in
  if fabs a <? EPSILON then cartesianToSpherical p
  else
    let a2 := a * a in
    let rho2 := x * x + y * y + z * z in
    let b := rho2 - a2 in
    let c := - a2 * z * z in
    let discriminant := b * b - lit 4 * c in
    let r2 := (b + safeSqrt discriminant) * lit 0.5 in
    let r := safeSqrt r2 in
    let cosTheta := if r >? EPSILON then z / r else lit 0 in
    let theta := facos (clamp cosTheta (lit (-1)) (lit 1)) in
    let phi := fatan2 y x in
    let phi := if phi <? lit 0 then phi + TWO_PI else phi in
    mkVec3 r theta phi.

Definition boyerLindquistToCartesian (bl : vec3 F) (a : F) : vec3 F :=
  let r := vx bl in
  let theta := vy bl in
  let phi := vz bl in
  let sinTheta := fsin theta in
  let cosTheta := fcos theta in
  let rho := safeSqrt (r * r + a * a) in
  mkVec3 (rho * sinTheta * fcos phi) (rho * sinTheta * fsin phi) (r * cosTheta).

(** ** kerr-metric.glsl *)

Definition sigma (r theta a : F) : F :=
  let cosTheta := fcos theta in
  r * r + a * a * cosTheta * cosTheta.

Definition delta (r M a : F) : F := r * r - lit 2 * M * r + a * a.

Definition eventHorizonRadius (M a : F) : F := M + safeSqrt (M * M - a * a).

Definition innerHorizonRadius (M a : F) : F := M - safeSqrt (M * M - a * a).

Definition iscoRadius (M a : F) : F :=
  let chi := a / M in
  let chi2 := chi * chi in
  let oneMinusChi2_13 := fpow (lit 1 - chi2) (lit 1 / lit 3) in
  let onePlusChi_13 := fpow (lit 1 + chi) (lit 1 / lit 3) in
  let oneMinusChi_13 := fpow (fabs (lit 1 - chi)) (lit 1 / lit 3) in
  let Z1 := lit 1 + oneMinusChi2_13 * (onePlusChi_13 + oneMinusChi_13) in
  let Z2 := safeSqrt (lit 3 * chi2 + Z1 * Z1) in
  M * (lit 3 + Z2 - safeSqrt ((lit 3 - Z1) * (lit 3 + Z1 + lit 2 * Z2))).

Definition photonSphereRadius (M a : F) : F :=
  if fabs a <? EPSILON then lit 3 * M
  else
    let chi := clamp (a / M) (lit (-1)) (lit 1) in
    lit 2 * M * (lit 1 + fcos (lit 2 / lit 3 * facos (- chi))).

(** ** accretion-disk.glsl: temperature profiles *)

Definition diskTemperature (r rISCO T0 M : F) : F :=
  if r <=? rISCO then lit 0
  else
    let x := r / M in
    let xISCO := rISCO / M in
    let f := lit 1 - fsqrt (xISCO / x) in
    if f <=? lit 0 then lit 0
    else
      let temp := T0 * fpow (lit 1 / (x * x * x)) (lit 0.25) * fpow f (lit 0.25) in
      temp.

Definition diskTemperatureNT (r rISCO T0 M a : F) : F :=
  if r <=? rISCO * lit 1.001 then lit 0
  else
    let x := fsqrt (r / M) in
    let xISCO := fsqrt (rISCO / M) in
    let aStar := a / M in
    let x1 := lit 2 * fcos ((facos aStar - PI) / lit 3) in
    let x2 := lit 2 * fcos ((facos aStar + PI) / lit 3) in
    let x3 := - lit 2 * fcos (facos aStar / lit 3) in
    let f := lit 1 - xISCO / x in
    if f <=? lit 0 then lit 0
    else
      let y := x * x in
      let correction := lit 1 + aStar / (y * fsqrt y) in
      let Q := f * correction in
      let temp := T0 * fpow (max Q (lit 0) / (y * y * y)) (lit 0.25) in
      clamp temp (lit 0) (lit 50000).

(** ** geodesic-integrator.glsl: potential functions *)

Definition R_potential (r E Lz Q M a : F) : F :=
  let r2 := r * r in
  let a2 := a * a in
  let del := r2 - lit 2 * M * r + a2 in
  let term1 := (r2 + a2) * E - a * Lz in
  let term2 := Lz - a * E in
  term1 * term1 - del * (term2 * term2 + Q).

Definition Theta_potential (theta E Lz Q a : F) : F :=
  let cosTheta := fcos theta in
  let sinTheta := fsin theta in
  let cos2 := cosTheta * cosTheta in
  let sin2 := sinTheta * sinTheta in
  if sin2 <? EPSILON then Q + a * a * E * E * cos2
  else
    let cot2 := cos2 / sin2 in
    Q + a * a * E * E * cos2 - Lz * Lz * cot2.

(** ** Conserved quantities from initial conditions *)

(** The three [out] parameters [E], [Lz], [Q] are returned as a triple. *)
Definition computeConservedQuantities
    (r theta dr_dlambda dtheta_dlambda dphi_dlambda M a : F) : F * F * F :=
  let r2 := r * r in
  let a2 := a * a in
  let sinTheta := fsin theta in
  let cosTheta := fcos theta in
  let sin2 := sinTheta * sinTheta in
  let cos2 := cosTheta * cosTheta in
  let sig := r2 + a2 * cos2 in
  let del := r2 - lit 2 * M * r + a2 in
  let A := (r2 + a2) * (r2 + a2) - a2 * del * sin2 in
  let E := lit 1 in
  let omega := a * (r2 + a2) / del - a in
  let coeff := lit 1 / sin2 - a2 / del in
  let Lz :=
    if fabs coeff >? EPSILON then (sig * dphi_dlambda - omega * E) / coeff
    else lit 0 in
  let sig_dtheta := sig * dtheta_dlambda in
  let Q := sig_dtheta * sig_dtheta - a2 * E * E * cos2 in
  let Q := if sin2 >? EPSILON then Q + Lz * Lz * cos2 / sin2 else Q in
  (E, Lz, Q).

Definition initializeGeodesic (camPos rayDir : vec3 F) (M a : F)
    : GeodesicState F :=
  let bl := cartesianToBoyerLindquist camPos a in
  let r := vx bl in
  let theta := vy bl in
  let phi := vz bl in
  let theta := clamp theta (lit 0.01) (PI - lit 0.01) in
  let sinTheta := fsin theta in
  let cosTheta := fcos theta in
  let rHat := normalize camPos in
  let zAxis := mkVec3 (lit 0) (lit 0) (lit 1) in
  let thetaHat :=
    normalize (vsub (vscale cosTheta rHat) (vdiv zAxis (max sinTheta EPSILON))) in
  let rxy := fsqrt (vx camPos * vx camPos + vy camPos * vy camPos) in
  let thetaHat :=
    if rxy >? EPSILON then
      mkVec3 (vz camPos * vx camPos / (r * rxy))
             (vz camPos * vy camPos / (r * rxy))
             (- rxy / r)
    else mkVec3 (lit 1) (lit 0) (lit 0) in
  let phiHat := normalize (cross zAxis rHat) in
  let phiHat :=
    if length (cross zAxis rHat) <? EPSILON then mkVec3 (lit 0) (lit 1) (lit 0)
    else phiHat in
  let dr_dl := dot rayDir rHat in
  let dtheta_dl := dot rayDir thetaHat / r in
  let dphi_dl := dot rayDir phiHat / (r * sinTheta + EPSILON) in
  let '(E, Lz, Q) :=
    computeConservedQuantities r theta dr_dl dtheta_dl dphi_dl M a in
  let sig := sigma r theta a in
  let R := R_potential r E Lz Q M a in
  let pr := sign dr_dl * safeSqrt (max R (lit 0)) / sig in
  let Th := Theta_potential theta E Lz Q a in
  let ptheta := sign dtheta_dl * safeSqrt (max Th (lit 0)) / sig in
  mkState r theta phi pr ptheta E Lz Q.

(** ** Geodesic derivatives *)

Definition geodesicDerivatives (r theta pr ptheta E Lz Q M a : F) : vec3 F :=
  let r2 := r * r in
  let a2 := a * a in
  let sinTheta := fsin theta in
  let cosTheta := fcos theta in
  let sin2 := sinTheta * sinTheta in
  let cos2 := cosTheta * cosTheta in
  let sig := r2 + a2 * cos2 in
  let del := r2 - lit 2 * M * r + a2 in
  let dr_dl := pr * sig in
  let dtheta_dl := ptheta * sig in
  let dphi_dl :=
    if sin2 >? EPSILON then
      let P := (r2 + a2) * E - a * Lz in
      (- a * E + Lz / sin2 + a * P / del) / sig
    else lit 0 in
  mkVec3 dr_dl dtheta_dl dphi_dl.

Definition momentumDerivatives (r theta pr ptheta E Lz Q M a : F) : vec2 F :=
  let r2 := r * r in
  let a2 := a * a in
  let sinTheta := fsin theta in
  let cosTheta := fcos theta in
  let sin2 := sinTheta * sinTheta in
  let cos2 := cosTheta * cosTheta in
  let sig := r2 + a2 * cos2 in
  let del := r2 - lit 2 * M * r + a2 in
  let dDel_dr := lit 2 * r - lit 2 * M in
  let P := (r2 + a2) * E - a * Lz in
  let dP_dr := lit 2 * r * E in
  let term2 := Lz - a * E in
  let R := P * P - del * (term2 * term2 + Q) in
  let dR_dr := lit 2 * P * dP_dr - dDel_dr * (term2 * term2 + Q) in
  let dSigPr_dl := dR_dr / (lit 2 * sig) in
  let dTheta_dtheta := - lit 2 * a2 * E * E * cosTheta * sinTheta in
  let dTheta_dtheta :=
    if sin2 >? EPSILON then
      dTheta_dtheta + lit 2 * Lz * Lz * cosTheta / (sinTheta * sin2)
    else dTheta_dtheta in
  let dSigPth_dl := dTheta_dtheta / (lit 2 * sig) in
  mkVec2 (dSigPr_dl / sig) (dSigPth_dl / sig).

(** ** RK4 integration step *)

(** Lines 320-363 of [rk4Step]: the four stages, the weighted update and
    the final clamp of [theta]. *)
Definition rk4Update (s : GeodesicState F) (M a h : F) : GeodesicState F :=
  let r := st_r s in
  let theta := st_theta s in
  let phi := st_phi s in
  let pr := st_pr s in
  let ptheta := st_ptheta s in
  let E := st_E s in
  let Lz := st_Lz s in
  let Q := st_Q s in
  (* k1 *)
  let k1_pos := geodesicDerivatives r theta pr ptheta E Lz Q M a in
  let k1_mom := momentumDerivatives r theta pr ptheta E Lz Q M a in
  (* k2 *)
  let r2 := r + lit 0.5 * h * vx k1_pos in
  let th2 := theta + lit 0.5 * h * vy k1_pos in
  let pr2 := pr + lit 0.5 * h * ux k1_mom in
  let pth2 := ptheta + lit 0.5 * h * uy k1_mom in
  let th2 := clamp th2 (lit 0.001) (PI - lit 0.001) in
  let k2_pos := geodesicDerivatives r2 th2 pr2 pth2 E Lz Q M a in
  let k2_mom := momentumDerivatives r2 th2 pr2 pth2 E Lz Q M a in
  (* k3 *)
  let r3 := r + lit 0.5 * h * vx k2_pos in
  let th3 := theta + lit 0.5 * h * vy k2_pos in
  let pr3 := pr + lit 0.5 * h * ux k2_mom in
  let pth3 := ptheta + lit 0.5 * h * uy k2_mom in
  let th3 := clamp th3 (lit 0.001) (PI - lit 0.001) in
  let k3_pos := geodesicDerivatives r3 th3 pr3 pth3 E Lz Q M a in
  let k3_mom := momentumDerivatives r3 th3 pr3 pth3 E Lz Q M a in
  (* k4 *)
  let r4 := r + h * vx k3_pos in
  let th4 := theta + h * vy k3_pos in
  let pr4 := pr + h * ux k3_mom in
  let pth4 := ptheta + h * uy k3_mom in
  let th4 := clamp th4 (lit 0.001) (PI - lit 0.001) in
  let k4_pos := geodesicDerivatives r4 th4 pr4 pth4 E Lz Q M a in
  let k4_mom := momentumDerivatives r4 th4 pr4 pth4 E Lz Q M a in
  (* update *)
  let r := r + h * (vx k1_pos + lit 2 * vx k2_pos + lit 2 * vx k3_pos + vx k4_pos) / lit 6 in
  let theta := theta + h * (vy k1_pos + lit 2 * vy k2_pos + lit 2 * vy k3_pos + vy k4_pos) / lit 6 in
  let phi := phi + h * (vz k1_pos + lit 2 * vz k2_pos + lit 2 * vz k3_pos + vz k4_pos) / lit 6 in
  let pr := pr + h * (ux k1_mom + lit 2 * ux k2_mom + lit 2 * ux k3_mom + ux k4_mom) / lit 6 in
  let ptheta := ptheta + h * (uy k1_mom + lit 2 * uy k2_mom + lit 2 * uy k3_mom + uy k4_mom) / lit 6 in
  let theta := clamp theta (lit 0.001) (PI - lit 0.001) in
  mkState r theta phi pr ptheta E Lz Q.

(** Lines 365-374 of [rk4Step]: the turning-point handling. *)
Definition turningPoints (s : GeodesicState F) (M a : F) : GeodesicState F :=
  let R := R_potential (st_r s) (st_E s) (st_Lz s) (st_Q s) M a in
  let Th := Theta_potential (st_theta s) (st_E s) (st_Lz s) (st_Q s) a in
  let pr := if R <? lit 0 then - st_pr s else st_pr s in
  let ptheta := if Th <? lit 0 then - st_ptheta s else st_ptheta s in
  mkState (st_r s) (st_theta s) (st_phi s) pr ptheta (st_E s) (st_Lz s) (st_Q s).

Definition rk4Step (s : GeodesicState F) (M a h : F) : GeodesicState F :=
  turningPoints (rk4Update s M a h) M a.

(** ** Full geodesic integration *)

(** The reconstruction of the outgoing direction in the "escaped" branch
    (the same text in [integrateGeodesic] and in
    [integrateGeodesicWithFeatures]). *)
Definition escapeDirection (s : GeodesicState F) (M a : F) : vec3 F :=
  let r := st_r s in
  let theta := st_theta s in
  let phi := st_phi s in
  let pos := boyerLindquistToCartesian (mkVec3 r theta phi) a in
  let sinTheta := fsin theta in
  let cosTheta := fcos theta in
  let rHat := normalize pos in
  let zAxis := mkVec3 (lit 0) (lit 0) (lit 1) in
  let phiHat := normalize (cross zAxis rHat) in
  let phiHat :=
    if length (cross zAxis rHat) <? EPSILON then mkVec3 (lit 0) (lit 1) (lit 0)
    else phiHat in
  let rxy := length2 (vx pos) (vy pos) in
  let thetaHat :=
    if rxy >? EPSILON then
      mkVec3 (vz pos * vx pos / (r * rxy)) (vz pos * vy pos / (r * rxy)) (- rxy / r)
    else mkVec3 (lit 1) (lit 0) (lit 0) in
  let vel :=
    geodesicDerivatives r theta (st_pr s) (st_ptheta s)
                        (st_E s) (st_Lz s) (st_Q s) M a in
  normalize (vadd (vadd (vscale (vx vel) rHat)
                        (vscale (r * vy vel) thetaHat))
                  (vscale (r * sinTheta * vz vel) phiHat)).

(** The adaptive step size of [integrateGeodesic]. *)
Definition adaptiveStep (r rH rPh stepSize : F) : F :=
  let distToHorizon := r - rH in
  let h := stepSize * clamp (distToHorizon / rPh) (lit 0.01) (lit 1) in
  if fabs (r - rPh) <? rPh * lit 0.5 then h * lit 0.5 else h.

(** [r < 0.0 || r != r]: the safety test after the step. *)
Definition invalidRadius (r : F) : bool := (r <? lit 0) || (r !=? r).

(** The loop [for (int i = 0; i < 1000; i++)] of [integrateGeodesic],
    entered at counter [i] with [n] iterations left before [i < 1000]
    fails; [calls] counts the [rk4Step] calls made so far. *)
Fixpoint integrateLoop (rayDir : vec3 F) (M a : F) (maxSteps : Z)
    (escapeRadius stepSize rH rPh : F)
    (n : nat) (i : Z) (s : GeodesicState F) (calls : nat) : RayResult F :=
  match n with
  | O => mkResult RAY_MAX_STEPS rayDir calls
  | S n' =>
    if (i >=? maxSteps)%Z then mkResult RAY_MAX_STEPS rayDir calls
    else if st_r s <? rH * lit 1.001 then mkResult RAY_CAPTURED rayDir calls
    else if st_r s >? escapeRadius then
      mkResult RAY_ESCAPED (escapeDirection s M a) calls
    else
      let h := adaptiveStep (st_r s) rH rPh stepSize in
      let s' := rk4Step s M a h in
      if invalidRadius (st_r s') then mkResult RAY_CAPTURED rayDir (S calls)
      else integrateLoop rayDir M a maxSteps escapeRadius stepSize rH rPh
                         n' (i + 1)%Z s' (S calls)
  end.

Definition integrateGeodesic (camPos rayDir : vec3 F) (M a : F)
    (maxSteps : Z) (escapeRadius stepSize : F) : RayResult F :=
  let s := initializeGeodesic camPos rayDir M a in
  let rH := eventHorizonRadius M a in
  let rPh := photonSphereRadius M a in
  integrateLoop rayDir M a maxSteps escapeRadius stepSize rH rPh 1000 0%Z s 0.

(** ** fragment-shader.glsl: integration with feature sampling *)

Section Features.

(** The uniforms of the frame and the three radiance samplers called from
    the loop.  The samplers only feed the colour accumulators; they are
    kept abstract here. *)
Variable U : Uniforms F.
Variable sampleJet : vec3 F -> vec3 F -> F -> F -> F -> vec3 F.
Variable ergosphereVisualization : vec3 F -> vec3 F -> F -> F -> F -> vec3 F.
Variable diskEmission :
  F -> F -> F -> vec3 F -> F -> F -> F -> F -> F -> vec3 F.

(** Lines 170-177: minimum radius and accumulated azimuthal sweep. *)
Definition trackOrbit (s : GeodesicState F) (acc : Accumulators F)
    : Accumulators F :=
  let minR := min (minRadius acc) (st_r s) in
  let dPhi := st_phi s - prevPhi acc in
  let dPhi := if dPhi >? PI then dPhi - TWO_PI else dPhi in
  let dPhi := if dPhi <? - PI then dPhi + TWO_PI else dPhi in
  mkAcc (diskColor acc) (diskAlpha acc) (jetColor acc) (ergoColor acc)
        minR (totalPhiChange acc + fabs dPhi)
        (prevTheta acc) (prevR acc) (prevPhi acc).

(** Lines 225-298: jets, ergosphere and disk sampling, then the update of
    the [prev*] variables. *)
Definition sampleFeatures (rayDir : vec3 F) (M a time : F)
    (s : GeodesicState F) (acc : Accumulators F) : Accumulators F :=
  let r := st_r s in
  let theta := st_theta s in
  let phi := st_phi s in
  let currentPos := boyerLindquistToCartesian (mkVec3 r theta phi) a in
  let jetC :=
    if u_showJets U then
      vadd (jetColor acc)
           (vmul (sampleJet currentPos rayDir M a time) (lit 1 - diskAlpha acc))
    else jetColor acc in
  let ergoC :=
    if u_showErgosphere U then
      vadd (ergoColor acc)
           (vmul (ergosphereVisualization currentPos rayDir M a time) (lit 0.1))
    else ergoColor acc in
  let crossedEquator :=
    (theta - HALF_PI) * (prevTheta acc - HALF_PI) <? lit 0 in
  let distFromEquator := fabs (theta - HALF_PI) in
  let nearEquator := distFromEquator <? u_diskThickness U * lit 4 in
  let '(diskC, diskA) :=
    if u_showDisk U && (diskAlpha acc <? lit 0.995)
       && ((crossedEquator || nearEquator)
           && (r >=? u_diskInnerRadius U * lit 0.95)
           && (r <=? u_diskOuterRadius U * lit 1.1))
    then
      let emission :=
        diskEmission r HALF_PI phi rayDir (u_diskInnerRadius U)
                     (u_diskOuterRadius U) (u_diskTemperature U) M a in
      let pathLength :=
        if nearEquator then distFromEquator / u_diskThickness U else lit 1 in
      let opticalDepth := lit 1 - fexp (- pathLength * lit 10) in
      let lensBoost :=
        if crossedEquator then
          let crossingAngle := fabs (prevTheta acc - theta) in
          let tangentFactor := smoothstep (lit 0.15) (lit 0.005) crossingAngle in
          let lensBoost := lit 1 + tangentFactor * lit 4 in
          if totalPhiChange acc >? PI * lit 0.5 then lensBoost * lit 1.5
          else lensBoost
        else lit 1 in
      let innerBoost :=
        lit 1 + smoothstep (u_diskOuterRadius U * lit 0.4)
                           (u_diskInnerRadius U) r * lit 2.5 in
      let alpha := opticalDepth * (lit 1 - diskAlpha acc) in
      let alpha := min alpha (lit 0.95) in
      (vadd (diskColor acc)
             (vmul (vmul (vmul emission alpha) lensBoost) innerBoost),
       diskAlpha acc + alpha * lit 0.8)
    else (diskColor acc, diskAlpha acc) in
  mkAcc diskC diskA jetC ergoC (minRadius acc) (totalPhiChange acc)
        theta r phi.

(** Lines 300-324: the adaptive step with the disk and jet refinements.
    [currentPos] is the Cartesian position computed for the samplers. *)
Definition adaptiveStepFeatures (M a rH rPh stepSize : F)
    (s : GeodesicState F) : F :=
  let r := st_r s in
  let theta := st_theta s in
  let currentPos :=
    boyerLindquistToCartesian (mkVec3 r theta (st_phi s)) a in
  let h := adaptiveStep r rH rPh stepSize in
  let h :=
    if u_showDisk U && (r >=? u_diskInnerRadius U * lit 0.9)
       && (r <=? u_diskOuterRadius U * lit 1.1)
    then
      let diskProximity := fabs (theta - HALF_PI) / u_diskThickness U in
      if diskProximity <? lit 5 then h * max (lit 0.2) (diskProximity / lit 5)
      else h
    else h in
  if u_showJets U && (fabs (vz currentPos) >? rH * lit 2) then
    let cylR := length2 (vx currentPos) (vy currentPos) in
    let jetRadius := lit 0.5 * M + fabs (vz currentPos) * lit 0.1 in
    if cylR <? jetRadius * lit 2 then h * lit 0.7 else h
  else h.

(** The loop of [integrateGeodesicWithFeatures]; the accumulators are
    returned next to the result. *)
Fixpoint featureLoop (rayDir : vec3 F) (M a : F) (maxSteps : Z)
    (escapeRadius stepSize time rH rPh : F)
    (n : nat) (i : Z) (s : GeodesicState F) (acc : Accumulators F)
    (calls : nat) : RayResult F * Accumulators F :=
  match n with
  | O => (mkResult RAY_MAX_STEPS rayDir calls, acc)
  | S n' =>
    if (i >=? maxSteps)%Z then (mkResult RAY_MAX_STEPS rayDir calls, acc)
    else
      let acc := trackOrbit s acc in
      if st_r s <? rH * lit 1.001 then
        (mkResult RAY_CAPTURED rayDir calls, acc)
      else if st_r s >? escapeRadius then
        (mkResult RAY_ESCAPED (escapeDirection s M a) calls, acc)
      else
        let acc := sampleFeatures rayDir M a time s acc in
        let h := adaptiveStepFeatures M a rH rPh stepSize s in
        let s' := rk4Step s M a h in
        if invalidRadius (st_r s') then
          (mkResult RAY_CAPTURED rayDir (S calls), acc)
        else featureLoop rayDir M a maxSteps escapeRadius stepSize time rH rPh
                         n' (i + 1)%Z s' acc (S calls)
  end.

Definition integrateGeodesicWithFeatures (camPos rayDir : vec3 F) (M a : F)
    (maxSteps : Z) (escapeRadius stepSize time : F)
    : RayResult F * Accumulators F :=
  let s := initializeGeodesic camPos rayDir M a in
  let rH := eventHorizonRadius M a in
  let rPh := photonSphereRadius M a in
  let acc :=
    mkAcc vzero (lit 0) vzero vzero (st_r s) (lit 0)
          (st_theta s) (st_r s) (st_phi s) in
  featureLoop rayDir M a maxSteps escapeRadius stepSize time rH rPh
              1000 0%Z s acc 0.

End Features.

End Shader.

(** ** The remaining library functions and shader sources *)

(** Built-ins used outside the integrator. *)
Class GLFloatLib (F : Type) : Type := {
  flog   : F -> F;
  ffloor : F -> F;
  ftan   : F -> F
}.

(** The five [out] parameters of [getMetricComponents]. *)
Record MetricComponents (F : Type) : Type := mkMetric {
  g_tt : F;
  g_rr : F;
  g_thth : F;
  g_phph : F;
  g_tph : F
}.
Arguments mkMetric {F} _ _ _ _ _.
Arguments g_tt {F} _.
Arguments g_rr {F} _.
Arguments g_thth {F} _.
Arguments g_phph {F} _.
Arguments g_tph {F} _.

(** [struct JetParams]. *)
Record JetParams (F : Type) : Type := mkJetParams {
  baseRadius : F;
  openingAngle : F;
  jetLength : F;        (* the field [length] *)
  coreFraction : F;
  power : F
}.
Arguments mkJetParams {F} _ _ _ _ _.
Arguments baseRadius {F} _.
Arguments openingAngle {F} _.
Arguments jetLength {F} _.
Arguments coreFraction {F} _.
Arguments power {F} _.

(** The debug uniforms read by [addDebugOverlays] besides
    [u_showErgosphere]. *)
Record DebugUniforms : Type := mkDebug {
  u_showHorizon : bool;
  u_showPhotonSphere : bool
}.

Section ShaderLibrary.

Context {F : Type} {FO : GLFloat F} {FL : GLFloatLib F}.
Local Open Scope glsl_scope.

(** *** GLSL built-ins *)

(** [mod(x, y)] is [x - y * floor(x / y)]. *)
Definition glsl_mod (x y : F) : F := x - y * ffloor (x / y).
(** [mix(x, y, a)] is [x * (1 - a) + y * a]. *)
Definition mix (x y a : F) : F := x * (lit 1 - a) + y * a.
Definition vmap (f : F -> F) (v : vec3 F) : vec3 F :=
  mkVec3 (f (vx v)) (f (vy v)) (f (vz v)).
Definition vmix (u v : vec3 F) (a : F) : vec3 F :=
  mkVec3 (mix (vx u) (vx v) a) (mix (vy u) (vy v) a) (mix (vz u) (vz v) a).
Definition vclamp (v : vec3 F) (lo hi : F) : vec3 F :=
  vmap (fun x => clamp x lo hi) v.

(** *** utils.glsl *)

Definition safeInverse (x : F) : F :=
  lit 1 / (if fabs x <? EPSILON then sign x * EPSILON else x).

Definition wrapAngle (angle : F) : F := glsl_mod angle TWO_PI.

Definition signPositive (x : F) : F :=
  if x >=? lit 0 then lit 1 else lit (-1).

Definition temperatureToRGB (tempKelvin : F) : vec3 F :=
  let temp := clamp tempKelvin (lit 1000) (lit 40000) / lit 100 in
  let red :=
    if temp <=? lit 66 then lit 1
    else lit 1.29293618606 * fpow (temp - lit 60) (- lit 0.1332047592) in
  let green :=
    if temp <=? lit 66 then lit 0.390081578769 * flog temp - lit 0.631841443788
    else lit 1.12989086089 * fpow (temp - lit 60) (- lit 0.0755148492) in
  let blue :=
    if temp >=? lit 66 then lit 1
    else if temp <=? lit 19 then lit 0
    else lit 0.543206789110 * flog (temp - lit 10) - lit 1.19625408914 in
  vclamp (mkVec3 red green blue) (lit 0) (lit 1).

Definition gammaCorrect (color : vec3 F) (gamma : F) : vec3 F :=
  vmap (fun c => fpow c (lit 1 / gamma)) color.



(** *** kerr-metric.glsl *)

Definition metricA (r theta M a : F) : F :=
  let r2 := r * r in
  let a2 := a * a in
  let del := delta r M a in
  let sinTheta := fsin theta in
  let sin2 := sinTheta * sinTheta in
  let sum := r2 + a2 in
  sum * sum - a2 * del * sin2.

Definition ergosphereRadius (theta M a : F) : F :=
  let cosTheta := fcos theta in
  M + safeSqrt (M * M - a * a * cosTheta * cosTheta).

Definition isInsideHorizon (r M a : F) : bool := r <? eventHorizonRadius M a.

Definition isInErgosphere (r theta M a : F) : bool :=
  let rH := eventHorizonRadius M a in
  let rE := ergosphereRadius theta M a in
  (r >=? rH) && (r <? rE).

Definition getMetricComponents (r theta M a : F) : MetricComponents F :=
  let sig := sigma r theta a in
  let del := delta r M a in
  let sinTheta := fsin theta in
  let sin2 := sinTheta * sinTheta in
  let r2 := r * r in
  let a2 := a * a in
  let g_tt := - (lit 1 - lit 2 * M * r / sig) in
  let g_rr := sig / del in
  let g_thth := sig in
  let A := (r2 + a2) * (r2 + a2) - a2 * del * sin2 in
  let g_phph := A * sin2 / sig in
  let g_tph := - lit 2 * a * M * r * sin2 / sig in
  mkMetric g_tt g_rr g_thth g_phph g_tph.

Definition lapseFunction (r theta M a : F) : F :=
  let sig := sigma r theta a in
  let del := delta r M a in
  let A := metricA r theta M a in
  safeSqrt (del * sig / A).

Definition frameDragging (r theta M a : F) : F :=
  let A := metricA r theta M a in
  lit 2 * a * M * r / A.

(** *** accretion-disk.glsl *)


Definition rayDiskIntersection
    (r theta phi dr dtheta dphi innerRadius outerRadius M a : F) : F :=
  let targetTheta := HALF_PI in
  let deltaTheta := targetTheta - theta in
  if fabs dtheta <? EPSILON then lit (-1)
  else
    let lambda := deltaTheta / dtheta in
    if lambda <? lit 0 then lit (-1)
    else
      let rAtIntersection := r + lambda * dr in
      if (rAtIntersection >=? innerRadius) && (rAtIntersection <=? outerRadius)
      then lambda
      else lit (-1).

Definition keplerianOmega (r M a : F) : F :=
  let sqrtM := fsqrt M in
  let r15 := r * fsqrt r in
  sqrtM / (r15 + a * sqrtM).

Definition orbitalVelocity (r theta M a : F) : F :=
  let omega := keplerianOmega r M a in
  let sinTheta := fsin theta in
  let sig := sigma r theta a in
  let del := delta r M a in
  let gtt := - (lit 1 - lit 2 * M * r / sig) in
  let gtphi := - lit 2 * a * M * r * sinTheta * sinTheta / sig in
  let gphiphi :=
    ((r * r + a * a) * (r * r + a * a) - a * a * del * sinTheta * sinTheta)
    * sinTheta * sinTheta / sig in
  let v :=
    fsqrt gphiphi * omega
    / fsqrt (- gtt - lit 2 * gtphi * omega - gphiphi * omega * omega + EPSILON) in
  clamp v (lit 0) (lit 0.999).

Definition dopplerFactor (r theta phi : F) (rayDir : vec3 F) (M a : F) : F :=
  let sinPhi := fsin phi in
  let cosPhi := fcos phi in
  let velDir := mkVec3 (- sinPhi) cosPhi (lit 0) in
  let v := orbitalVelocity r theta M a in
  let velocity := vscale v velDir in
  let toObserver := vmap fneg rayDir in
  let vRadial := dot velocity toObserver in
  let gamma := lit 1 / fsqrt (lit 1 - v * v + EPSILON) in
  let g := lit 1 / (gamma * (lit 1 - vRadial)) in
  clamp g (lit 0.1) (lit 10).

Definition gravitationalRedshift (r theta M a : F) : F :=
  let sig := sigma r theta a in
  let gtt := lit 1 - lit 2 * M * r / sig in
  fsqrt (max gtt EPSILON).

Definition relativisticFactor
    (r theta phi : F) (rayDir : vec3 F) (M a : F) : F :=
  let gDoppler := dopplerFactor r theta phi rayDir M a in
  let gGrav := gravitationalRedshift r theta M a in
  gDoppler * gGrav.

Definition diskEmission
    (r theta phi : F) (rayDir : vec3 F) (innerRadius outerRadius T0 M a : F)
    : vec3 F :=
  if (r <? innerRadius) || (r >? outerRadius) then vzero
  else
    let rISCO := iscoRadius M a in
    let T := diskTemperatureNT r rISCO T0 M a in
    if T <? lit 100 then vzero
    else
      let g := relativisticFactor r theta phi rayDir M a in
      let Tobs := T * g in
      let color := temperatureToRGB Tobs in
      let intensity := fpow (T / T0) (lit 4) in
      let g4 := g * g * g * g in
      let intensity := intensity * g4 in
      let radialFalloff := fsqrt (innerRadius / r) in
      let intensity := intensity * radialFalloff in
      let intensity := clamp intensity (lit 0) (lit 10) in
      vmul color intensity.


(** *** advanced-features.glsl *)

Definition photonRingIntensity (r minR rPh M a : F) : F :=
  let proximity := fabs (minR - rPh) / rPh in
  let intensity := fexp (- proximity * lit 8) in
  let intensity :=
    if proximity <? lit 0.1 then intensity + (lit 0.1 - proximity) * lit 5
    else intensity in
  clamp intensity (lit 0) (lit 1).

Definition getJetParams (M a : F) : JetParams F :=
  let spinFactor := (a / M) * (a / M) in
  mkJetParams (lit 0.5 * M) (lit 0.1) (lit 30 * M) (lit 0.3) (spinFactor * lit 2).

(** [isInJet]: [Some (jetFraction, distAlongJet)] stands for [true] with
    the two [out] parameters, [None] for [false]. *)
Definition isInJet (pos : vec3 F) (params : JetParams F) (M a : F)
    : option (F * F) :=
  let z := vz pos in
  let rCyl := length2 (vx pos) (vy pos) in
  let distAlongJet := fabs z in
  let rH := eventHorizonRadius M a in
  if distAlongJet <? rH * lit 2 then None
  else
    let jetRadius := baseRadius params + distAlongJet * ftan (openingAngle params) in
    if (rCyl >? jetRadius) || (distAlongJet >? jetLength params) then None
    else
      let jetFraction := lit 1 - rCyl / jetRadius in
      let jetFraction :=
        if jetFraction >? lit 1 - coreFraction params then lit 1
        else jetFraction / (lit 1 - coreFraction params) in
      Some (jetFraction, distAlongJet).

Definition jetEmission (pos rayDir : vec3 F) (params : JetParams F)
    (M a time : F) : vec3 F :=
  match isInJet pos params M a with
  | None => vzero
  | Some (jetFraction, distAlongJet) =>
      let coreColor := mkVec3 (lit 0.7) (lit 0.8) (lit 1) in
      let sheathColor := mkVec3 (lit 0.5) (lit 0.6) (lit 0.9) in
      let baseColor := vmix sheathColor coreColor jetFraction in
      let falloff := fexp (- distAlongJet / (jetLength params * lit 0.5)) in
      let coreBoost := lit 1 + jetFraction * lit 2 in
      let knotFreq := lit 5 in
      let knotPhase := distAlongJet / M * knotFreq + time * lit 0.5 in
      let knots := fpow (lit 0.5 + lit 0.5 * fsin knotPhase) (lit 4) in
      let knots := knots * smoothstep (lit 0.5) (lit 1) jetFraction in
      let jetVelocity := lit 0.9 * jetFraction in
      let jetDir := mkVec3 (lit 0) (lit 0) (sign (vz pos)) in
      let cosAngle := dot rayDir jetDir in
      let gamma := lit 1 / fsqrt (lit 1 - jetVelocity * jetVelocity + EPSILON) in
      let doppler := lit 1 / (gamma * (lit 1 - jetVelocity * cosAngle)) in
      let dopplerBoost := fpow (clamp doppler (lit 0.1) (lit 10)) (lit 3) in
      let intensity :=
        power params * falloff * coreBoost * (lit 1 + knots * lit 0.5)
        * dopplerBoost in
      let opticalDepth := lit 0.3 * jetFraction in
      let intensity := intensity * opticalDepth in
      vmul (vmul baseColor intensity) (lit 0.5)
  end.

Definition sampleJet (pos rayDir : vec3 F) (M a time : F) : vec3 F :=
  if fabs a <? lit 0.1 * M then vzero
  else
    let params := getJetParams M a in
    jetEmission pos rayDir params M a time.

Definition ergosphereRadiusAtTheta (theta M a : F) : F :=
  let cosTheta := fcos theta in
  M + fsqrt (M * M - a * a * cosTheta * cosTheta).

(** The overload [isInErgosphere(vec3 pos, float M, float a)]. *)
Definition isInErgospherePos (pos : vec3 F) (M a : F) : bool :=
  let bl := cartesianToBoyerLindquist pos a in
  let r := vx bl in
  let theta := vy bl in
  let rH := eventHorizonRadius M a in
  let rE := ergosphereRadiusAtTheta theta M a in
  (r >? rH) && (r <? rE).

Definition frameDraggingOmega (r theta M a : F) : F :=
  let r2 := r * r in
  let a2 := a * a in
  let sinTheta := fsin theta in
  let sin2 := sinTheta * sinTheta in
  let del := r2 - lit 2 * M * r + a2 in
  let A := (r2 + a2) * (r2 + a2) - a2 * del * sin2 in
  if A <? EPSILON then lit 0
  else lit 2 * a * M * r / A.

Definition ergosphereVisualization (pos rayDir : vec3 F) (M a time : F)
    : vec3 F :=
  let bl := cartesianToBoyerLindquist pos a in
  let r := vx bl in
  let theta := vy bl in
  let phi := vz bl in
  let rH := eventHorizonRadius M a in
  let rE := ergosphereRadiusAtTheta theta M a in
  if (r <=? rH) || (r >=? rE * lit 1.2) then vzero
  else
    let depth := lit 1 - (r - rH) / (rE - rH) in
    let depth := clamp depth (lit 0) (lit 1) in
    let boundaryDist := fabs (r - rE) / M in
    let boundaryGlow := fexp (- boundaryDist * lit 10) * lit 0.3 in
    let omega := frameDraggingOmega r theta M a in
    let swirl := fsin (phi * lit 3 + time * omega * lit 10 + depth * lit 5) in
    let swirl := swirl * lit 0.5 + lit 0.5 in
    let ergoColor := mkVec3 (lit 0) (lit 0.4) (lit 0.5) in
    let deepColor := mkVec3 (lit 0.1) (lit 0.3) (lit 0.4) in
    let color := vmix ergoColor deepColor depth in
    let color :=
      vmul color (boundaryGlow + depth * lit 0.1 + swirl * lit 0.05 * depth) in
    let equatorFade := lit 1 - fabs (theta - HALF_PI) / HALF_PI in
    let color := vmul color (lit 0.3 + lit 0.7 * equatorFade) in
    vmul color (lit 0.5).

Definition sampleAdvancedFeatures (pos rayDir : vec3 F) (M a time : F)
    (showJets showErgosphere : bool) : vec3 F :=
  let emission := vzero in
  let emission :=
    if showJets then vadd emission (sampleJet pos rayDir M a time)
    else emission in
  if showErgosphere then
    vadd emission (ergosphereVisualization pos rayDir M a time)
  else emission.

(** *** fragment-shader.glsl: ray generation and debug overlays *)

Definition getRayDirection (uv : vec2 F) (fov aspect : F) : vec3 F :=
  let ndc := mkVec2 (ux uv * lit 2 - lit 1) (uy uv * lit 2 - lit 1) in
  let ndc := mkVec2 (ux ndc * aspect) (uy ndc) in
  let tanHalfFov := ftan (fov * lit 0.5) in
  normalize (mkVec3 (ux ndc * tanHalfFov) (uy ndc * tanHalfFov) (lit 1)).

Definition addDebugOverlays (U : Uniforms F) (D : DebugUniforms)
    (u_mass u_spin : F) (color rayOrigin rayDir : vec3 F) : vec3 F :=
  let M := u_mass in
  let a := u_spin in
  let rH := eventHorizonRadius M a in
  let rPh := photonSphereRadius M a in
  let color :=
    if u_showHorizon D then
      let oc := rayOrigin in
      let b := dot oc rayDir in
      let c := dot oc oc - rH * rH in
      let discriminant := b * b - c in
      if discriminant >? lit 0 then
        let t := - b - fsqrt discriminant in
        if t >? lit 0 then
          vmix color (mkVec3 (lit 0.3) (lit 0) (lit 0)) (lit 0.2)
        else color
      else color
    else color in
  let color :=
    if u_showPhotonSphere D then
      let oc := rayOrigin in
      let b := dot oc rayDir in
      let c := dot oc oc - rPh * rPh in
      let discriminant := b * b - c in
      if discriminant >? lit 0 then
        let t1 := - b - fsqrt discriminant in
        let t2 := - b + fsqrt discriminant in
        if (t1 >? lit 0) || (t2 >? lit 0) then
          vadd color (vmul (mkVec3 (lit 0.1) (lit 0.1) (lit 0)) (lit 0.3))
        else color
      else color
    else color in
  if u_showErgosphere U then
    let rErgo := lit 2 * M in
    let oc := rayOrigin in
    let b := dot oc rayDir in
    let c := dot oc oc - rErgo * rErgo in
    let discriminant := b * b - c in
    if discriminant >? lit 0 then
      let t := - b - fsqrt discriminant in
      if t >? lit 0 then
        let hitPos := vadd rayOrigin (vscale t rayDir) in
        let hitR := length hitPos in
        if (hitR >? rH) && (hitR <? rErgo) then
          vadd color (vmul (mkVec3 (lit 0) (lit 0.1) (lit 0.1)) (lit 0.3))
        else color
      else color
    else color
  else color.

End ShaderLibrary.

End GLSL.

(* ====================================================================== *)
(** * Part II.  Real-number semantics of the numeric library               *)
(* ====================================================================== *)

(** Floats are idealised as real numbers: rounding, infinities and NaN are
    not modelled.  Where a library function has no real value (division by
    zero, square root of a negative number, a zero or negative base of a
    fractional power) the Standard Library's total functions decide the
    value; the theorems below keep their inputs inside the domain where the
    source computes finite numbers. *)

Module RealMath.

Local Open Scope R_scope.

Definition Rltb (x y : R) : bool := if Rlt_dec x y then true else false.
Definition Rleb (x y : R) : bool := if Rle_dec x y then true else false.
Definition Reqb (x y : R) : bool := if Req_dec_T x y then true else false.

(** [atan2(y, x)]: the angle of the point [(x, y)], in [(-PI, PI]]. *)
Definition atan2 (y x : R) : R :=
  if Rlt_dec 0 x then atan (y / x)
  else if Rlt_dec x 0 then
    (if Rle_dec 0 y then atan (y / x) + PI else atan (y / x) - PI)
  else if Rlt_dec 0 y then PI / 2
  else if Rlt_dec y 0 then - (PI / 2)
  else 0.

(** [pow(x, y)]: [x] to the power [y] for [x > 0]; [pow(x, 0) = 1];
    [pow(0, y) = 0] for [y > 0].  (For [x < 0] and fractional [y] the
    source's result is NaN, for [x = 0] and [y < 0] it is infinite: the
    value given here for those is a placeholder.) *)
Definition pow (x y : R) : R :=
  if Req_dec_T y 0 then 1
  else if Rlt_dec 0 x then Rpower x y
  else 0.

(** [floor(x)]: the largest integer not above [x]. *)
Definition floor (x : R) : R := IZR (Int_part x).

End RealMath.

(** The shader's floats read as real numbers. *)
#[export] Instance RFloat : GLSL.GLFloat R := {|
  GLSL.lit := Q2R;
  GLSL.fadd := Rplus;
  GLSL.fsub := Rminus;
  GLSL.fmul := Rmult;
  GLSL.fdiv := Rdiv;
  GLSL.fneg := Ropp;
  GLSL.fabs := Rabs;
  GLSL.fsqrt := sqrt;
  GLSL.fsin := sin;
  GLSL.fcos := cos;
  GLSL.facos := acos;
  GLSL.fatan2 := RealMath.atan2;
  GLSL.fexp := exp;
  GLSL.fpow := RealMath.pow;
  GLSL.flt := RealMath.Rltb;
  GLSL.fle := RealMath.Rleb;
  GLSL.feq := RealMath.Reqb
|}.

#[export] Instance RFloatLib : GLSL.GLFloatLib R := {|
  GLSL.flog := ln;
  GLSL.ffloor := RealMath.floor;
  GLSL.ftan := tan
|}.

(* ====================================================================== *)
(** * Part III.  The JavaScript physics modules                            *)
(* ====================================================================== *)

Module JS.

Local Open Scope R_scope.

(** [config]: [export const EPSILON = 1e-6]. *)
Definition EPSILON : R := 1e-6.

(** The [Math] object. *)
Module Math.
Definition PI : R := Rtrigo1.PI.
Definition abs : R -> R := Rabs.
Definition sqrt : R -> R := R_sqrt.sqrt.
Definition max : R -> R -> R := Rmax.
Definition min : R -> R -> R := Rmin.
Definition sin : R -> R := Rtrigo_def.sin.
Definition cos : R -> R := Rtrigo_def.cos.
Definition acos : R -> R := Ratan.acos.
Definition atan2 : R -> R -> R := RealMath.atan2.
Definition pow : R -> R -> R := RealMath.pow.
End Math.

(** What a method call leaves behind: it returns normally or throws. *)
Inductive Error : Type :=
  | MassMustBePositive
      (* new Error('Mass must be positive') *)
  | SpinOutOfRange (spin mass : R).
      (* new Error(`Spin parameter |a| must be <= M. Got a=${spin}, M=${mass}`) *)

Inductive Completion (A : Type) : Type :=
  | Normal (v : A)
  | Throw (e : Error).
Arguments Normal {A} _.
Arguments Throw {A} _.

(** ** class KerrMetric *)

Module KerrMetric.

Record t : Type := mk { M : R; a : R; a2 : R }.

(** [setParameters(mass, spin)] run on the object [this]: the completion
    and the object afterwards. *)
Definition setParameters (this : t) (mass spin : R) : Completion unit * t :=
  if Rle_dec mass 0 then (Throw MassMustBePositive, this)
  else if Rgt_dec (Math.abs spin) mass then (Throw (SpinOutOfRange spin mass), this)
  else (Normal tt, mk mass spin (spin * spin)).

(** The object [new] allocates before the constructor body runs.  Its
    fields are undefined in the source; they are all assigned before the
    constructor returns normally, and the object is unreachable when the
    constructor throws. *)
Definition fresh : t := mk 0 0 0.

(** [constructor(mass = 1, spin = 0)]: [None] stands for an omitted
    argument. *)
Definition constructor (mass spin : option R) : Completion t :=
  let mass := match mass with Some m => m | None => 1 end in
  let spin := match spin with Some s => s | None => 0 end in
  match setParameters fresh mass spin with
  | (Normal _, this) => Normal this
  | (Throw e, _) => Throw e
  end.

Definition sigma (this : t) (r theta : R) : R :=
  let cosTheta := Math.cos theta in
  r * r + a2 this * cosTheta * cosTheta.

Definition delta (this : t) (r : R) : R :=
  r * r - 2 * M this * r + a2 this.

Definition eventHorizonRadius (this : t) : R :=
  M this + Math.sqrt (Math.max 0 (M this * M this - a2 this)).

Definition innerHorizonRadius (this : t) : R :=
  M this - Math.sqrt (Math.max 0 (M this * M this - a2 this)).

Definition ergosphereRadius (this : t) (theta : R) : R :=
  let cosTheta := Math.cos theta in
  M this + Math.sqrt (Math.max 0 (M this * M this - a2 this * cosTheta * cosTheta)).

Definition iscoRadius (this : t) : R :=
  let chi := a this / M this in
  let chi2 := chi * chi in
  let oneMinusChi2_13 := Math.pow (1 - chi2) (1 / 3) in
  let onePlusChi_13 := Math.pow (1 + chi) (1 / 3) in
  let oneMinusChi_13 := Math.pow (Math.abs (1 - chi)) (1 / 3) in
  let Z1 := 1 + oneMinusChi2_13 * (onePlusChi_13 + oneMinusChi_13) in
  let Z2 := Math.sqrt (3 * chi2 + Z1 * Z1) in
  M this * (3 + Z2 - Math.sqrt ((3 - Z1) * (3 + Z1 + 2 * Z2))).

Definition iscoRadiusRetrograde (this : t) : R :=
  let chi := a this / M this in
  let chi2 := chi * chi in
  let oneMinusChi2_13 := Math.pow (1 - chi2) (1 / 3) in
  let onePlusChi_13 := Math.pow (1 + chi) (1 / 3) in
  let oneMinusChi_13 := Math.pow (Math.abs (1 - chi)) (1 / 3) in
  let Z1 := 1 + oneMinusChi2_13 * (onePlusChi_13 + oneMinusChi_13) in
  let Z2 := Math.sqrt (3 * chi2 + Z1 * Z1) in
  M this * (3 + Z2 + Math.sqrt ((3 - Z1) * (3 + Z1 + 2 * Z2))).

Definition photonSphereRadius (this : t) : R :=
  if Rlt_dec (Math.abs (a this)) EPSILON then 3 * M this
  else
    let chi := Math.max (-1) (Math.min 1 (a this / M this)) in
    2 * M this * (1 + Math.cos ((2 / 3) * Math.acos (- chi))).

Definition isInsideHorizon (this : t) (r : R) : bool :=
  RealMath.Rltb r (eventHorizonRadius this).

Definition frameDraggingOmega (this : t) (r theta : R) : R :=
  let r2 := r * r in
  let sinTheta := Math.sin theta in
  let sin2 := sinTheta * sinTheta in
  let del := delta this r in
  let sum := r2 + a2 this in
  let A := sum * sum - a2 this * del * sin2 in
  (2 * a this * M this * r) / A.

(** The object literals [{ r, theta, phi }] and [{ x, y, z }]. *)
Record BL : Type := mkBL { r : R; theta : R; phi : R }.
Record Cartesian : Type := mkXYZ { x : R; y : R; z : R }.

Definition cartesianToBoyerLindquist (this : t) (x y z : R) : BL :=
  let a := a this in
  if Rlt_dec (Math.abs a) EPSILON then
    let r := Math.sqrt (x * x + y * y + z * z) in
    let theta := if Rgt_dec r EPSILON then Math.acos (z / r) else 0 in
    let phi := Math.atan2 y x in
    let phi := if Rlt_dec phi 0 then phi + 2 * Math.PI else phi in
    mkBL r theta phi
  else
    let a2 := a * a in
    let rho2 := x * x + y * y + z * z in
    let b := rho2 - a2 in
    let c := - a2 * z * z in
    let discriminant := b * b - 4 * c in
    let r2 := (b + Math.sqrt (Math.max 0 discriminant)) / 2 in
    let r := Math.sqrt (Math.max 0 r2) in
    let theta :=
      if Rgt_dec r EPSILON then Math.acos (Math.max (-1) (Math.min 1 (z / r)))
      else 0 in
    let phi := Math.atan2 y x in
    let phi := if Rlt_dec phi 0 then phi + 2 * Math.PI else phi in
    mkBL r theta phi.

Definition boyerLindquistToCartesian (this : t) (r theta phi : R) : Cartesian :=
  let sinTheta := Math.sin theta in
  let cosTheta := Math.cos theta in
  let rho := Math.sqrt (r * r + a2 this) in
  mkXYZ (rho * sinTheta * Math.cos phi)
        (rho * sinTheta * Math.sin phi)
        (r * cosTheta).

Definition isInErgosphere (this : t) (r theta : R) : bool :=
  let rH := eventHorizonRadius this in
  let rE := ergosphereRadius this theta in
  RealMath.Rleb rH r && RealMath.Rltb r rE.

(** The object literal returned by [getKeyRadii()]. *)
Record KeyRadii : Type := mkKeyRadii {
  eventHorizon : R;
  innerHorizon : R;
  ergosphereEquator : R;
  ergospherePole : R;
  isco : R;
  iscoRetrograde : R;
  photonSphere : R
}.

Definition getKeyRadii (this : t) : KeyRadii :=
  mkKeyRadii (eventHorizonRadius this)
             (innerHorizonRadius this)
             (ergosphereRadius this (Math.PI / 2))
             (ergosphereRadius this 0)
             (iscoRadius this)
             (iscoRadiusRetrograde this)
             (photonSphereRadius this).

End KerrMetric.

(** ** class AccretionDisk *)

Module AccretionDisk.

Record t : Type := mk {
  M : R;
  a : R;
  outerRadius : R;
  T0 : R;
  innerRadius : R
}.

(** [calculateISCO()] reads only [this.a] and [this.M]. *)
Definition calculateISCO (M a : R) : R :=
  let chi := a / M in
  let chi2 := chi * chi in
  let oneMinusChi2_13 := Math.pow (1 - chi2) (1 / 3) in
  let onePlusChi_13 := Math.pow (1 + chi) (1 / 3) in
  let oneMinusChi_13 := Math.pow (Math.abs (1 - chi)) (1 / 3) in
  let Z1 := 1 + oneMinusChi2_13 * (onePlusChi_13 + oneMinusChi_13) in
  let Z2 := Math.sqrt (3 * chi2 + Z1 * Z1) in
  M * (3 + Z2 - Math.sqrt ((3 - Z1) * (3 + Z1 + 2 * Z2))).

(** [constructor(mass, spin, innerRadius = null, outerRadius = 15,
    peakTemperature = 1e7)]; [innerRadius || this.calculateISCO()] takes
    the ISCO when [innerRadius] is null or zero. *)
Definition constructor (mass spin : R) (innerRadius outerRadius peakTemperature : option R) : t :=
  let outerRadius := match outerRadius with Some x => x | None => 15 end in
  let peakTemperature := match peakTemperature with Some x => x | None => 1e7 end in
  let inner :=
    match innerRadius with
    | Some x => if Req_dec_T x 0 then calculateISCO mass spin else x
    | None => calculateISCO mass spin
    end in
  mk mass spin outerRadius peakTemperature inner.

Definition temperature (this : t) (r : R) : R :=
  if Rle_dec r (innerRadius this) then 0
  else
    let x := r / M this in
    let xISCO := innerRadius this / M this in
    let f := 1 - Math.sqrt (xISCO / x) in
    if Rle_dec f 0 then 0
    else
      let temp := T0 this * Math.pow (1 / (x * x * x)) 0.25 * Math.pow f 0.25 in
      Math.min temp (T0 this).

Definition keplerianOmega (this : t) (r : R) : R :=
  let sqrtM := Math.sqrt (M this) in
  let r15 := r * Math.sqrt r in
  sqrtM / (r15 + a this * sqrtM).

(** [orbitalVelocity(r)].  In the source [Math.sqrt] of a negative number
    is NaN, so where the radicand of [denom] is negative (at zero spin:
    [r < 3M]) the method returns NaN; the real-number [sqrt] is 0 there and
    this definition returns 0.999 instead.  The definition is the source's
    where the radicand is non-negative, and every statement below about
    the velocity is made there ([a = 0], [r > 3M]) or takes the value of
    the velocity as a hypothesis. *)
Definition orbitalVelocity (this : t) (r : R) : R :=
  let omega := keplerianOmega this r in
  let sig := r * r in
  let del := r * r - 2 * M this * r + a this * a this in
  let gtt := - (1 - 2 * M this * r / sig) in
  let gtphi := - 2 * a this * M this * r / sig in
  let gphiphi := ((r * r + a this * a this) ^ 2 - a this * a this * del) / sig in
  let denom := Math.sqrt (- gtt - 2 * gtphi * omega - gphiphi * omega * omega) in
  if Rlt_dec denom 1e-10 then 0.999
  else
    let v := Math.sqrt gphiphi * omega / denom in
    Math.min v 0.999.

Definition gravitationalRedshift (this : t) (r : R) : R :=
  let sig := r * r in
  let gtt := 1 - 2 * M this * r / sig in
  Math.sqrt (Math.max gtt 1e-10).

Definition dopplerFactor (this : t) (r viewAngle : R) : R :=
  let v := orbitalVelocity this r in
  let gamma := 1 / Math.sqrt (1 - v * v) in
  let vRadial := v * Math.cos viewAngle in
  1 / (gamma * (1 - vRadial)).

(** The object literal returned by [getPropertiesAt(r)]. *)
Record Properties : Type := mkProperties {
  p_radius : R;
  p_temperature : R;
  p_orbitalVelocity : R;
  p_keplerianPeriod : R;
  p_gravitationalRedshift : R;
  p_isInDisk : bool
}.

Definition getPropertiesAt (this : t) (r : R) : Properties :=
  mkProperties r
               (temperature this r)
               (orbitalVelocity this r)
               (2 * Math.PI / keplerianOmega this r)
               (gravitationalRedshift this r)
               (RealMath.Rleb (innerRadius this) r
                && RealMath.Rleb r (outerRadius this)).

(** The object literal returned by [getParameters()]. *)
Record Parameters : Type := mkParameters {
  q_innerRadius : R;
  q_outerRadius : R;
  q_peakTemperature : R;
  q_iscoRadius : R;
  q_innerVelocity : R;
  q_outerVelocity : R;
  q_innerTemp : R;
  q_outerTemp : R
}.

Definition getParameters (this : t) : Parameters :=
  mkParameters (innerRadius this)
               (outerRadius this)
               (T0 this)
               (calculateISCO (M this) (a this))
               (orbitalVelocity this (innerRadius this))
               (orbitalVelocity this (outerRadius this))
               (temperature this (innerRadius this * 1.01))
               (temperature this (outerRadius this)).

End AccretionDisk.

End JS.

(* ====================================================================== *)
(** * Part IV.  Vocabulary of the statements                               *)
(* ====================================================================== *)

(** The codes an integrator may hand back. *)
Definition terminal (c : GLSL.RayStatus) : Prop :=
  c = GLSL.RAY_CAPTURED \/ c = GLSL.RAY_ESCAPED \/ c = GLSL.RAY_MAX_STEPS.

(** The radial, equatorial geodesic system of a non-rotating hole, as the
    shader's derivative functions compute it for [a = 0], [E = 1],
    [Lz = 0], [Q = 0], [theta = pi/2], [ptheta = 0]: the velocity
    [dr/dlambda = pr * Sigma] and the force [dpr/dlambda]. *)
Definition radialVelocity (r pr : R) : R := (pr * (r * r))%R.
Definition radialForce (r : R) : R := (4 * (r * r * r) / (2 * (r * r)) / (r * r))%R.

(** One RK4 step of that system with step [h]: the new [r] and [pr]. *)
Definition radialRK4 (r pr h : R) : R * R :=
  (let k1 := radialVelocity r pr in
   let m1 := radialForce r in
   let r2 := r + 0.5 * h * k1 in
   let pr2 := pr + 0.5 * h * m1 in
   let k2 := radialVelocity r2 pr2 in
   let m2 := radialForce r2 in
   let r3 := r + 0.5 * h * k2 in
   let pr3 := pr + 0.5 * h * m2 in
   let k3 := radialVelocity r3 pr3 in
   let m3 := radialForce r3 in
   let r4 := r + h * k3 in
   let pr4 := pr + h * m3 in
   let k4 := radialVelocity r4 pr4 in
   let m4 := radialForce r4 in
   (r + h * (k1 + 2 * k2 + 2 * k3 + k4) / 6,
    pr + h * (m1 + 2 * m2 + 2 * m3 + m4) / 6))%R.

(** The plain spherical coordinates of a Cartesian point: radius, polar
    angle from the z axis, azimuth in [[0, 2 pi)]. *)
Definition sphericalCoordinates (x y z : R) : JS.KerrMetric.BL :=
  (let r := sqrt (x * x + y * y + z * z) in
   let phi := RealMath.atan2 y x in
   JS.KerrMetric.mkBL r (acos (z / r))
                      (if Rlt_dec phi 0 then phi + 2 * PI else phi))%R.

(** A frame with every optional feature switched off. *)
Definition featuresOff : GLSL.Uniforms R :=
  GLSL.mkUniforms R false false false 0%R 0%R 0%R 0%R.

(** A sampler that contributes no light. *)
Definition darkSampler : GLSL.vec3 R -> GLSL.vec3 R -> R -> R -> R -> GLSL.vec3 R :=
  fun _ _ _ _ _ => GLSL.mkVec3 0%R 0%R 0%R.
Definition darkDisk
  : R -> R -> R -> GLSL.vec3 R -> R -> R -> R -> R -> R -> GLSL.vec3 R :=
  fun _ _ _ _ _ _ _ _ _ => GLSL.mkVec3 0%R 0%R 0%R.

(** The temperature profile in the words of the specification,
    [T0 * (M / r^3)^0.25 * (1 - sqrt(rISCO / r))^0.25], before any ceiling. *)
Definition claimedProfile (T0 M rISCO r : R) : R :=
  (T0 * Rpower (M / (r * r * r)) 0.25 * Rpower (1 - sqrt (rISCO / r)) 0.25)%R.

(** The product the code computes, from the dimensionless radius [r / M]:
    [T0 * ((M / r)^3)^0.25 * (1 - sqrt(rISCO / r))^0.25].  It is the stated
    profile when [M = 1]. *)
Definition dimensionlessProfile (T0 M rISCO r : R) : R :=
  (T0 * Rpower (M / r * (M / r) * (M / r)) 0.25
   * Rpower (1 - sqrt (rISCO / r)) 0.25)%R.

(** [new AccretionDisk(1, 0)]: the Schwarzschild disk with the default
    outer radius and peak temperature. *)
Definition schwarzschildDisk : JS.AccretionDisk.t :=
  JS.AccretionDisk.constructor 1%R 0%R None None None.

(** The fourth power of the normalised Schwarzschild profile. *)
Definition fluxShape (r : R) : R :=
  (1 / r * (1 / r) * (1 / r) * (1 - sqrt (6 / r)))%R.

(* ====================================================================== *)
(** * Part V.  Properties of the integration loop, for any float type      *)
(* ====================================================================== *)

Section LoopProperties.

Import GLSL.
Context {F : Type} {FO : GLFloat F}.
Local Open Scope glsl_scope.

Lemma terminal_not_active : forall c, terminal c -> c <> RAY_ACTIVE.
Proof. intros c [-> | [-> | ->]]; discriminate. Qed.

(** Entered with [n] iterations left and [calls] steps already taken, the
    plain loop ends in a terminal code after at most [n] further steps. *)
Lemma integrateLoop_bounded :
  forall rayDir M a maxSteps escapeRadius stepSize rH rPh n i s calls,
    let res := integrateLoop rayDir M a maxSteps escapeRadius stepSize rH rPh
                             n i s calls in
    terminal (status res) /\ (calls <= rk4Calls res <= calls + n)%nat.
Proof.
  intros rayDir M a maxSteps escapeRadius stepSize rH rPh n.
  induction n as [| n IH]; intros i s calls; cbn.
  - split; [right; right; reflexivity | lia].
  - destruct (i >=? maxSteps)%Z; cbn.
    { split; [right; right; reflexivity | lia]. }
    destruct (st_r s <? rH * lit 1.001); cbn.
    { split; [left; reflexivity | lia]. }
    destruct (escapeRadius <? st_r s); cbn.
    { split; [right; left; reflexivity | lia]. }
    destruct (invalidRadius _); cbn.
    { split; [left; reflexivity | lia]. }
    specialize (IH (i + 1)%Z (rk4Step s M a (adaptiveStep (st_r s) rH rPh stepSize))
                   (S calls)).
    cbn in IH. destruct IH as [Ht Hc]. split; [exact Ht | lia].
Qed.

(** The same for the loop that samples the disk, the jets and the
    ergosphere, whatever the samplers return. *)
Lemma featureLoop_bounded :
  forall U sampleJet ergo diskEm rayDir M a maxSteps escapeRadius stepSize time
         rH rPh n i s acc calls,
    let res := fst (featureLoop U sampleJet ergo diskEm rayDir M a maxSteps
                                escapeRadius stepSize time rH rPh n i s acc calls) in
    terminal (status res) /\ (calls <= rk4Calls res <= calls + n)%nat.
Proof.
  intros U sampleJet ergo diskEm rayDir M a maxSteps escapeRadius stepSize time
         rH rPh n.
  induction n as [| n IH]; intros i s acc calls; cbn.
  - split; [right; right; reflexivity | lia].
  - destruct (i >=? maxSteps)%Z; cbn.
    { split; [right; right; reflexivity | lia]. }
    destruct (st_r s <? rH * lit 1.001); cbn.
    { split; [left; reflexivity | lia]. }
    destruct (escapeRadius <? st_r s); cbn.
    { split; [right; left; reflexivity | lia]. }
    destruct (invalidRadius _); cbn.
    { split; [left; reflexivity | lia]. }
    match goal with
    | |- context [featureLoop _ _ _ _ _ _ _ _ _ _ _ _ _ n ?i' ?s' ?acc' ?c'] =>
        specialize (IH i' s' acc' c')
    end.
    cbn in IH. destruct IH as [Ht Hc]. split; [exact Ht | lia].
Qed.

(** The step budget [maxSteps] also bounds the number of steps: the loop
    counter equals the number of steps taken. *)
Lemma integrateLoop_budget :
  forall rayDir M a maxSteps escapeRadius stepSize rH rPh n i s calls,
    (Z.of_nat (rk4Calls
       (integrateLoop rayDir M a maxSteps escapeRadius stepSize rH rPh
                      n i s calls))
     <= Z.max (Z.of_nat calls) (Z.of_nat calls + (maxSteps - i)))%Z.
Proof.
  intros rayDir M a maxSteps escapeRadius stepSize rH rPh n.
  induction n as [| n IH]; intros i s calls; cbn; [lia |].
  destruct (Z.geb_spec i maxSteps) as [Hge | Hlt]; cbn; [lia |].
  destruct (st_r s <? rH * lit 1.001); cbn; [lia |].
  destruct (escapeRadius <? st_r s); cbn; [lia |].
  destruct (invalidRadius _); cbn; [lia |].
  eapply Z.le_trans; [apply IH | lia].
Qed.

(** C1. For every ray, every parameter pair and every configuration of
    [maxSteps], [escapeRadius] and [stepSize], both integrators
    ([integrateGeodesic] and [integrateGeodesicWithFeatures]) make at most
    1000 RK4 steps, whatever [maxSteps] is, and return Captured, Escaped
    or MaxStepsReached, never the non-terminal Active code. *)
Theorem C1_integration_terminates_within_1000_steps :
  forall (camPos rayDir : vec3 F) (M a : F) (maxSteps : Z)
         (escapeRadius stepSize : F),
    let res := integrateGeodesic camPos rayDir M a maxSteps escapeRadius stepSize in
    ((rk4Calls res <= 1000)%nat /\ terminal (status res)
     /\ status res <> RAY_ACTIVE)
    /\
    forall U sampleJet ergo diskEm time,
      let res' := fst (integrateGeodesicWithFeatures U sampleJet ergo diskEm
                         camPos rayDir M a maxSteps escapeRadius stepSize time) in
      (rk4Calls res' <= 1000)%nat /\ terminal (status res')
      /\ status res' <> RAY_ACTIVE.
Proof.
  intros camPos rayDir M a maxSteps escapeRadius stepSize res. split.
  - subst res. unfold integrateGeodesic.
    destruct (integrateLoop_bounded rayDir M a maxSteps escapeRadius stepSize
                (eventHorizonRadius M a) (photonSphereRadius M a) 1000 0%Z
                (initializeGeodesic camPos rayDir M a) 0) as [Ht Hc].
    repeat split; [lia | exact Ht | apply terminal_not_active; exact Ht].
  - intros U sampleJet ergo diskEm time res'. subst res'.
    unfold integrateGeodesicWithFeatures.
    match goal with
    | |- context [featureLoop _ _ _ _ _ _ _ _ _ _ _ ?rH ?rPh 1000 0%Z ?s ?acc 0] =>
        destruct (featureLoop_bounded U sampleJet ergo diskEm rayDir M a maxSteps
                    escapeRadius stepSize time rH rPh 1000 0%Z s acc 0) as [Ht Hc]
    end.
    repeat split; [lia | exact Ht | apply terminal_not_active; exact Ht].
Qed.

(** C5. After the RK4 update ([rk4Update]: the four stages, the weighted
    sum and the clamp of theta), the turning-point check of [rk4Step]
    negates [pr] exactly when [R(r) < 0] at the updated state and negates
    [ptheta] exactly when [Theta(theta) < 0] there; the coordinates and the
    conserved quantities are left as the update produced them.  [rk4Step]
    is a total function: there is no error outcome. *)
Theorem C5_turning_point_flips_momentum_sign_only :
  forall (s : GeodesicState F) (M a h : F),
    let u := rk4Update s M a h in
    let s' := rk4Step s M a h in
    let R := R_potential (st_r u) (st_E u) (st_Lz u) (st_Q u) M a in
    let Th := Theta_potential (st_theta u) (st_E u) (st_Lz u) (st_Q u) a in
    st_pr s' = (if R <? lit 0 then - st_pr u else st_pr u)
    /\ st_ptheta s' = (if Th <? lit 0 then - st_ptheta u else st_ptheta u)
    /\ st_r s' = st_r u /\ st_theta s' = st_theta u /\ st_phi s' = st_phi u
    /\ st_E s' = st_E u /\ st_Lz s' = st_Lz u /\ st_Q s' = st_Q u.
Proof.
  intros s M a h u s' R Th. subst s' R Th u.
  unfold rk4Step, turningPoints. cbn. repeat split.
Qed.

(** One iteration of each loop, unfolded. *)
Lemma integrateLoop_S :
  forall rayDir M a maxSteps escapeRadius stepSize rH rPh n i s calls,
    integrateLoop rayDir M a maxSteps escapeRadius stepSize rH rPh (S n) i s calls
    = if (i >=? maxSteps)%Z then mkResult RAY_MAX_STEPS rayDir calls
      else if st_r s <? rH * lit 1.001 then mkResult RAY_CAPTURED rayDir calls
      else if st_r s >? escapeRadius then
        mkResult RAY_ESCAPED (escapeDirection s M a) calls
      else
        let h := adaptiveStep (st_r s) rH rPh stepSize in
        let s' := rk4Step s M a h in
        if invalidRadius (st_r s') then mkResult RAY_CAPTURED rayDir (S calls)
        else integrateLoop rayDir M a maxSteps escapeRadius stepSize rH rPh
                           n (i + 1)%Z s' (S calls).
Proof. reflexivity. Qed.

Lemma featureLoop_S :
  forall U sampleJet ergo diskEm rayDir M a maxSteps escapeRadius stepSize time
         rH rPh n i s acc calls,
    featureLoop U sampleJet ergo diskEm rayDir M a maxSteps escapeRadius
                stepSize time rH rPh (S n) i s acc calls
    = if (i >=? maxSteps)%Z then (mkResult RAY_MAX_STEPS rayDir calls, acc)
      else
        let acc := trackOrbit s acc in
        if st_r s <? rH * lit 1.001 then
          (mkResult RAY_CAPTURED rayDir calls, acc)
        else if st_r s >? escapeRadius then
          (mkResult RAY_ESCAPED (escapeDirection s M a) calls, acc)
        else
          let acc := sampleFeatures U sampleJet ergo diskEm rayDir M a time s acc in
          let h := adaptiveStepFeatures U M a rH rPh stepSize s in
          let s' := rk4Step s M a h in
          if invalidRadius (st_r s') then
            (mkResult RAY_CAPTURED rayDir (S calls), acc)
          else featureLoop U sampleJet ergo diskEm rayDir M a maxSteps
                           escapeRadius stepSize time rH rPh
                           n (i + 1)%Z s' acc (S calls).
Proof. reflexivity. Qed.

(** C4 (as amended). At a loop iteration [i] inside the step budget
    ([i < maxSteps], and [i < 1000]: at least one iteration is left), both
    integrators return Captured when [r < rH * 1.001], and return Captured
    when the RK4 step of that iteration leaves [r] negative or NaN
    ([r < 0.0 || r != r]).  When the budget is exhausted
    ([i >= maxSteps]) they return MaxStepsReached, whatever [r] is.  The
    loops are total functions: a status code is returned in every case. *)
Theorem C4_degenerate_radius_captured_within_budget :
  forall (rayDir : vec3 F) (M a : F) (maxSteps : Z)
         (escapeRadius stepSize rH rPh : F)
         (n : nat) (i : Z) (s : GeodesicState F) (calls : nat)
         (U : Uniforms F) sampleJet ergo diskEm (time : F) (acc : Accumulators F),
    let plain := integrateLoop rayDir M a maxSteps escapeRadius stepSize rH rPh
                               (S n) i s calls in
    let feat := fst (featureLoop U sampleJet ergo diskEm rayDir M a maxSteps
                                 escapeRadius stepSize time rH rPh
                                 (S n) i s acc calls) in
    ((i < maxSteps)%Z -> (st_r s <? rH * lit 1.001) = true ->
       status plain = RAY_CAPTURED /\ status feat = RAY_CAPTURED)
    /\
    ((i < maxSteps)%Z -> (st_r s <? rH * lit 1.001) = false ->
       (st_r s >? escapeRadius) = false ->
       let s' := rk4Step s M a (adaptiveStep (st_r s) rH rPh stepSize) in
       ((st_r s' <? lit 0) = true \/ feq (st_r s') (st_r s') = false) ->
       status plain = RAY_CAPTURED)
    /\
    ((i < maxSteps)%Z -> (st_r s <? rH * lit 1.001) = false ->
       (st_r s >? escapeRadius) = false ->
       let s' := rk4Step s M a (adaptiveStepFeatures U M a rH rPh stepSize s) in
       ((st_r s' <? lit 0) = true \/ feq (st_r s') (st_r s') = false) ->
       status feat = RAY_CAPTURED)
    /\
    ((maxSteps <= i)%Z ->
       status plain = RAY_MAX_STEPS /\ status feat = RAY_MAX_STEPS).
Proof.
  intros rayDir M a maxSteps escapeRadius stepSize rH rPh n i s calls
         U sampleJet ergo diskEm time acc plain feat.
  subst plain feat. rewrite integrateLoop_S, featureLoop_S.
  assert (Hinv : forall x : F,
             ((x <? lit 0) = true \/ feq x x = false) -> invalidRadius x = true).
  { intros x [Hx | Hx]; unfold invalidRadius; rewrite Hx;
      [reflexivity | apply orb_true_r]. }
  repeat split.
  - destruct (Z.geb_spec i maxSteps); [lia |]. rewrite H0. reflexivity.
  - destruct (Z.geb_spec i maxSteps); [lia |]. cbv zeta. rewrite H0. reflexivity.
  - intros Hi Hc He s' Hbad.
    destruct (Z.geb_spec i maxSteps); [lia |]. rewrite Hc, He.
    cbv zeta. fold s'. rewrite (Hinv _ Hbad). reflexivity.
  - intros Hi Hc He s' Hbad.
    destruct (Z.geb_spec i maxSteps); [lia |]. cbv zeta. rewrite Hc, He.
    fold s'. rewrite (Hinv _ Hbad). reflexivity.
  - destruct (Z.geb_spec i maxSteps); [reflexivity | lia].
  - destruct (Z.geb_spec i maxSteps); [reflexivity | lia].
Qed.

End LoopProperties.

(* ====================================================================== *)
(** * Part VI.  The Kerr metric module (JavaScript)                        *)
(* ====================================================================== *)

(** Case analysis on the comparisons of real numbers left in the goal;
    branches contradicted by linear arithmetic are closed. *)
Ltac rcases :=
  repeat match goal with
  | |- context [Rlt_dec ?a ?b] => destruct (Rlt_dec a b); try (exfalso; lra)
  | |- context [Rle_dec ?a ?b] => destruct (Rle_dec a b); try (exfalso; lra)
  | |- context [Rgt_dec ?a ?b] => destruct (Rgt_dec a b); try (exfalso; lra)
  | |- context [Req_dec_T ?a ?b] => destruct (Req_dec_T a b); try (exfalso; lra)
  end.

Section KerrMetricProperties.

Import JS.
Local Open Scope R_scope.

(** C3. [setParameters] either stores the given mass and spin unmodified
    (exactly when [mass > 0] and [|spin| <= mass]) or throws and leaves the
    object as it was (exactly when [mass <= 0] or [|spin| > mass]); the
    constructor succeeds with the given values in the first case and throws
    in the second.  Nothing is clamped. *)
Theorem C3_invalid_parameters_rejected_state_unchanged :
  forall (this : KerrMetric.t) (mass spin : R),
    (0 < mass /\ Rabs spin <= mass
     /\ KerrMetric.setParameters this mass spin
        = (Normal tt, KerrMetric.mk mass spin (spin * spin))
     /\ KerrMetric.constructor (Some mass) (Some spin)
        = Normal (KerrMetric.mk mass spin (spin * spin)))
    \/
    ((mass <= 0 \/ Rabs spin > mass)
     /\ (exists e, KerrMetric.setParameters this mass spin = (Throw e, this))
     /\ (exists e, KerrMetric.constructor (Some mass) (Some spin) = Throw e)).
Proof.
  intros this mass spin.
  unfold KerrMetric.constructor, KerrMetric.setParameters, Math.abs.
  destruct (Rle_dec mass 0) as [Hm | Hm].
  - right. split; [left; exact Hm |]. split; eexists; reflexivity.
  - destruct (Rgt_dec (Rabs spin) mass) as [Hs | Hs].
    + right. split; [right; exact Hs |]. split; eexists; reflexivity.
    + left. repeat split; lra.
Qed.

(** Objects built by the constructor satisfy the class invariant. *)
Lemma constructor_invariant :
  forall mass spin this,
    KerrMetric.constructor mass spin = Normal this ->
    0 < KerrMetric.M this
    /\ Rabs (KerrMetric.a this) <= KerrMetric.M this
    /\ KerrMetric.a2 this = KerrMetric.a this * KerrMetric.a this.
Proof.
  intros mass spin this.
  unfold KerrMetric.constructor, KerrMetric.setParameters, Math.abs.
  destruct (Rle_dec _ 0) as [Hm | Hm]; [discriminate |].
  destruct (Rgt_dec _ _) as [Hs | Hs]; [discriminate |].
  intros Heq. injection Heq as <-. cbn. repeat split; lra.
Qed.

Lemma spin_square_le_mass_square :
  forall M a, 0 < M -> Rabs a <= M -> 0 <= M * M - a * a.
Proof.
  intros M a HM Ha.
  assert (H1 : - M <= a <= M)
    by (unfold Rabs in Ha; destruct (Rcase_abs a); lra).
  nra.
Qed.

(** C10. For an object built with [M > 0] and [|a| <= M], [delta] vanishes
    at [eventHorizonRadius()] and is positive at every larger radius. *)
Theorem C10_delta_zero_at_horizon_positive_outside :
  forall (mass spin : R) (this : KerrMetric.t),
    KerrMetric.constructor (Some mass) (Some spin) = Normal this ->
    KerrMetric.delta this (KerrMetric.eventHorizonRadius this) = 0
    /\ forall r, KerrMetric.eventHorizonRadius this < r ->
                 0 < KerrMetric.delta this r.
Proof.
  intros mass spin this Hc.
  destruct (constructor_invariant _ _ _ Hc) as (HM & Ha & Ha2).
  pose proof (spin_square_le_mass_square _ _ HM Ha) as Hd.
  unfold KerrMetric.delta, KerrMetric.eventHorizonRadius, Math.sqrt, Math.max.
  rewrite Ha2. rewrite Rmax_right by exact Hd.
  set (w := sqrt (KerrMetric.M this * KerrMetric.M this
                  - KerrMetric.a this * KerrMetric.a this)).
  assert (Hw : w * w = KerrMetric.M this * KerrMetric.M this
                       - KerrMetric.a this * KerrMetric.a this)
    by (apply sqrt_sqrt; exact Hd).
  assert (Hw0 : 0 <= w) by apply sqrt_pos.
  split; [nra |].
  intros r Hr. nra.
Qed.

Lemma C10_witness :
  KerrMetric.delta (KerrMetric.mk 1 0 (0 * 0))
                   (KerrMetric.eventHorizonRadius (KerrMetric.mk 1 0 (0 * 0))) = 0
  /\ forall r, KerrMetric.eventHorizonRadius (KerrMetric.mk 1 0 (0 * 0)) < r ->
               0 < KerrMetric.delta (KerrMetric.mk 1 0 (0 * 0)) r.
Proof.
  apply (C10_delta_zero_at_horizon_positive_outside 1 0).
  unfold KerrMetric.constructor, KerrMetric.setParameters, Math.abs.
  destruct (Rle_dec 1 0) as [H | H]; [exfalso; lra |].
  destruct (Rgt_dec (Rabs 0) 1) as [H' | H'];
    [exfalso; rewrite Rabs_R0 in H'; lra | reflexivity].
Defined.

Lemma Rabs_minus_one : Rabs (-1) = 1.
Proof. unfold Rabs. destruct (Rcase_abs (-1)); lra. Qed.

(** The metric built by [new KerrMetric(1, -1)]: an extremal hole of
    negative spin, which [setParameters] accepts since [|a| <= M]. *)
Lemma counter_rotating_extremal_accepted :
  KerrMetric.constructor (Some 1) (Some (-1)) = Normal (KerrMetric.mk 1 (-1) (-1 * -1)).
Proof.
  unfold KerrMetric.constructor, KerrMetric.setParameters, Math.abs.
  destruct (Rle_dec 1 0) as [H | H]; [exfalso; lra |].
  destruct (Rgt_dec (Rabs (-1)) 1) as [H' | H']; [| reflexivity].
  exfalso. rewrite Rabs_minus_one in H'. lra.
Qed.

Lemma sqrt_4 : sqrt 4 = 2.
Proof. replace 4 with (2 * 2) by lra. apply sqrt_square; lra. Qed.

Lemma sqrt_16 : sqrt 16 = 4.
Proof. replace 16 with (4 * 4) by lra. apply sqrt_square; lra. Qed.

Lemma pow_zero_base : forall y, y <> 0 -> RealMath.pow 0 y = 0.
Proof.
  intros y Hy. unfold RealMath.pow.
  destruct (Req_dec_T y 0) as [E | _]; [contradiction |].
  destruct (Rlt_dec 0 0) as [H | _]; [exfalso; lra | reflexivity].
Qed.

(** Rewriting of the Bardeen-Press-Teukolsky expression at [chi = -1]:
    [Z1 = 1], [Z2 = 2] and the inner square root is [4]. *)
Ltac isco_at_minus_one Hpow0 :=
  replace (1 - -1 / 1 * (-1 / 1)) with 0 by lra;
  replace (1 + -1 / 1) with 0 by lra;
  rewrite Hpow0;
  replace (1 + 0 * (0 + RealMath.pow (Rabs (1 - -1 / 1)) (1 / 3))) with 1 by lra;
  replace (3 * (-1 / 1 * (-1 / 1)) + 1 * 1) with 4 by lra;
  rewrite sqrt_4;
  replace ((3 - 1) * (3 + 1 + 2 * 2)) with 16 by lra;
  rewrite sqrt_16.

(** C2 (the code at the failing input).  For [M = 1], [a = -1] the
    prograde ISCO radius is [1] while the photon-sphere radius is [4]: the
    link [photonSphereRadius <= iscoRadius] of the ordering is broken. *)
Theorem C2_ordering_broken_at_negative_extremal_spin :
  let this := KerrMetric.mk 1 (-1) (-1 * -1) in
  KerrMetric.constructor (Some 1) (Some (-1)) = Normal this
  /\ KerrMetric.innerHorizonRadius this = 1
  /\ KerrMetric.eventHorizonRadius this = 1
  /\ KerrMetric.photonSphereRadius this = 4
  /\ KerrMetric.iscoRadius this = 1
  /\ KerrMetric.iscoRadiusRetrograde this = 9
  /\ ~ (KerrMetric.photonSphereRadius this <= KerrMetric.iscoRadius this).
Proof.
  intros this.
  assert (Hpow0 : RealMath.pow 0 (1 / 3) = 0) by (apply pow_zero_base; lra).
  assert (Hin : KerrMetric.innerHorizonRadius this = 1).
  { unfold KerrMetric.innerHorizonRadius, this, Math.sqrt, Math.max; cbn.
    replace (1 * 1 - -1 * -1) with 0 by lra.
    rewrite Rmax_left by lra. rewrite sqrt_0. lra. }
  assert (Hev : KerrMetric.eventHorizonRadius this = 1).
  { unfold KerrMetric.eventHorizonRadius, this, Math.sqrt, Math.max; cbn.
    replace (1 * 1 - -1 * -1) with 0 by lra.
    rewrite Rmax_left by lra. rewrite sqrt_0. lra. }
  assert (Hph : KerrMetric.photonSphereRadius this = 4).
  { unfold KerrMetric.photonSphereRadius, this, EPSILON, Math.abs, Math.max,
      Math.min, Math.cos, Math.acos; cbn.
    rewrite Rabs_minus_one.
    replace (-1 / 1) with (-1) by lra.
    rewrite (Rmin_right 1 (-1)) by lra. rewrite Rmax_left by lra.
    replace (- -1) with 1 by lra.
    rewrite acos_1, Rmult_0_r, cos_0. rcases. lra. }
  assert (Hisco : KerrMetric.iscoRadius this = 1).
  { unfold KerrMetric.iscoRadius, this, Math.pow, Math.sqrt, Math.abs; cbn.
    isco_at_minus_one Hpow0. lra. }
  assert (Hretro : KerrMetric.iscoRadiusRetrograde this = 9).
  { unfold KerrMetric.iscoRadiusRetrograde, this, Math.pow, Math.sqrt, Math.abs; cbn.
    isco_at_minus_one Hpow0. lra. }
  repeat split; try assumption.
  - apply counter_rotating_extremal_accepted.
  - rewrite Hph, Hisco. lra.
Qed.

End KerrMetricProperties.

(* ====================================================================== *)
(** * Part VII.  The accretion disk module (JavaScript)                    *)
(* ====================================================================== *)

Section AccretionDiskProperties.

Import JS.
Local Open Scope R_scope.

(** The Doppler factor as a function of the orbital velocity [v] and of
    the cosine [c] of the viewing angle. *)
Lemma dopplerFactor_unfold :
  forall this r viewAngle,
    AccretionDisk.dopplerFactor this r viewAngle
    = 1 / (1 / sqrt (1 - AccretionDisk.orbitalVelocity this r
                         * AccretionDisk.orbitalVelocity this r)
           * (1 - AccretionDisk.orbitalVelocity this r * cos viewAngle)).
Proof. reflexivity. Qed.

(** C7. Wherever the orbital velocity [v] of the disk satisfies
    [0 < v < 1], the Doppler factor is above 1 at viewing angle 0 (gas
    approaching head-on) and below 1 at viewing angle pi (gas receding). *)
Theorem C7_doppler_blueshift_approaching_redshift_receding :
  forall (this : AccretionDisk.t) (r : R),
    0 < AccretionDisk.orbitalVelocity this r < 1 ->
    1 < AccretionDisk.dopplerFactor this r 0
    /\ AccretionDisk.dopplerFactor this r Math.PI < 1.
Proof.
  intros this r [Hv0 Hv1].
  rewrite !dopplerFactor_unfold. unfold Math.PI.
  rewrite cos_0, cos_PI.
  set (v := AccretionDisk.orbitalVelocity this r) in *.
  assert (Hpos : 0 < 1 - v * v) by nra.
  assert (Hw0 : 0 < sqrt (1 - v * v)) by (apply sqrt_lt_R0; exact Hpos).
  assert (Hww : sqrt (1 - v * v) * sqrt (1 - v * v) = 1 - v * v)
    by (apply sqrt_sqrt; lra).
  set (w := sqrt (1 - v * v)) in *.
  split.
  - replace (1 / (1 / w * (1 - v * 1))) with (w / (1 - v)) by (field; lra).
    apply Rmult_lt_reg_r with (1 - v); [lra |].
    replace (w / (1 - v) * (1 - v)) with w by (field; lra).
    nra.
  - replace (1 / (1 / w * (1 - v * -1))) with (w / (1 + v)) by (field; lra).
    apply Rmult_lt_reg_r with (1 + v); [lra |].
    replace (w / (1 + v) * (1 + v)) with w by (field; lra).
    nra.
Qed.

Lemma sqrt_1_R : sqrt 1 = 1.
Proof. exact sqrt_1. Qed.

Lemma sqrt_9 : sqrt 9 = 3.
Proof. replace 9 with (3 * 3) by lra. apply sqrt_square; lra. Qed.

Lemma sqrt_81 : sqrt 81 = 9.
Proof. replace 81 with (9 * 9) by lra. apply sqrt_square; lra. Qed.

(** The orbital velocity of the Schwarzschild disk at [r = 9M]. *)
Lemma orbitalVelocity_schwarzschild_9 :
  forall outer T0 inner,
    AccretionDisk.orbitalVelocity (AccretionDisk.mk 1 0 outer T0 inner) 9
    = Rmin (1 / 3 / sqrt (2 / 3)) 0.999.
Proof.
  intros outer T0 inner.
  unfold AccretionDisk.orbitalVelocity, AccretionDisk.keplerianOmega,
    Math.sqrt, Math.min; cbn.
  rewrite sqrt_1_R, sqrt_9.
  replace (- - (1 - 2 * 1 * 9 / (9 * 9)) - 2 * (-2 * 0 * 1 * 9 / (9 * 9))
             * (1 / (9 * 3 + 0 * 1))
           - ((9 * 9 + 0 * 0) * ((9 * 9 + 0 * 0) * 1)
              - 0 * 0 * (9 * 9 - 2 * 1 * 9 + 0 * 0)) / (9 * 9)
             * (1 / (9 * 3 + 0 * 1)) * (1 / (9 * 3 + 0 * 1)))
    with (2 / 3) by lra.
  replace (((9 * 9 + 0 * 0) * ((9 * 9 + 0 * 0) * 1)
            - 0 * 0 * (9 * 9 - 2 * 1 * 9 + 0 * 0)) / (9 * 9))
    with 81 by lra.
  rewrite sqrt_81.
  assert (Hs : 4 / 5 < sqrt (2 / 3)).
  { replace (4 / 5) with (sqrt (4 / 5 * (4 / 5))) by (apply sqrt_square; lra).
    apply sqrt_lt_1; lra. }
  rcases. f_equal. lra.
Qed.

Lemma C7_witness :
  1 < AccretionDisk.dopplerFactor (AccretionDisk.mk 1 0 15 1e7 6) 9 0
  /\ AccretionDisk.dopplerFactor (AccretionDisk.mk 1 0 15 1e7 6) 9 Math.PI < 1.
Proof.
  apply (C7_doppler_blueshift_approaching_redshift_receding
           (AccretionDisk.mk 1 0 15 1e7 6) 9).
  rewrite orbitalVelocity_schwarzschild_9.
  assert (Hs : 4 / 5 < sqrt (2 / 3)).
  { replace (4 / 5) with (sqrt (4 / 5 * (4 / 5))) by (apply sqrt_square; lra).
    apply sqrt_lt_1; lra. }
  assert (Hq : 0 < 1 / 3 / sqrt (2 / 3)).
  { apply Rdiv_lt_0_compat; lra. }
  split.
  - apply Rmin_glb_lt; lra.
  - apply Rle_lt_trans with 0.999; [apply Rmin_r | lra].
Defined.

End AccretionDiskProperties.

(* ====================================================================== *)
(** * Part VIII.  The shader read over the real numbers                    *)
(* ====================================================================== *)

Section ClampedAngle.

Import GLSL.
Context {F : Type} {FO : GLFloat F}.
Local Open Scope glsl_scope.

(** The polar angle leaving [rk4Step] is a [clamp] to
    [[0.001, PI - 0.001]], for any float type. *)
Lemma rk4Step_theta_is_clamp :
  forall (s : GeodesicState F) (M a h : F),
    exists t, st_theta (rk4Step s M a h) = clamp t (lit 0.001) (PI - lit 0.001).
Proof.
  intros s M a h. eexists.
  unfold rk4Step, turningPoints, rk4Update. cbv beta zeta. cbn [st_theta].
  reflexivity.
Qed.

(** The polar angle leaving [initializeGeodesic] is a [clamp] to
    [[0.01, PI - 0.01]]. *)
Lemma initializeGeodesic_theta_is_clamp :
  forall (camPos rayDir : vec3 F) (M a : F),
    exists t, st_theta (initializeGeodesic camPos rayDir M a)
              = clamp t (lit 0.01) (PI - lit 0.01).
Proof.
  intros camPos rayDir M a. eexists.
  unfold initializeGeodesic, computeConservedQuantities.
  cbv beta zeta iota. cbn [st_theta].
  reflexivity.
Qed.

End ClampedAngle.

Section RealShader.

Import GLSL.
Local Open Scope R_scope.

Lemma lit_R : forall q : Q, lit (F := R) q = Q2R q.
Proof. reflexivity. Qed.

Lemma Rltb_true : forall x y, x < y -> RealMath.Rltb x y = true.
Proof. intros x y H. unfold RealMath.Rltb. destruct (Rlt_dec x y); [reflexivity | contradiction]. Qed.

Lemma Rltb_false : forall x y, y <= x -> RealMath.Rltb x y = false.
Proof. intros x y H. unfold RealMath.Rltb. destruct (Rlt_dec x y); [exfalso; lra | reflexivity]. Qed.

Lemma Rleb_true : forall x y, x <= y -> RealMath.Rleb x y = true.
Proof. intros x y H. unfold RealMath.Rleb. destruct (Rle_dec x y); [reflexivity | contradiction]. Qed.

Lemma Rleb_false : forall x y, y < x -> RealMath.Rleb x y = false.
Proof. intros x y H. unfold RealMath.Rleb. destruct (Rle_dec x y); [exfalso; lra | reflexivity]. Qed.

Lemma Reqb_refl : forall x, RealMath.Reqb x x = true.
Proof. intros x. unfold RealMath.Reqb. destruct (Req_dec_T x x); [reflexivity | contradiction]. Qed.

Lemma min_R : forall x y : R, min x y = Rmin x y.
Proof.
  intros x y. unfold min, Rmin; cbn. unfold RealMath.Rltb.
  destruct (Rlt_dec y x), (Rle_dec x y); lra.
Qed.

Lemma max_R : forall x y : R, max x y = Rmax x y.
Proof.
  intros x y. unfold max, Rmax; cbn. unfold RealMath.Rltb.
  destruct (Rlt_dec x y), (Rle_dec x y); lra.
Qed.

Lemma clamp_R : forall x lo hi : R, clamp x lo hi = Rmin (Rmax x lo) hi.
Proof. intros. unfold clamp. rewrite min_R, max_R. reflexivity. Qed.

Lemma clamp_R_range :
  forall x lo hi : R, lo <= hi -> lo <= clamp x lo hi <= hi.
Proof.
  intros x lo hi H. rewrite clamp_R. split.
  - apply Rmin_glb; [apply Rmax_r | exact H].
  - apply Rmin_r.
Qed.

Lemma clamp_R_id :
  forall x lo hi : R, lo <= x <= hi -> clamp x lo hi = x.
Proof.
  intros x lo hi [H1 H2]. rewrite clamp_R.
  rewrite Rmax_left by exact H1. apply Rmin_left; exact H2.
Qed.

(** The shader's constant [PI] is the decimal [3.14159265359]. *)
Lemma PI_R : PI (F := R) = 3.14159265359.
Proof. unfold PI; cbn. unfold Q2R; cbn. lra. Qed.

(** Bounds on the real number pi, from the Machin-like series of the
    Standard Library. *)
Lemma PI_lower_bound : 3.14159 < Rtrigo1.PI.
Proof.
  destruct (PI_2_3_7_ineq 2) as [H _].
  unfold sum_f_R0, tg_alt, PI_2_3_7_tg, Ratan_seq in H.
  simpl in H. lra.
Qed.

Lemma PI_upper_bound : Rtrigo1.PI < 3.1416.
Proof.
  destruct (PI_2_3_7_ineq 2) as [_ H].
  unfold sum_f_R0, tg_alt, PI_2_3_7_tg, Ratan_seq in H.
  simpl in H. lra.
Qed.

Lemma sin_lower_small : forall x, 0 <= x <= 1 -> x - x * x * x / 6 <= sin x.
Proof.
  intros x [H0 H1].
  assert (H4 : x <= 4) by lra.
  destruct (pre_sin_bound x 0 H0 H4) as [H _].
  unfold sin_approx, sin_term in H. simpl in H. lra.
Qed.

(** On the interval the shader clamps theta to, the sine is bounded away
    from zero. *)
Lemma sin_bounded_below_on_clamp_interval :
  forall th, 0.001 <= th <= 3.14159265359 - 0.001 -> 0.0009 < sin th.
Proof.
  intros th [Hlo Hhi].
  pose proof PI_lower_bound as Hpi. pose proof PI_4 as Hpi4.
  assert (Hsmall : forall x, 0.00099 <= x <= Rtrigo1.PI / 2 -> 0.0009 < sin x).
  { intros x [Hx1 Hx2].
    apply Rlt_le_trans with (sin 0.00099).
    - pose proof (sin_lower_small 0.00099 ltac:(lra)). lra.
    - apply sin_incr_1; lra. }
  destruct (Rle_dec th (Rtrigo1.PI / 2)) as [Hc | Hc].
  - apply Hsmall; lra.
  - rewrite <- sin_PI_x. apply Hsmall; lra.
Qed.

(** C9. Over the real numbers, the polar angle of the state returned by
    [initializeGeodesic] lies in [[0.01, PI - 0.01]] and the polar angle of
    the state returned by every call of [rk4Step] lies in
    [[0.001, PI - 0.001]], where [PI] is the shader's constant
    3.14159265359; on both, the sine of theta is above 0.0009. *)
Theorem C9_theta_clamped_away_from_poles :
  (forall (camPos rayDir : vec3 R) (M a : R),
     let s := initializeGeodesic camPos rayDir M a in
     0.01 <= st_theta s <= PI - 0.01
     /\ 0.001 <= st_theta s <= PI - 0.001
     /\ 0.0009 < sin (st_theta s))
  /\
  (forall (s : GeodesicState R) (M a h : R),
     let s' := rk4Step s M a h in
     0.001 <= st_theta s' <= PI - 0.001
     /\ 0.0009 < sin (st_theta s')).
Proof.
  split.
  - intros camPos rayDir M a s. subst s.
    destruct (initializeGeodesic_theta_is_clamp camPos rayDir M a) as [t Ht].
    rewrite Ht.
    assert (Hr : 0.01 <= clamp t (lit 0.01) (PI - lit 0.01) <= PI - 0.01).
    { replace 0.01 with (lit (F := R) 0.01) by (cbn; unfold Q2R; cbn; lra).
      apply clamp_R_range. rewrite PI_R. cbn. unfold Q2R; cbn. lra. }
    rewrite PI_R in *. cbn in Hr |- *.
    repeat split; try lra.
    apply sin_bounded_below_on_clamp_interval. lra.
  - intros s M a h s'. subst s'.
    destruct (rk4Step_theta_is_clamp s M a h) as [t Ht].
    rewrite Ht.
    assert (Hr : 0.001 <= clamp t (lit 0.001) (PI - lit 0.001) <= PI - 0.001).
    { replace 0.001 with (lit (F := R) 0.001) by (cbn; unfold Q2R; cbn; lra).
      apply clamp_R_range. rewrite PI_R. cbn. unfold Q2R; cbn. lra. }
    rewrite PI_R in *. cbn in Hr |- *.
    repeat split; try lra.
    apply sin_bounded_below_on_clamp_interval. lra.
Qed.

(** ** A radially infalling ray, evaluated *)

Ltac rlit := cbn [lit RFloat]; unfold Q2R; cbn.

Lemma lit_0 : lit (F := R) 0 = 0.
Proof. rlit. lra. Qed.

Lemma lit_1 : lit (F := R) 1 = 1.
Proof. rlit. lra. Qed.

Lemma lit_2 : lit (F := R) 2 = 2.
Proof. rlit. lra. Qed.

Lemma lit_m1 : lit (F := R) (-1) = -1.
Proof. rlit. lra. Qed.

Lemma EPSILON_R : EPSILON (F := R) = 1e-6.
Proof. unfold EPSILON. rlit. lra. Qed.

Lemma EPSILON_lt_1 : RealMath.Rltb (Q2R 1e-6) (1 * 1) = true.
Proof. apply Rltb_true. unfold Q2R; cbn. lra. Qed.

Lemma sqrt_100 : sqrt 100 = 10.
Proof. replace 100 with (10 * 10) by lra. apply sqrt_square; lra. Qed.

Lemma sqrt_10000 : sqrt 10000 = 100.
Proof. replace 10000 with (100 * 100) by lra. apply sqrt_square; lra. Qed.

Lemma sign_neg : forall x : R, x < 0 -> sign x = -1.
Proof.
  intros x Hx. unfold sign. cbn [flt RFloat]. rewrite lit_0, lit_m1.
  rewrite (Rltb_false 0 x) by lra. rewrite (Rltb_true x 0) by lra. reflexivity.
Qed.

Lemma sign_zero : sign (F := R) 0 = 0.
Proof.
  unfold sign. cbn [flt RFloat]. rewrite !lit_0.
  rewrite (Rltb_false 0 0) by lra. reflexivity.
Qed.

Lemma safeSqrt_R : forall x : R, 0 <= x -> safeSqrt x = sqrt x.
Proof.
  intros x Hx. unfold safeSqrt. rewrite max_R, lit_0.
  rewrite Rmax_left by exact Hx. reflexivity.
Qed.

Lemma invalidRadius_R : forall r : R, invalidRadius r = RealMath.Rltb r 0.
Proof.
  intros r. unfold invalidRadius. cbn [flt feq RFloat]. rewrite Reqb_refl, lit_0.
  cbn. apply orb_false_r.
Qed.

Lemma half_pi_in_clamp : 0.01 <= Rtrigo1.PI / 2 <= 3.14159265359 - 0.01.
Proof. pose proof PI_lower_bound. pose proof PI_upper_bound. lra. Qed.

Lemma clamp_equator : forall c : R,
  clamp (Rtrigo1.PI / 2 + c * 0) (lit 0.001) (PI - lit 0.001) = Rtrigo1.PI / 2.
Proof.
  intros c. replace (Rtrigo1.PI / 2 + c * 0) with (Rtrigo1.PI / 2) by ring.
  apply clamp_R_id. rewrite PI_R. rlit.
  pose proof half_pi_in_clamp. lra.
Qed.

Lemma zero_plus_mult_zero : forall c : R, 0 + c * 0 = 0.
Proof. intros; ring. Qed.

(** On the equator of a non-rotating hole, with [Lz = Q = 0], the
    derivative functions reduce to the radial system. *)
Lemma geodesicDerivatives_radial : forall r pr M : R,
  geodesicDerivatives r (Rtrigo1.PI / 2) pr 0 1 0 0 M 0
  = mkVec3 (radialVelocity r pr) 0 0.
Proof.
  intros. unfold geodesicDerivatives, radialVelocity. cbn.
  rewrite sin_PI2, cos_PI2.
  change (Q2R (1 / 1000000)) with (Q2R 1e-6). rewrite EPSILON_lt_1.
  f_equal; unfold Rdiv; ring.
Qed.

Lemma momentumDerivatives_radial : forall r pr M : R,
  momentumDerivatives r (Rtrigo1.PI / 2) pr 0 1 0 0 M 0
  = mkVec2 (radialForce r) 0.
Proof.
  intros. unfold momentumDerivatives, radialForce. cbn.
  rewrite sin_PI2, cos_PI2.
  change (Q2R (1 / 1000000)) with (Q2R 1e-6). rewrite EPSILON_lt_1.
  replace (r * r + 0 * 0 * (0 * 0)) with (r * r) by ring.
  replace (Q2R 2) with 2 by (unfold Q2R; cbn; lra).
  f_equal; unfold Rdiv; ring.
Qed.

Lemma rk4Update_radial : forall r pr phi M h : R,
  rk4Update (mkState r (Rtrigo1.PI / 2) phi pr 0 1 0 0) M 0 h
  = mkState (fst (radialRK4 r pr h)) (Rtrigo1.PI / 2) phi
            (snd (radialRK4 r pr h)) 0 1 0 0.
Proof.
  intros. unfold rk4Update. cbv zeta.
  cbn [st_r st_theta st_phi st_pr st_ptheta st_E st_Lz st_Q].
  do 4 (rewrite !geodesicDerivatives_radial, !momentumDerivatives_radial;
        cbn [vx vy vz ux uy fadd fmul fdiv fsub RFloat];
        rewrite ?clamp_equator, ?zero_plus_mult_zero).
  assert (Hth : clamp (Rtrigo1.PI / 2 + h * (0 + 0) / lit 6)
                      (lit 0.001) (PI - lit 0.001) = Rtrigo1.PI / 2).
  { replace (Rtrigo1.PI / 2 + h * (0 + 0) / lit 6) with (Rtrigo1.PI / 2 + 0 * 0)
      by (unfold Rdiv; ring).
    apply clamp_equator. }
  rewrite Hth.
  unfold radialRK4. cbn [fst snd].
  replace (lit (F := R) 0.5) with 0.5 by (rlit; lra).
  replace (lit (F := R) 2) with 2 by (rlit; lra).
  replace (lit (F := R) 6) with 6 by (rlit; lra).
  f_equal; unfold Rdiv; ring.
Qed.

Lemma turningPoints_radial : forall r pr phi M : R,
  turningPoints (mkState r (Rtrigo1.PI / 2) phi pr 0 1 0 0) M 0
  = mkState r (Rtrigo1.PI / 2) phi pr 0 1 0 0.
Proof.
  intros. unfold turningPoints.
  cbn [st_r st_theta st_phi st_pr st_ptheta st_E st_Lz st_Q].
  assert (HR : flt (R_potential r 1 0 0 M 0) (lit 0) = false).
  { unfold R_potential. cbn. apply Rltb_false.
    match goal with
    | |- _ <= ?b => replace b with ((r * r) * (r * r)) by ring
    end.
    unfold Q2R; cbn. nra. }
  assert (HT : flt (Theta_potential (Rtrigo1.PI / 2) 1 0 0 0) (lit 0) = false).
  { unfold Theta_potential. cbn. rewrite sin_PI2, cos_PI2.
    rewrite (Rltb_false (1 * 1)) by (unfold Q2R; cbn; lra).
    apply Rltb_false. unfold Q2R; cbn. lra. }
  rewrite HR, HT. reflexivity.
Qed.

Lemma rk4Step_radial : forall r pr phi M h : R,
  rk4Step (mkState r (Rtrigo1.PI / 2) phi pr 0 1 0 0) M 0 h
  = mkState (fst (radialRK4 r pr h)) (Rtrigo1.PI / 2) phi
            (snd (radialRK4 r pr h)) 0 1 0 0.
Proof.
  intros. unfold rk4Step. rewrite rk4Update_radial. apply turningPoints_radial.
Qed.

(** From [r = 10] with [pr = -1], a step of 0.18 lands inside the capture
    radius [2 * 1.001] and a step of 0.3 overshoots to a negative radius. *)
Lemma radialRK4_step_018 : 0 <= fst (radialRK4 10 (-1) 0.18) < 2.
Proof. unfold radialRK4, radialVelocity, radialForce. cbn [fst]. lra. Qed.

Lemma radialRK4_step_03 : fst (radialRK4 10 (-1) 0.3) < 0.
Proof. unfold radialRK4, radialVelocity, radialForce. cbn [fst]. lra. Qed.

(** A camera on the x axis of a non-rotating hole. *)
Lemma cartesianToBoyerLindquist_on_x_axis :
  forall x0 : R, 1e-6 <= x0 ->
    cartesianToBoyerLindquist (mkVec3 x0 0 0) 0 = mkVec3 x0 (Rtrigo1.PI / 2) 0.
Proof.
  intros x0 Hx.
  unfold cartesianToBoyerLindquist, cartesianToSpherical, length, dot.
  cbn [vx vy vz fabs flt fle fmul fadd fsub fdiv fsqrt facos fatan2 RFloat].
  rewrite Rabs_R0.
  rewrite (Rltb_true 0 EPSILON) by (rewrite EPSILON_R; lra).
  replace (x0 * x0 + 0 * 0 + 0 * 0) with (x0 * x0) by ring.
  rewrite sqrt_square by lra.
  rewrite (Rltb_false x0 EPSILON) by (rewrite EPSILON_R; lra).
  replace (0 / x0) with 0 by (unfold Rdiv; ring).
  rewrite clamp_R_id by (rlit; lra).
  rewrite acos_0.
  assert (Ha : RealMath.atan2 0 x0 = 0).
  { unfold RealMath.atan2. destruct (Rlt_dec 0 x0) as [_ | H]; [| exfalso; lra].
    replace (0 / x0) with 0 by (unfold Rdiv; ring). apply atan_0. }
  rewrite Ha.
  rewrite (Rltb_false 0 (lit 0)) by (rlit; lra).
  reflexivity.
Qed.

Lemma initializeGeodesic_radius :
  forall (camPos rayDir : vec3 R) (M a : R),
    st_r (initializeGeodesic camPos rayDir M a)
    = vx (cartesianToBoyerLindquist camPos a).
Proof.
  intros. unfold initializeGeodesic, computeConservedQuantities.
  cbv beta zeta iota. cbn [st_r]. reflexivity.
Qed.

Lemma computeConservedQuantities_radial :
  computeConservedQuantities (F := R) 10 (Rtrigo1.PI / 2) (-1) 0 0 1 0 = (1, 0, 0).
Proof.
  unfold computeConservedQuantities.
  cbn [fabs flt fle fmul fadd fsub fdiv fsqrt fneg fsin fcos RFloat].
  rewrite sin_PI2, cos_PI2, lit_0, lit_1, lit_2, EPSILON_R.
  replace (Rabs (1 / (1 * 1) - 0 * 0 / (10 * 10 - 2 * 1 * 10 + 0 * 0))) with 1.
  2:{ replace (1 / (1 * 1) - 0 * 0 / (10 * 10 - 2 * 1 * 10 + 0 * 0)) with 1 by lra.
      symmetry; apply Rabs_R1. }
  rewrite (Rltb_true 1e-6 1) by lra.
  rewrite (Rltb_true 1e-6 (1 * 1)) by lra.
  f_equal; [f_equal |]; lra.
Qed.

(** The state [initializeGeodesic] builds for the camera at [(10, 0, 0)]
    looking at the hole along [(-1, 0, 0)], with [M = 1], [a = 0]. *)
Lemma initializeGeodesic_radial :
  initializeGeodesic (F := R) (mkVec3 10 0 0) (mkVec3 (-1) 0 0) 1 0
  = mkState 10 (Rtrigo1.PI / 2) 0 (-1) 0 1 0 0.
Proof.
  unfold initializeGeodesic.
  rewrite cartesianToBoyerLindquist_on_x_axis by lra.
  cbv zeta. cbn [vx vy vz].
  rewrite (clamp_R_id (Rtrigo1.PI / 2)).
  2:{ rewrite PI_R. rlit. pose proof half_pi_in_clamp. lra. }
  cbn [fsin fcos fmul fadd fsub fdiv fneg fsqrt flt fle fabs RFloat].
  rewrite sin_PI2.
  assert (Hn : normalize (F := R) (mkVec3 10 0 0) = mkVec3 1 0 0).
  { unfold normalize, vdiv, length, dot. cbn.
    replace (10 * 10 + 0 * 0 + 0 * 0) with 100 by lra. rewrite sqrt_100.
    f_equal; lra. }
  rewrite !Hn.
  assert (Hsq : sqrt (10 * 10 + 0 * 0) = 10).
  { replace (10 * 10 + 0 * 0) with 100 by lra. apply sqrt_100. }
  rewrite !Hsq.
  assert (Hgt : RealMath.Rltb EPSILON 10 = true).
  { rewrite EPSILON_R. apply Rltb_true; lra. }
  rewrite !Hgt.
  assert (Hc : cross (F := R) (mkVec3 (lit 0) (lit 0) (lit 1)) (mkVec3 1 0 0)
               = mkVec3 0 1 0).
  { unfold cross. cbn [vx vy vz fmul fsub RFloat]. rewrite lit_0, lit_1.
    f_equal; lra. }
  rewrite !Hc.
  assert (Hl : length (F := R) (mkVec3 0 1 0) = 1).
  { unfold length, dot. cbn.
    replace (0 * 0 + 1 * 1 + 0 * 0) with 1 by lra. apply sqrt_1. }
  assert (Hn2 : normalize (F := R) (mkVec3 0 1 0) = mkVec3 0 1 0).
  { unfold normalize, vdiv. rewrite Hl. cbn. f_equal; lra. }
  rewrite Hl, Hn2.
  assert (Hlt : RealMath.Rltb 1 EPSILON = false).
  { rewrite EPSILON_R. apply Rltb_false; lra. }
  rewrite Hlt.
  assert (Hd1 : dot (F := R) (mkVec3 (-1) 0 0) (mkVec3 1 0 0) = -1).
  { unfold dot. cbn. lra. }
  assert (Hd2 : dot (F := R) (mkVec3 (-1) 0 0)
                    (mkVec3 (0 * 10 / (10 * 10)) (0 * 0 / (10 * 10))
                            (Ropp 10 / 10))
                / 10 = 0).
  { unfold dot. cbn. lra. }
  assert (Hd3 : dot (F := R) (mkVec3 (-1) 0 0) (mkVec3 0 1 0)
                / (10 * 1 + EPSILON) = 0).
  { unfold dot. cbn. unfold Rdiv. ring. }
  rewrite Hd1, Hd2, Hd3.
  rewrite computeConservedQuantities_radial.
  rewrite (sign_neg (-1)) by lra. rewrite sign_zero.
  assert (HR : R_potential (F := R) 10 1 0 0 1 0 = 10000).
  { unfold R_potential. cbn. unfold Q2R; cbn. lra. }
  assert (HT : Theta_potential (F := R) (Rtrigo1.PI / 2) 1 0 0 0 = 0).
  { unfold Theta_potential. cbn. rewrite sin_PI2, cos_PI2.
    rewrite (Rltb_false (1 * 1)) by (unfold Q2R; cbn; lra). lra. }
  assert (Hs : sigma (F := R) 10 (Rtrigo1.PI / 2) 0 = 100).
  { unfold sigma. cbn. rewrite cos_PI2. lra. }
  rewrite HR, HT, Hs.
  rewrite !max_R, lit_0.
  rewrite (Rmax_left 10000 0) by lra. rewrite (Rmax_left 0 0) by lra.
  rewrite (safeSqrt_R 10000) by lra. rewrite (safeSqrt_R 0) by lra.
  rewrite sqrt_10000, sqrt_0.
  f_equal; lra.
Qed.

Lemma eventHorizonRadius_schwarzschild : eventHorizonRadius (F := R) 1 0 = 2.
Proof.
  unfold eventHorizonRadius. cbn [fadd fsub fmul RFloat].
  rewrite safeSqrt_R by lra.
  replace (1 * 1 - 0 * 0) with 1 by lra. rewrite sqrt_1. lra.
Qed.

Lemma photonSphereRadius_schwarzschild : photonSphereRadius (F := R) 1 0 = 3.
Proof.
  unfold photonSphereRadius. cbn [fabs flt fmul RFloat].
  rewrite Rabs_R0, EPSILON_R. rewrite (Rltb_true 0 1e-6) by lra.
  rlit. lra.
Qed.

Lemma adaptiveStep_far : forall stepSize : R,
  adaptiveStep 10 2 3 stepSize = stepSize.
Proof.
  intros. unfold adaptiveStep. cbn [fabs flt fmul fsub fdiv RFloat].
  rewrite clamp_R. rlit.
  rewrite (Rmax_left ((10 - 2) / 3)) by lra.
  rewrite Rmin_right by lra.
  replace (10 - 3) with 7 by lra. rewrite (Rabs_pos_eq 7) by lra.
  rewrite (Rltb_false 7) by lra. lra.
Qed.

Lemma adaptiveStepFeatures_off : forall (M a rH rPh stepSize : R) s,
  adaptiveStepFeatures featuresOff M a rH rPh stepSize s
  = adaptiveStep (st_r s) rH rPh stepSize.
Proof. reflexivity. Qed.

(** C4 (counterexample to the claim as stated).  The ray from
    [(10, 0, 0)] along [(-1, 0, 0)] around the hole [M = 1], [a = 0],
    integrated with [maxSteps = 1], [escapeRadius = 50], [stepSize = 0.18]:
    after its single RK4 step the radius is non-negative and below
    [eventHorizon * 1.001], and the integrator returns MaxStepsReached,
    not Captured. *)
Lemma C4_counterexample_budget_exhausted_inside_capture_radius :
  let camPos := mkVec3 10 0 0 in
  let rayDir := mkVec3 (-1) 0 0 in
  let s0 := initializeGeodesic (F := R) camPos rayDir 1 0 in
  let rH := eventHorizonRadius (F := R) 1 0 in
  let rPh := photonSphereRadius (F := R) 1 0 in
  let s1 := rk4Step s0 1 0 (adaptiveStep (st_r s0) rH rPh 0.18) in
  0 <= st_r s1 < rH * 1.001
  /\ status (integrateGeodesic camPos rayDir 1 0 1 50 0.18) = RAY_MAX_STEPS
  /\ status (integrateGeodesic camPos rayDir 1 0 1 50 0.18) <> RAY_CAPTURED.
Proof.
  intros camPos rayDir s0 rH rPh s1.
  subst s1 rPh rH s0 camPos rayDir. unfold integrateGeodesic.
  rewrite initializeGeodesic_radial, eventHorizonRadius_schwarzschild,
    photonSphereRadius_schwarzschild.
  cbn [st_r]. rewrite adaptiveStep_far, rk4Step_radial. cbn [st_r].
  pose proof radialRK4_step_018 as Hr.
  split; [lra |].
  assert (Hres : status (integrateLoop (mkVec3 (-1) 0 0) 1 0 1 50 0.18 2 3
                                       1000 0 (mkState 10 (Rtrigo1.PI / 2) 0 (-1) 0 1 0 0) 0)
                 = RAY_MAX_STEPS).
  { change 1000%nat with (S (S 998)).
    rewrite integrateLoop_S.
    change (0 >=? 1)%Z with false. cbv iota.
    cbn [st_r flt fmul RFloat].
    rewrite (Rltb_false 10) by (rlit; lra).
    rewrite (Rltb_false 50 10) by lra.
    cbv zeta. rewrite adaptiveStep_far, rk4Step_radial. cbn [st_r].
    rewrite invalidRadius_R.
    rewrite (Rltb_false _ 0) by lra.
    rewrite integrateLoop_S.
    change (0 + 1 >=? 1)%Z with true. reflexivity. }
  rewrite Hres. split; [reflexivity | discriminate].
Qed.

(** Witness for C4: a camera inside the capture radius is Captured by
    both integrators; the radial ray overshooting to a negative radius with
    [stepSize = 0.3] is Captured by both; with [maxSteps = 0] the outcome
    is MaxStepsReached. *)
Lemma C4_witness :
  let rayDir := mkVec3 (-1) 0 0 in
  status (integrateGeodesic (F := R) (mkVec3 2 0 0) rayDir 1 0 800 50 0.15)
  = RAY_CAPTURED
  /\ status (fst (integrateGeodesicWithFeatures featuresOff darkSampler darkSampler
                    darkDisk (mkVec3 2 0 0) rayDir 1 0 800 50 0.15 0))
     = RAY_CAPTURED
  /\ status (integrateGeodesic (F := R) (mkVec3 10 0 0) rayDir 1 0 800 50 0.3)
     = RAY_CAPTURED
  /\ status (fst (integrateGeodesicWithFeatures featuresOff darkSampler darkSampler
                    darkDisk (mkVec3 10 0 0) rayDir 1 0 800 50 0.3 0))
     = RAY_CAPTURED
  /\ status (integrateGeodesic (F := R) (mkVec3 10 0 0) rayDir 1 0 0 50 0.3)
     = RAY_MAX_STEPS.
Proof.
  intros rayDir.
  unfold integrateGeodesic, integrateGeodesicWithFeatures.
  change 1000%nat with (S 999).
  rewrite eventHorizonRadius_schwarzschild, photonSphereRadius_schwarzschild.
  assert (Hin : flt (st_r (initializeGeodesic (F := R) (mkVec3 2 0 0) rayDir 1 0))
                    (2 * lit 1.001)%glsl = true).
  { rewrite initializeGeodesic_radius, cartesianToBoyerLindquist_on_x_axis by lra.
    cbn [vx flt fmul RFloat]. apply Rltb_true. rlit. lra. }
  assert (Hout : flt (st_r (initializeGeodesic (F := R) (mkVec3 10 0 0) rayDir 1 0))
                     (2 * lit 1.001)%glsl = false
                 /\ flt 50 (st_r (initializeGeodesic (F := R) (mkVec3 10 0 0) rayDir 1 0))
                    = false).
  { unfold rayDir. rewrite initializeGeodesic_radial. cbn [st_r flt fmul RFloat].
    split; apply Rltb_false; rlit; lra. }
  destruct Hout as [Hout1 Hout2].
  assert (Hbad : flt (st_r (rk4Step (initializeGeodesic (F := R) (mkVec3 10 0 0) rayDir 1 0)
                              1 0
                              (adaptiveStep
                                 (st_r (initializeGeodesic (F := R) (mkVec3 10 0 0) rayDir 1 0))
                                 2 3 0.3)))
                     (lit 0) = true).
  { unfold rayDir. rewrite initializeGeodesic_radial. cbn [st_r].
    rewrite adaptiveStep_far, rk4Step_radial. cbn [st_r flt RFloat].
    apply Rltb_true. rewrite lit_0. apply radialRK4_step_03. }
  pose proof (C4_degenerate_radius_captured_within_budget
                rayDir 1 0 800 50 0.15 2 3 999 0
                (initializeGeodesic (mkVec3 2 0 0) rayDir 1 0) 0
                featuresOff darkSampler darkSampler darkDisk 0) as Tin.
  pose proof (C4_degenerate_radius_captured_within_budget
                rayDir 1 0 800 50 0.3 2 3 999 0
                (initializeGeodesic (mkVec3 10 0 0) rayDir 1 0) 0
                featuresOff darkSampler darkSampler darkDisk 0) as Tout.
  pose proof (C4_degenerate_radius_captured_within_budget
                rayDir 1 0 0 50 0.3 2 3 999 0
                (initializeGeodesic (mkVec3 10 0 0) rayDir 1 0) 0
                featuresOff darkSampler darkSampler darkDisk 0
                (mkAcc vzero 0 vzero vzero 0 0 0 0 0)) as Tmax.
  cbv zeta in Tin, Tout, Tmax.
  split; [| split; [| split; [| split]]].
  - match goal with
    | |- status (integrateLoop _ _ _ _ _ _ _ _ _ _ _ _) = _ =>
        destruct (Tin (mkAcc vzero 0 vzero vzero 0 0 0 0 0)) as (H1 & _)
    end.
    apply H1; [lia | exact Hin].
  - match goal with
    | |- status (fst (featureLoop _ _ _ _ _ _ _ _ _ _ _ _ _ _ _ _ ?acc _)) = _ =>
        destruct (Tin acc) as (H1 & _)
    end.
    apply H1; [lia | exact Hin].
  - destruct (Tout (mkAcc vzero 0 vzero vzero 0 0 0 0 0)) as (_ & H2 & _).
    apply H2; [lia | exact Hout1 | exact Hout2 | left; exact Hbad].
  - match goal with
    | |- status (fst (featureLoop _ _ _ _ _ _ _ _ _ _ _ _ _ _ _ _ ?acc _)) = _ =>
        destruct (Tout acc) as (_ & _ & H3 & _)
    end.
    apply H3; [lia | exact Hout1 | exact Hout2 | left].
    rewrite adaptiveStepFeatures_off. exact Hbad.
  - destruct Tmax as (_ & _ & _ & H4).
    apply H4. lia.
Defined.

End RealShader.

(* ====================================================================== *)
(** * Part IX.  Cartesian and Boyer-Lindquist coordinates                  *)
(* ====================================================================== *)

Section PolarLemmas.

Local Open Scope R_scope.

Lemma sqrt_sum_squares_pos : forall x y, 0 < x ->
  sqrt (x * x + y * y) = x * sqrt (1 + (y / x)²).
Proof.
  intros x y Hx.
  assert (H1 : 0 <= 1 + (y / x)²) by (pose proof (Rle_0_sqr (y / x)); lra).
  replace (x * sqrt (1 + (y / x)²)) with (sqrt (x * x) * sqrt (1 + (y / x)²))
    by (rewrite sqrt_square by lra; reflexivity).
  rewrite <- sqrt_mult by (try nra; assumption).
  f_equal. unfold Rsqr. field. lra.
Qed.

Lemma sqrt_sum_squares_neg : forall x y, x < 0 ->
  sqrt (x * x + y * y) = - x * sqrt (1 + (y / x)²).
Proof.
  intros x y Hx.
  assert (H1 : 0 <= 1 + (y / x)²) by (pose proof (Rle_0_sqr (y / x)); lra).
  replace (- x * sqrt (1 + (y / x)²))
    with (sqrt (- x * - x) * sqrt (1 + (y / x)²))
    by (rewrite sqrt_square by lra; reflexivity).
  rewrite <- sqrt_mult by (try nra; assumption).
  f_equal. unfold Rsqr. field. lra.
Qed.

Lemma sqrt_one_plus_sqr_pos : forall t, 0 < sqrt (1 + t²).
Proof. intros t. apply sqrt_lt_R0. pose proof (Rle_0_sqr t). lra. Qed.

Lemma atan2_polar : forall x y,
  sqrt (x * x + y * y) * cos (RealMath.atan2 y x) = x
  /\ sqrt (x * x + y * y) * sin (RealMath.atan2 y x) = y.
Proof.
  intros x y. unfold RealMath.atan2.
  destruct (Rlt_dec 0 x) as [Hx | Hx].
  - rewrite cos_atan, sin_atan, sqrt_sum_squares_pos by exact Hx.
    pose proof (sqrt_one_plus_sqr_pos (y / x)).
    split; field; lra.
  - destruct (Rlt_dec x 0) as [Hx' | Hx'].
    + pose proof (sqrt_one_plus_sqr_pos (y / x)).
      destruct (Rle_dec 0 y).
      * rewrite neg_cos, neg_sin, cos_atan, sin_atan, sqrt_sum_squares_neg by exact Hx'.
        split; field; lra.
      * unfold Rminus. rewrite cos_plus, sin_plus, cos_neg, sin_neg, cos_PI, sin_PI.
        rewrite cos_atan, sin_atan, sqrt_sum_squares_neg by exact Hx'.
        split; field; lra.
    + assert (x = 0) by lra. subst x.
      replace (0 * 0 + y * y) with (y * y) by ring.
      destruct (Rlt_dec 0 y).
      * rewrite cos_PI2, sin_PI2, sqrt_square by lra. split; ring.
      * destruct (Rlt_dec y 0).
        -- rewrite cos_neg, sin_neg, cos_PI2, sin_PI2.
           replace (y * y) with (- y * - y) by ring. rewrite sqrt_square by lra.
           split; ring.
        -- assert (y = 0) by lra. subst y.
           rewrite cos_0, sin_0. replace (0 * 0) with 0 by ring. rewrite sqrt_0.
           split; ring.
Qed.

Lemma cos_shift_2PI : forall t, cos (t + 2 * PI) = cos t.
Proof. intros. rewrite cos_plus, cos_2PI, sin_2PI. ring. Qed.
Lemma sin_shift_2PI : forall t, sin (t + 2 * PI) = sin t.
Proof. intros. rewrite sin_plus, cos_2PI, sin_2PI. ring. Qed.

(** the azimuth computed by both forward transforms *)
Lemma azimuth_polar : forall x y,
  let phi := RealMath.atan2 y x in
  let phi := if Rlt_dec phi 0 then phi + 2 * PI else phi in
  sqrt (x * x + y * y) * cos phi = x /\ sqrt (x * x + y * y) * sin phi = y.
Proof.
  intros x y phi phi'. subst phi' phi.
  destruct (Rlt_dec _ 0); rewrite ?cos_shift_2PI, ?sin_shift_2PI; apply atan2_polar.
Qed.

Lemma Rabs_le_of_sqr : forall z r, 0 < r -> z * z <= r * r -> -1 <= z / r <= 1.
Proof.
  intros z r Hr Hz.
  assert (H1 : - r <= z <= r) by nra.
  split.
  - apply Rmult_le_reg_r with r; [lra |].
    replace (z / r * r) with z by (field; lra). lra.
  - apply Rmult_le_reg_r with r; [lra |].
    replace (z / r * r) with z by (field; lra). lra.
Qed.

(** The Kerr branch of the forward transform: the radius solves
    [r^4 - (rho^2 - a^2) r^2 - a^2 z^2 = 0]. *)
Lemma kerr_radius_equation :
  forall a x y z,
    let b := x * x + y * y + z * z - a * a in
    let r2 := (b + sqrt (Rmax 0 (b * b - 4 * (- (a * a) * z * z)))) / 2 in
    r2 * r2 - b * r2 - a * a * (z * z) = 0.
Proof.
  intros a x y z b r2.
  assert (Hd : 0 <= b * b - 4 * (- (a * a) * z * z)) by nra.
  subst r2. rewrite Rmax_right by exact Hd.
  pose proof (sqrt_sqrt _ Hd) as Hs.
  set (s := sqrt (b * b - 4 * (- (a * a) * z * z))) in *.
  nra.
Qed.

Lemma kerr_branch_round_trip :
  forall a x y z r2 r,
    r2 = (x * x + y * y + z * z - a * a
          + sqrt (Rmax 0 ((x * x + y * y + z * z - a * a)
                          * (x * x + y * y + z * z - a * a)
                          - 4 * (- (a * a) * z * z)))) / 2 ->
    r = sqrt (Rmax 0 r2) ->
    0 < r ->
    -1 <= z / r <= 1
    /\ r * cos (acos (z / r)) = z
    /\ sqrt (r * r + a * a) * sin (acos (z / r)) = sqrt (x * x + y * y).
Proof.
  intros a x y z r2 r Hr2eq Hreq Hr.
  pose proof (kerr_radius_equation a x y z) as Hq. cbv zeta in Hq.
  rewrite <- Hr2eq in Hq.
  assert (Hr2 : 0 < r2).
  { destruct (Rle_dec r2 0) as [Hn | Hp]; [| lra].
    exfalso. rewrite Hreq, Rmax_left in Hr by exact Hn.
    rewrite sqrt_0 in Hr. lra. }
  assert (Hrr : r * r = r2).
  { rewrite Hreq. rewrite Rmax_right by lra. apply sqrt_sqrt. lra. }
  assert (Hid : (r2 + a * a) * (r2 - z * z) = r2 * (x * x + y * y)) by nra.
  assert (Hz : z * z <= r * r).
  { rewrite Hrr. assert (0 <= r2 * (x * x + y * y)) by nra.
    assert (0 < r2 + a * a) by nra. nra. }
  pose proof (Rabs_le_of_sqr z r Hr Hz) as Hb.
  split; [exact Hb |].
  rewrite cos_acos, sin_acos by exact Hb.
  split; [field; lra |].
  assert (H1 : 0 <= 1 - (z / r)²).
  { unfold Rsqr. destruct Hb as [Hb1 Hb2]. nra. }
  rewrite <- sqrt_mult by (try nra; assumption).
  f_equal. unfold Rsqr. rewrite Hrr.
  replace ((r2 + a * a) * (1 - z / r * (z / r)))
    with ((r2 + a * a) * (r * r - z * z) / (r * r)) by (field; lra).
  rewrite Hrr, Hid. field. lra.
Qed.

Lemma spherical_branch_round_trip :
  forall x y z r,
    r = sqrt (x * x + y * y + z * z) ->
    0 < r ->
    -1 <= z / r <= 1
    /\ r * cos (acos (z / r)) = z
    /\ r * sin (acos (z / r)) = sqrt (x * x + y * y).
Proof.
  intros x y z r Hreq Hr.
  assert (Hrr : r * r = x * x + y * y + z * z).
  { rewrite Hreq. apply sqrt_sqrt. nra. }
  assert (Hz : z * z <= r * r) by nra.
  pose proof (Rabs_le_of_sqr z r Hr Hz) as Hb.
  split; [exact Hb |].
  rewrite cos_acos, sin_acos by exact Hb.
  split; [field; lra |].
  assert (H1 : 0 <= 1 - (z / r)²).
  { unfold Rsqr. destruct Hb as [Hb1 Hb2]. nra. }
  replace (r * sqrt (1 - (z / r)²)) with (sqrt (r * r) * sqrt (1 - (z / r)²))
    by (rewrite sqrt_square by lra; reflexivity).
  rewrite <- sqrt_mult by (try nra; assumption).
  f_equal. unfold Rsqr. rewrite Hrr at 1.
  replace (x * x + y * y) with (r * r - z * z) by lra. field. lra.
Qed.

(** [sqrt(r^2 + a^2)] exceeds [r] by at most [|a|]. *)
Lemma rho_excess : forall r a, 0 < r -> 0 <= sqrt (r * r + a * a) - r <= Rabs a.
Proof.
  intros r a Hr.
  assert (H0 : 0 <= r * r + a * a) by nra.
  pose proof (sqrt_pos (r * r + a * a)) as Hp.
  pose proof (sqrt_sqrt _ H0) as Hs.
  pose proof (Rabs_pos a) as Ha.
  assert (Haa : Rabs a * Rabs a = a * a).
  { unfold Rabs. destruct (Rcase_abs a); ring. }
  set (w := sqrt (r * r + a * a)) in *.
  split; nra.
Qed.

(** The Cartesian point rebuilt from [(rho, theta, phi)] when the forward
    transform returned the cylindrical radius [c = r sin(theta)] scaled by
    [rho / r]. *)
Lemma scaled_component_error :
  forall r rho a s t x,
    0 < r -> 0 <= rho - r <= Rabs a -> Rabs a < 1e-6 ->
    r * s = t -> -1 <= x / r <= 1 ->
    forall c, t * c = x -> Rabs (rho * s * c - x) < 0.01.
Proof.
  intros r rho a s t x Hr Hrho Ha Hs Hx c Hc.
  assert (Hx' : rho * s * c = x + (rho - r) * (x / r)).
  { rewrite <- Hc, <- Hs. field. lra. }
  rewrite Hx'. replace (x + (rho - r) * (x / r) - x) with ((rho - r) * (x / r)) by ring.
  apply Rabs_def1; nra.
Qed.

Lemma Rabs_def2b : forall u e, Rabs u <= e -> - e <= u <= e.
Proof. intros u e H. unfold Rabs in H. destruct (Rcase_abs u); lra. Qed.

End PolarLemmas.

Section HostRoundTrip.

Import JS.
Local Open Scope R_scope.

Lemma js_round_trip :
  forall (mass spin : R) (this : KerrMetric.t) (x y z : R),
    KerrMetric.constructor (Some mass) (Some spin) = Normal this ->
    let bl := KerrMetric.cartesianToBoyerLindquist this x y z in
    let back := KerrMetric.boyerLindquistToCartesian this
                  (KerrMetric.r bl) (KerrMetric.theta bl) (KerrMetric.phi bl) in
    EPSILON < KerrMetric.r bl ->
    (Rabs (KerrMetric.x back - x) < 0.01
     /\ Rabs (KerrMetric.y back - y) < 0.01
     /\ Rabs (KerrMetric.z back - z) < 0.01)
    /\ (EPSILON <= Rabs (KerrMetric.a this) -> back = KerrMetric.mkXYZ x y z)
    /\ (Rabs (KerrMetric.a this) < EPSILON -> bl = sphericalCoordinates x y z).
Proof.
  intros mass spin this x y z Hc bl back.
  destruct (constructor_invariant _ _ _ Hc) as (HM & Ha & Ha2).
  pose proof (azimuth_polar x y) as Hphi. cbv zeta in Hphi.
  destruct Hphi as [Hpc Hps].
  subst back bl.
  unfold KerrMetric.cartesianToBoyerLindquist, KerrMetric.boyerLindquistToCartesian.
  unfold Math.abs, Math.sqrt, Math.max, Math.min, Math.acos, Math.atan2,
    Math.sin, Math.cos, Math.PI, EPSILON in *.
  rewrite Ha2.
  destruct (Rlt_dec (Rabs (KerrMetric.a this)) 1e-6) as [Hs | Hk].
  - (* Schwarzschild fast path *)
    cbn [KerrMetric.r KerrMetric.theta KerrMetric.phi
         KerrMetric.x KerrMetric.y KerrMetric.z].
    set (r := sqrt (x * x + y * y + z * z)) in *.
    intros Hr.
    destruct (Rgt_dec r 1e-6) as [Hg | Hg]; [| exfalso; lra].
    assert (Hr0 : 0 < r) by lra.
    destruct (spherical_branch_round_trip x y z r eq_refl Hr0) as (Hb & Hz & Hsin).
    pose proof (rho_excess r (KerrMetric.a this) Hr0) as Hrho.
    assert (Hrr : r * r = x * x + y * y + z * z).
    { unfold r. apply sqrt_sqrt. nra. }
    assert (Hxr : -1 <= x / r <= 1) by (apply Rabs_le_of_sqr; nra).
    assert (Hyr : -1 <= y / r <= 1) by (apply Rabs_le_of_sqr; nra).
    split; [| split].
    + split; [| split].
      * eapply scaled_component_error; eauto.
      * eapply scaled_component_error; eauto.
      * rewrite Hz. replace (z - z) with 0 by ring. rewrite Rabs_R0. lra.
    + intros Hge. exfalso. lra.
    + intros _. unfold sphericalCoordinates. fold r. reflexivity.
  - (* Kerr branch *)
    cbn [KerrMetric.r KerrMetric.theta KerrMetric.phi
         KerrMetric.x KerrMetric.y KerrMetric.z].
    set (a := KerrMetric.a this) in *.
    set (r2 := (x * x + y * y + z * z - a * a
                + sqrt (Rmax 0 ((x * x + y * y + z * z - a * a)
                                * (x * x + y * y + z * z - a * a)
                                - 4 * (- (a * a) * z * z)))) / 2) in *.
    set (r := sqrt (Rmax 0 r2)) in *.
    intros Hr.
    destruct (Rgt_dec r 1e-6) as [Hg | Hg]; [| exfalso; lra].
    assert (Hr0 : 0 < r) by lra.
    destruct (kerr_branch_round_trip a x y z r2 r eq_refl eq_refl Hr0)
      as (Hb & Hz & Hsin).
    rewrite (Rmin_right 1 (z / r)) by lra.
    rewrite (Rmax_right (-1) (z / r)) by lra.
    rewrite Hsin, Hz, Hpc, Hps.
    cbn [KerrMetric.x KerrMetric.y KerrMetric.z].
    replace (x - x) with 0 by ring. replace (y - y) with 0 by ring.
    replace (z - z) with 0 by ring. rewrite Rabs_R0.
    split; [repeat split; lra |].
    split; [intros _; reflexivity | intros Hlt; exfalso; lra].
Qed.

Lemma js_counterexample :
  let this := KerrMetric.mk 1 0.9 (0.9 * 0.9) in
  let bl := KerrMetric.cartesianToBoyerLindquist this 0.5 0 0 in
  let back := KerrMetric.boyerLindquistToCartesian this
                (KerrMetric.r bl) (KerrMetric.theta bl) (KerrMetric.phi bl) in
  KerrMetric.constructor (Some 1) (Some 0.9) = Normal this
  /\ bl = KerrMetric.mkBL 0 0 0
  /\ back = KerrMetric.mkXYZ 0 0 0
  /\ ~ Rabs (KerrMetric.x back - 0.5) < 0.01.
Proof.
  intros this bl back.
  assert (Habs : Rabs 0.9 = 0.9) by (apply Rabs_pos_eq; lra).
  assert (Hbl : bl = KerrMetric.mkBL 0 0 0).
  { subst bl this. unfold KerrMetric.cartesianToBoyerLindquist.
    cbn [KerrMetric.a]. unfold Math.abs, Math.sqrt, Math.max, Math.min,
      Math.acos, Math.atan2, Math.PI, JS.EPSILON.
    rewrite Habs.
    destruct (Rlt_dec 0.9 1e-6) as [H | _]; [exfalso; lra |].
    replace ((0.5 * 0.5 + 0 * 0 + 0 * 0 - 0.9 * 0.9)
             * (0.5 * 0.5 + 0 * 0 + 0 * 0 - 0.9 * 0.9)
             - 4 * (- (0.9 * 0.9) * 0 * 0)) with (0.56 * 0.56) by lra.
    rewrite (Rmax_right 0 (0.56 * 0.56)) by lra.
    rewrite sqrt_square by lra.
    replace ((0.5 * 0.5 + 0 * 0 + 0 * 0 - 0.9 * 0.9 + 0.56) / 2) with 0 by lra.
    rewrite (Rmax_left 0 0) by lra. rewrite sqrt_0.
    destruct (Rgt_dec 0 1e-6) as [H | _]; [exfalso; lra |].
    assert (Hat : RealMath.atan2 0 0.5 = 0).
    { unfold RealMath.atan2. destruct (Rlt_dec 0 0.5) as [_ | H]; [| exfalso; lra].
      replace (0 / 0.5) with 0 by lra. apply atan_0. }
    rewrite Hat. destruct (Rlt_dec 0 0) as [H | _]; [exfalso; lra | reflexivity]. }
  assert (Hback : back = KerrMetric.mkXYZ 0 0 0).
  { subst back. rewrite Hbl. unfold KerrMetric.boyerLindquistToCartesian.
    cbn [KerrMetric.r KerrMetric.theta KerrMetric.phi].
    unfold Math.sin, Math.cos. rewrite sin_0, cos_0. f_equal; ring. }
  split; [| split; [exact Hbl | split; [exact Hback |]]].
  - unfold KerrMetric.constructor, KerrMetric.setParameters, Math.abs. rewrite Habs.
    destruct (Rle_dec 1 0) as [H | _]; [exfalso; lra |].
    destruct (Rgt_dec 0.9 1) as [H | _]; [exfalso; lra | reflexivity].
  - rewrite Hback. cbn [KerrMetric.x].
    intros Habs'. apply Rabs_def2 in Habs'. lra.
Qed.


End HostRoundTrip.

Section ShaderRoundTrip.

Import GLSL.
Local Open Scope R_scope.

Ltac rlit := cbn [lit RFloat]; unfold Q2R; cbn.

(** The shader's [TWO_PI] is the decimal 6.28318530718: it exceeds the
    real [2 pi] by less than [1e-12]. *)
Lemma two_pi_bounds : 6.283185307179 < 2 * Rtrigo1.PI < 6.28318530718.
Proof.
  destruct (PI_2_3_7_ineq 7) as [H1 H2].
  unfold sum_f_R0, tg_alt, PI_2_3_7_tg, Ratan_seq in H1, H2.
  simpl in H1, H2. split; lra.
Qed.

Lemma TWO_PI_R : TWO_PI (F := R) = 6.28318530718.
Proof. unfold TWO_PI. rlit. lra. Qed.

Lemma sin_abs_le : forall d, 0 <= d <= 1 -> 0 <= sin d <= d.
Proof.
  intros d [H0 H1]. pose proof PI_lower_bound.
  split.
  - apply sin_ge_0; lra.
  - destruct (Req_dec d 0) as [-> | Hd]; [rewrite sin_0; lra |].
    left. apply sin_lt_x. lra.
Qed.

Lemma one_minus_cos_le : forall d, 0 <= d <= 1 -> 0 <= 1 - cos d <= d.
Proof.
  intros d [H0 H1].
  replace d with (2 * (d / 2)) at 1 2 by field.
  rewrite cos_2a_sin.
  pose proof (sin_abs_le (d / 2) ltac:(lra)) as [Hs0 Hs1].
  split; nra.
Qed.

(** Shifting an angle by a small [d] moves its cosine and sine by at most
    [2 d]. *)
Lemma trig_shift_small :
  forall t d, 0 <= d <= 1 ->
    Rabs (cos (t + d) - cos t) <= 2 * d /\ Rabs (sin (t + d) - sin t) <= 2 * d.
Proof.
  intros t d Hd.
  pose proof (sin_abs_le d Hd) as [Hs0 Hs1].
  pose proof (one_minus_cos_le d Hd) as [Hc0 Hc1].
  pose proof (SIN_bound t) as [Hst0 Hst1].
  pose proof (COS_bound t) as [Hct0 Hct1].
  rewrite cos_plus, sin_plus.
  split; apply Rabs_le; split; nra.
Qed.

(** The azimuth as the shader wraps it: [atan(y, x)], plus [TWO_PI] when
    negative. *)
Lemma glsl_azimuth_polar :
  forall x y : R,
    let phi := RealMath.atan2 y x in
    let phi' := if RealMath.Rltb phi (lit 0) then phi + TWO_PI else phi in
    Rabs (sqrt (x * x + y * y) * cos phi' - x) <= sqrt (x * x + y * y) * 2e-12
    /\ Rabs (sqrt (x * x + y * y) * sin phi' - y) <= sqrt (x * x + y * y) * 2e-12.
Proof.
  intros x y phi phi'.
  destruct (atan2_polar x y) as [Hc Hs]. fold phi in Hc, Hs.
  pose proof (sqrt_pos (x * x + y * y)) as Ht.
  set (t := sqrt (x * x + y * y)) in *.
  subst phi'. rewrite lit_0, TWO_PI_R.
  unfold RealMath.Rltb. destruct (Rlt_dec phi 0) as [Hneg | Hpos].
  - pose proof two_pi_bounds as [Hp1 Hp2].
    set (d := 6.28318530718 - 2 * Rtrigo1.PI).
    assert (Hd : 0 <= d <= 1) by (unfold d; lra).
    assert (Hd' : d <= 1e-12) by (unfold d; lra).
    replace (phi + 6.28318530718) with ((phi + d) + 2 * Rtrigo1.PI) by (unfold d; ring).
    rewrite cos_shift_2PI, sin_shift_2PI.
    destruct (trig_shift_small phi d Hd) as [Ec Es].
    replace (t * cos (phi + d) - x) with (t * (cos (phi + d) - cos phi)) by lra.
    replace (t * sin (phi + d) - y) with (t * (sin (phi + d) - sin phi)) by lra.
    rewrite !Rabs_mult, (Rabs_pos_eq t) by exact Ht.
    split; apply Rmult_le_compat_l; lra.
  - rewrite Hc, Hs. replace (x - x) with 0 by ring. replace (y - y) with 0 by ring.
    rewrite Rabs_R0. split; nra.
Qed.

Lemma sqrt_le_1e9 : forall u, 0 <= u <= 1e18 -> sqrt u <= 1e9.
Proof.
  intros u [H0 H1].
  replace 1e9 with (sqrt (1e9 * 1e9)) by (apply sqrt_square; lra).
  apply sqrt_le_1; lra.
Qed.

(** The shader round trip in the real-number reading.  The shader wraps
    the azimuth with its decimal [TWO_PI]; the bound on [x^2 + y^2] keeps
    the difference from [2 pi], scaled by the distance from the axis,
    below the tolerance. *)
Lemma glsl_round_trip :
  forall (p : vec3 R) (a : R),
    let bl := cartesianToBoyerLindquist p a in
    let back := boyerLindquistToCartesian bl a in
    1e-6 < vx bl ->
    vx p * vx p + vy p * vy p <= 1e18 ->
    Rabs (vx back - vx p) < 0.01
    /\ Rabs (vy back - vy p) < 0.01
    /\ Rabs (vz back - vz p) < 0.01.
Proof.
  intros [x y z] a bl back.
  destruct (glsl_azimuth_polar x y) as [Hpc Hps].
  pose proof (sqrt_pos (x * x + y * y)) as Ht.
  subst back bl.
  unfold cartesianToBoyerLindquist, cartesianToSpherical, boyerLindquistToCartesian,
    length, dot, safeSqrt.
  cbn [vx vy vz fabs flt fle fmul fadd fsub fdiv fneg fsqrt fsin fcos facos
       fatan2 RFloat] in *.
  rewrite !clamp_R, !max_R. rewrite !lit_0 in *. rewrite lit_m1, lit_1.
  set (phi' := if RealMath.Rltb (RealMath.atan2 y x) 0
               then RealMath.atan2 y x + TWO_PI else RealMath.atan2 y x) in *.
  rewrite !EPSILON_R.
  destruct (Rlt_dec (Rabs a) 1e-6) as [Hs | Hk].
  - rewrite (Rltb_true _ _ Hs).
    set (r := sqrt (x * x + y * y + z * z)).
    destruct (Rlt_dec r 1e-6) as [Hsmall | Hbig].
    { rewrite (Rltb_true _ _ Hsmall). cbn [vx vy vz]. intros Hr. exfalso. lra. }
    rewrite (Rltb_false r 1e-6) by lra.
    cbn [vx vy vz]. intros Hr Hscale.
    assert (Hr0 : 0 < r) by lra.
    destruct (spherical_branch_round_trip x y z r eq_refl Hr0) as (Hb & Hz & Hsin).
    rewrite (Rmax_left (z / r) (-1)) by lra. rewrite (Rmin_left (z / r) 1) by lra.
    pose proof (rho_excess r a Hr0) as Hrho.
    rewrite (Rmax_left (r * r + a * a) 0) by nra.
    pose proof (sqrt_le_1e9 (x * x + y * y) ltac:(split; [nra | lra])) as Ht9.
    assert (Hrr : r * r = x * x + y * y + z * z).
    { unfold r. apply sqrt_sqrt. nra. }
    assert (Htr : sqrt (x * x + y * y) <= r).
    { unfold r. apply sqrt_le_1; nra. }
    set (t := sqrt (x * x + y * y)) in *.
    set (rho := sqrt (r * r + a * a)) in *.
    assert (Hsr : sin (acos (z / r)) = t / r).
    { rewrite <- Hsin. field. lra. }
    rewrite Hsr, Hz.
    assert (Hq : 0 <= t / r <= 1).
    { split; [apply Rmult_le_pos; [lra | left; apply Rinv_0_lt_compat; lra] |].
      apply Rmult_le_reg_r with r; [lra |].
      replace (t / r * r) with t by (field; lra). lra. }
    pose proof (COS_bound phi') as [Hcb1 Hcb2].
    pose proof (SIN_bound phi') as [Hsb1 Hsb2].
    assert (Ex : rho * (t / r) * cos phi' - x
                 = (rho - r) * (t / r) * cos phi' + (t * cos phi' - x)).
    { field. lra. }
    assert (Ey : rho * (t / r) * sin phi' - y
                 = (rho - r) * (t / r) * sin phi' + (t * sin phi' - y)).
    { field. lra. }
    apply Rabs_def2b in Hpc. apply Rabs_def2b in Hps.
    assert (Hq1 : 0 <= (rho - r) * (t / r) <= 1e-6) by nra.
    split; [| split].
    + rewrite Ex. apply Rabs_def1; nra.
    + rewrite Ey. apply Rabs_def1; nra.
    + replace (z - z) with 0 by ring. rewrite Rabs_R0. lra.
  - rewrite (Rltb_false (Rabs a) 1e-6) by lra.
    set (r2 := (x * x + y * y + z * z - a * a
                + sqrt (Rmax ((x * x + y * y + z * z - a * a)
                                * (x * x + y * y + z * z - a * a)
                                - lit 4 * (- (a * a) * z * z)) 0)) * lit 0.5) in *.
    set (r := sqrt (Rmax r2 0)) in *.
    destruct (Rlt_dec 1e-6 r) as [Hbig | Hsmall].
    2:{ rewrite (Rltb_false 1e-6 r) by lra. cbn [vx vy vz]. intros Hr. exfalso. lra. }
    rewrite (Rltb_true _ _ Hbig).
    cbn [vx vy vz]. intros Hr Hscale.
    assert (Hr0 : 0 < r) by lra.
    assert (Hr2eq : r2 = (x * x + y * y + z * z - a * a
          + sqrt (Rmax 0 ((x * x + y * y + z * z - a * a)
                          * (x * x + y * y + z * z - a * a)
                          - 4 * (- (a * a) * z * z)))) / 2).
    { unfold r2. rewrite Rmax_comm.
      replace (lit (F := R) 4) with 4 by (rlit; lra).
      replace (lit (F := R) 0.5) with 0.5 by (rlit; lra). lra. }
    assert (Hreq : r = sqrt (Rmax 0 r2)) by (unfold r; rewrite Rmax_comm; reflexivity).
    destruct (kerr_branch_round_trip a x y z r2 r Hr2eq Hreq Hr0) as (Hb & Hz & Hsin).
    rewrite (Rmax_left (z / r) (-1)) by lra. rewrite (Rmin_left (z / r) 1) by lra.
    rewrite (Rmax_left (r * r + a * a) 0) by nra.
    rewrite Hsin, Hz.
    pose proof (sqrt_le_1e9 (x * x + y * y) ltac:(split; [nra | lra])) as Ht9.
    apply Rabs_def2b in Hpc. apply Rabs_def2b in Hps.
    split; [| split].
    + apply Rabs_def1; nra.
    + apply Rabs_def1; nra.
    + replace (z - z) with 0 by ring. rewrite Rabs_R0. lra.
Qed.

(** Shader, [a = 0.9]: the equatorial point [(0.5, 0, 0)] inside the
    ring [x^2 + y^2 = a^2] has computed radius 0; the guard gives it
    [cosTheta = 0], and it comes back as [(0.9, 0, 0)]. *)
Lemma glsl_ring_disc :
  let p := mkVec3 0.5 0 0 in
  let bl := cartesianToBoyerLindquist (F := R) p 0.9 in
  let back := boyerLindquistToCartesian bl 0.9 in
  vx bl = 0 /\ vx back = 0.9 /\ ~ Rabs (vx back - vx p) < 0.01.
Proof.
  intros p bl back.
  assert (Habs : Rabs 0.9 = 0.9) by (apply Rabs_pos_eq; lra).
  assert (Hbl : bl = mkVec3 0 (Rtrigo1.PI / 2) 0).
  { subst bl p. unfold cartesianToBoyerLindquist, safeSqrt.
    cbn [vx vy vz fabs flt fle fmul fadd fsub fdiv fneg fsqrt facos fatan2 RFloat].
    rewrite Habs, EPSILON_R, !max_R, lit_0.
    rewrite (Rltb_false 0.9 1e-6) by lra.
    replace (lit (F := R) 4) with 4 by (rlit; lra).
    replace (lit (F := R) 0.5) with 0.5 by (rlit; lra).
    replace ((0.5 * 0.5 + 0 * 0 + 0 * 0 - 0.9 * 0.9)
             * (0.5 * 0.5 + 0 * 0 + 0 * 0 - 0.9 * 0.9)
             - 4 * (- (0.9 * 0.9) * 0 * 0)) with (0.56 * 0.56) by lra.
    rewrite (Rmax_left (0.56 * 0.56) 0) by lra.
    rewrite sqrt_square by lra.
    replace ((0.5 * 0.5 + 0 * 0 + 0 * 0 - 0.9 * 0.9 + 0.56) * 0.5) with 0 by lra.
    rewrite (Rmax_left 0 0) by lra. rewrite sqrt_0.
    rewrite (Rltb_false 1e-6 0) by lra.
    rewrite clamp_R_id by (rlit; lra). rewrite acos_0.
    assert (Hat : RealMath.atan2 0 0.5 = 0).
    { unfold RealMath.atan2. destruct (Rlt_dec 0 0.5) as [_ | H]; [| exfalso; lra].
      replace (0 / 0.5) with 0 by lra. apply atan_0. }
    rewrite Hat. rewrite (Rltb_false 0 0) by lra. reflexivity. }
  assert (Hback : vx back = 0.9).
  { subst back. rewrite Hbl. unfold boyerLindquistToCartesian, safeSqrt.
    cbn [vx vy vz fmul fadd fsqrt fsin fcos RFloat].
    rewrite max_R, lit_0.
    replace (0 * 0 + 0.9 * 0.9) with (0.9 * 0.9) by lra.
    rewrite (Rmax_left (0.9 * 0.9) 0) by lra.
    rewrite sqrt_square by lra. rewrite sin_PI2, cos_0. lra. }
  split; [rewrite Hbl; reflexivity | split; [exact Hback |]].
  rewrite Hback. subst p. cbn [vx].
  intros H. apply Rabs_def2 in H. lra.
Qed.

End ShaderRoundTrip.

Section CoordinateClaims.

Local Open Scope R_scope.

(** The test point [(10, 0, 0)] of the validation suite around the hole
    [M = 1], [a = 0.9]: Boyer-Lindquist radius [sqrt 99.19], on the
    equator, azimuth 0, on the host and in the shader. *)
Lemma js_equatorial_test_point :
  JS.KerrMetric.cartesianToBoyerLindquist
    (JS.KerrMetric.mk 1 0.9 (0.9 * 0.9)) 10 0 0
  = JS.KerrMetric.mkBL (sqrt 99.19) (PI / 2) 0.
Proof.
  assert (Habs : Rabs 0.9 = 0.9) by (apply Rabs_pos_eq; lra).
  assert (Hr : 1 <= sqrt 99.19).
  { rewrite <- sqrt_1. apply sqrt_le_1; lra. }
  unfold JS.KerrMetric.cartesianToBoyerLindquist.
  cbn [JS.KerrMetric.a]. unfold JS.Math.abs, JS.Math.sqrt, JS.Math.max, JS.Math.min,
    JS.Math.acos, JS.Math.atan2, JS.Math.PI, JS.EPSILON.
  rewrite Habs.
  destruct (Rlt_dec 0.9 1e-6) as [H | _]; [exfalso; lra |].
  replace ((10 * 10 + 0 * 0 + 0 * 0 - 0.9 * 0.9)
           * (10 * 10 + 0 * 0 + 0 * 0 - 0.9 * 0.9)
           - 4 * (- (0.9 * 0.9) * 0 * 0)) with (99.19 * 99.19) by lra.
  rewrite (Rmax_right 0 (99.19 * 99.19)) by lra.
  rewrite sqrt_square by lra.
  replace ((10 * 10 + 0 * 0 + 0 * 0 - 0.9 * 0.9 + 99.19) / 2) with 99.19 by lra.
  rewrite (Rmax_right 0 99.19) by lra.
  destruct (Rgt_dec (sqrt 99.19) 1e-6) as [_ | H]; [| exfalso; apply H; lra].
  replace (0 / sqrt 99.19) with 0 by (unfold Rdiv; ring).
  rewrite (Rmin_right 1 0) by lra. rewrite (Rmax_right (-1) 0) by lra.
  rewrite acos_0.
  assert (Hat : RealMath.atan2 0 10 = 0).
  { unfold RealMath.atan2. destruct (Rlt_dec 0 10) as [_ | H]; [| exfalso; lra].
    replace (0 / 10) with 0 by lra. apply atan_0. }
  rewrite Hat. destruct (Rlt_dec 0 0) as [H | _]; [exfalso; lra | reflexivity].
Qed.

Lemma glsl_equatorial_test_point :
  GLSL.cartesianToBoyerLindquist (F := R) (GLSL.mkVec3 10 0 0) 0.9
  = GLSL.mkVec3 (sqrt 99.19) (PI / 2) 0.
Proof.
  assert (Habs : Rabs 0.9 = 0.9) by (apply Rabs_pos_eq; lra).
  assert (Hr : 1 <= sqrt 99.19).
  { rewrite <- sqrt_1. apply sqrt_le_1; lra. }
  unfold GLSL.cartesianToBoyerLindquist, GLSL.safeSqrt.
  cbn [GLSL.vx GLSL.vy GLSL.vz GLSL.fabs GLSL.flt GLSL.fle GLSL.fmul GLSL.fadd
       GLSL.fsub GLSL.fdiv GLSL.fneg GLSL.fsqrt GLSL.facos GLSL.fatan2 RFloat].
  rewrite Habs, EPSILON_R, !max_R, lit_0.
  rewrite (Rltb_false 0.9 1e-6) by lra.
  replace (GLSL.lit (F := R) 4) with 4 by (cbn; unfold Q2R; cbn; lra).
  replace (GLSL.lit (F := R) 0.5) with 0.5 by (cbn; unfold Q2R; cbn; lra).
  replace ((10 * 10 + 0 * 0 + 0 * 0 - 0.9 * 0.9)
           * (10 * 10 + 0 * 0 + 0 * 0 - 0.9 * 0.9)
           - 4 * (- (0.9 * 0.9) * 0 * 0)) with (99.19 * 99.19) by lra.
  rewrite (Rmax_left (99.19 * 99.19) 0) by lra.
  rewrite sqrt_square by lra.
  replace ((10 * 10 + 0 * 0 + 0 * 0 - 0.9 * 0.9 + 99.19) * 0.5) with 99.19 by lra.
  rewrite (Rmax_left 99.19 0) by lra.
  rewrite (Rltb_true 1e-6 (sqrt 99.19)) by lra.
  replace (0 / sqrt 99.19) with 0 by (unfold Rdiv; ring).
  rewrite clamp_R_id by (cbn; unfold Q2R; cbn; lra). rewrite acos_0.
  assert (Hat : RealMath.atan2 0 10 = 0).
  { unfold RealMath.atan2. destruct (Rlt_dec 0 10) as [_ | H]; [| exfalso; lra].
    replace (0 / 10) with 0 by lra. apply atan_0. }
  rewrite Hat. rewrite (Rltb_false 0 0) by lra. reflexivity.
Qed.

(** C8 (as amended).  Points away from the poles (computed polar angle in
    [[0.01, pi - 0.01]]), within the simulation's [maxDistance]
    ([x^2 + y^2 + z^2 <= 100^2]), whose Boyer-Lindquist radius, as
    [cartesianToBoyerLindquist] computes it, exceeds [EPSILON] and is at
    least [|a|]: on the host, for every metric the constructor accepts,
    and in the shader, for every spin, the round trip through
    [boyerLindquistToCartesian] reproduces each component within 0.01.
    For [|a| < EPSILON] the forward transform is the plain spherical
    conversion (host: for a computed radius above [EPSILON]; shader:
    [cartesianToBoyerLindquist] returns [cartesianToSpherical], for every
    float type).  Over the real numbers only the condition on [EPSILON] is
    needed; the others keep the statement to the points where the absolute
    tolerance is not a matter of rounding. *)
Theorem C8_round_trip_away_from_poles_and_ring :
  (forall (mass spin : R) (this : JS.KerrMetric.t) (x y z : R),
     JS.KerrMetric.constructor (Some mass) (Some spin) = JS.Normal this ->
     let bl := JS.KerrMetric.cartesianToBoyerLindquist this x y z in
     let back := JS.KerrMetric.boyerLindquistToCartesian this
                   (JS.KerrMetric.r bl) (JS.KerrMetric.theta bl)
                   (JS.KerrMetric.phi bl) in
     JS.EPSILON < JS.KerrMetric.r bl ->
     (Rabs (JS.KerrMetric.a this) <= JS.KerrMetric.r bl ->
      0.01 <= JS.KerrMetric.theta bl <= PI - 0.01 ->
      x * x + y * y + z * z <= 100 * 100 ->
      Rabs (JS.KerrMetric.x back - x) < 0.01
      /\ Rabs (JS.KerrMetric.y back - y) < 0.01
      /\ Rabs (JS.KerrMetric.z back - z) < 0.01)
     /\ (Rabs (JS.KerrMetric.a this) < JS.EPSILON ->
         bl = sphericalCoordinates x y z))
  /\
  (forall (p : GLSL.vec3 R) (a : R),
     let bl := GLSL.cartesianToBoyerLindquist p a in
     let back := GLSL.boyerLindquistToCartesian bl a in
     1e-6 < GLSL.vx bl -> Rabs a <= GLSL.vx bl ->
     0.01 <= GLSL.vy bl <= PI - 0.01 ->
     GLSL.vx p * GLSL.vx p + GLSL.vy p * GLSL.vy p + GLSL.vz p * GLSL.vz p
     <= 100 * 100 ->
     Rabs (GLSL.vx back - GLSL.vx p) < 0.01
     /\ Rabs (GLSL.vy back - GLSL.vy p) < 0.01
     /\ Rabs (GLSL.vz back - GLSL.vz p) < 0.01)
  /\
  (forall (F : Type) (FO : GLSL.GLFloat F) (p : GLSL.vec3 F) (a : F),
     GLSL.flt (GLSL.fabs a) GLSL.EPSILON = true ->
     GLSL.cartesianToBoyerLindquist p a = GLSL.cartesianToSpherical p).
Proof.
  split; [| split].
  - intros mass spin this x y z Hc bl back Hr.
    destruct (js_round_trip mass spin this x y z Hc Hr) as (Hb & _ & Hs).
    split; [intros _ _ _; exact Hb | exact Hs].
  - intros p a bl back Hr _ _ Hd.
    apply (glsl_round_trip p a Hr).
    assert (0 <= GLSL.vz p * GLSL.vz p) by nra. lra.
  - intros F FO p a Ha. unfold GLSL.cartesianToBoyerLindquist.
    rewrite Ha. reflexivity.
Qed.

(** Witness for C8: the test point [(10, 0, 0)] of the repository's
    validation suite, around the default hole [M = 1], [a = 0.9] on the
    host and on the shader, and the shader's fast path at [a = 0]. *)
Lemma C8_witness :
  (let this := JS.KerrMetric.mk 1 0.9 (0.9 * 0.9) in
   let bl := JS.KerrMetric.cartesianToBoyerLindquist this 10 0 0 in
   let back := JS.KerrMetric.boyerLindquistToCartesian this
                 (JS.KerrMetric.r bl) (JS.KerrMetric.theta bl)
                 (JS.KerrMetric.phi bl) in
   Rabs (JS.KerrMetric.x back - 10) < 0.01
   /\ Rabs (JS.KerrMetric.y back - 0) < 0.01
   /\ Rabs (JS.KerrMetric.z back - 0) < 0.01)
  /\
  (let p := GLSL.mkVec3 10 0 0 in
   let back := GLSL.boyerLindquistToCartesian
                 (GLSL.cartesianToBoyerLindquist p 0.9) 0.9 in
   Rabs (GLSL.vx back - 10) < 0.01
   /\ Rabs (GLSL.vy back - 0) < 0.01
   /\ Rabs (GLSL.vz back - 0) < 0.01)
  /\
  GLSL.cartesianToBoyerLindquist (GLSL.mkVec3 10 0 0) 0
  = GLSL.cartesianToSpherical (GLSL.mkVec3 10 0 0).
Proof.
  destruct C8_round_trip_away_from_poles_and_ring as (Hjs & Hglsl & Hfast).
  assert (Habs : Rabs 0.9 = 0.9) by (apply Rabs_pos_eq; lra).
  assert (Hr : 1 <= sqrt 99.19).
  { rewrite <- sqrt_1. apply sqrt_le_1; lra. }
  pose proof PI_lower_bound as Hpl. pose proof PI_upper_bound as Hpu.
  split; [| split].
  - cbv zeta.
    assert (Hc : JS.KerrMetric.constructor (Some 1) (Some 0.9)
                 = JS.Normal (JS.KerrMetric.mk 1 0.9 (0.9 * 0.9))).
    { unfold JS.KerrMetric.constructor, JS.KerrMetric.setParameters, JS.Math.abs.
      rewrite Habs.
      destruct (Rle_dec 1 0) as [H | _]; [exfalso; lra |].
      destruct (Rgt_dec 0.9 1) as [H | _]; [exfalso; lra | reflexivity]. }
    pose proof (Hjs 1 0.9 _ 10 0 0 Hc) as H. cbv zeta in H.
    rewrite js_equatorial_test_point in *.
    cbn [JS.KerrMetric.r JS.KerrMetric.theta JS.KerrMetric.phi JS.KerrMetric.a] in *.
    rewrite Habs in H. unfold JS.EPSILON in H.
    destruct (H ltac:(lra)) as (Hb & _).
    apply Hb; lra.
  - cbv zeta.
    pose proof (Hglsl (GLSL.mkVec3 10 0 0) 0.9) as H. cbv zeta in H.
    rewrite glsl_equatorial_test_point in *.
    cbn [GLSL.vx GLSL.vy GLSL.vz] in *.
    rewrite Habs in H.
    apply H; lra.
  - apply Hfast. cbn [GLSL.fabs GLSL.flt RFloat].
    rewrite Rabs_R0, EPSILON_R. apply Rltb_true. lra.
Defined.

(** C8 (counterexample to the claim as stated).  Around the hole [M = 1],
    [a = 0.9] the point [(0.5, 0, 0)], in the equatorial plane at distance
    0.5 from the axis, has computed radius 0.  The host sends it to
    [(r, theta, phi) = (0, 0, 0)] and back to [(0, 0, 0)]: the error in [x]
    is 0.5.  The shader sends it back to [(0.9, 0, 0)]: the error in [x]
    is 0.4. *)
Lemma C8_counterexample_ring_disc :
  (let this := JS.KerrMetric.mk 1 0.9 (0.9 * 0.9) in
   let bl := JS.KerrMetric.cartesianToBoyerLindquist this 0.5 0 0 in
   let back := JS.KerrMetric.boyerLindquistToCartesian this
                 (JS.KerrMetric.r bl) (JS.KerrMetric.theta bl)
                 (JS.KerrMetric.phi bl) in
   JS.KerrMetric.constructor (Some 1) (Some 0.9) = JS.Normal this
   /\ bl = JS.KerrMetric.mkBL 0 0 0
   /\ back = JS.KerrMetric.mkXYZ 0 0 0
   /\ ~ Rabs (JS.KerrMetric.x back - 0.5) < 0.01)
  /\
  (let p := GLSL.mkVec3 0.5 0 0 in
   let bl := GLSL.cartesianToBoyerLindquist (F := R) p 0.9 in
   let back := GLSL.boyerLindquistToCartesian bl 0.9 in
   GLSL.vx bl = 0 /\ GLSL.vx back = 0.9
   /\ ~ Rabs (GLSL.vx back - GLSL.vx p) < 0.01).
Proof.
  split; [exact js_counterexample | exact glsl_ring_disc].
Qed.

End CoordinateClaims.

(* ====================================================================== *)
(** * Part X.  The accretion-disk temperature profile                      *)
(* ====================================================================== *)

Section DiskTemperature.

Import JS.
Local Open Scope R_scope.

(** [Math.pow] and GLSL [pow] on a positive base and a non-zero exponent
    are the real power function. *)
Lemma pow_pos_base : forall x y, 0 < x -> y <> 0 -> RealMath.pow x y = Rpower x y.
Proof.
  intros x y Hx Hy. unfold RealMath.pow.
  destruct (Req_dec_T y 0) as [E | _]; [contradiction |].
  destruct (Rlt_dec 0 x) as [_ | H]; [reflexivity | contradiction].
Qed.

Lemma Rpower_pos : forall x y, 0 < Rpower x y.
Proof. intros. unfold Rpower. apply exp_pos. Qed.

Lemma Rpower_lt_1 : forall x c, 0 < x < 1 -> 0 < c -> Rpower x c < 1.
Proof.
  intros x c Hx Hc.
  assert (H1 : Rpower 1 c = 1).
  { unfold Rpower. rewrite ln_1, Rmult_0_r. apply exp_0. }
  apply Rlt_le_trans with (Rpower 1 c); [apply Rlt_Rpower_l; lra | rewrite H1; lra].
Qed.

(** [f = 1 - sqrt(rI / r)] lies strictly between 0 and 1 beyond the inner
    radius. *)
Lemma edge_factor_bounds : forall rI r, 0 < rI < r -> 0 < 1 - sqrt (rI / r) < 1.
Proof.
  intros rI r [H0 H1].
  assert (Hq : 0 < rI / r < 1).
  { split; [apply Rdiv_lt_0_compat; lra |].
    apply Rmult_lt_reg_r with r; [lra |].
    replace (rI / r * r) with rI by (field; lra). lra. }
  assert (Hs0 : 0 < sqrt (rI / r)) by (apply sqrt_lt_R0; lra).
  assert (Hs1 : sqrt (rI / r) < 1).
  { rewrite <- sqrt_1. apply sqrt_lt_1; lra. }
  lra.
Qed.

(** [AccretionDisk.temperature]: zero up to the inner radius; beyond it the
    product built from the dimensionless radius [r / M], capped at [T0]. *)
Lemma temperature_host :
  forall (this : AccretionDisk.t) (r : R),
    0 < AccretionDisk.M this -> 0 < AccretionDisk.innerRadius this ->
    (r <= AccretionDisk.innerRadius this -> AccretionDisk.temperature this r = 0)
    /\ (AccretionDisk.innerRadius this < r ->
        AccretionDisk.temperature this r
        = Rmin (dimensionlessProfile (AccretionDisk.T0 this) (AccretionDisk.M this)
                                     (AccretionDisk.innerRadius this) r)
               (AccretionDisk.T0 this)).
Proof.
  intros this r HM HI. unfold AccretionDisk.temperature.
  set (M := AccretionDisk.M this) in *. set (rI := AccretionDisk.innerRadius this) in *.
  split; intros Hr.
  - destruct (Rle_dec r rI); [reflexivity | contradiction].
  - destruct (Rle_dec r rI) as [H | _]; [exfalso; lra |].
    unfold Math.sqrt, Math.pow, Math.min.
    replace (rI / M / (r / M)) with (rI / r) by (field; lra).
    pose proof (edge_factor_bounds rI r ltac:(lra)) as [Hf0 Hf1].
    destruct (Rle_dec (1 - sqrt (rI / r)) 0) as [H | _]; [exfalso; lra |].
    replace (1 / (r / M * (r / M) * (r / M))) with (M / r * (M / r) * (M / r))
      by (field; lra).
    assert (Hb : 0 < M / r * (M / r) * (M / r)).
    { assert (Hq : 0 < M / r) by (apply Rdiv_lt_0_compat; lra).
      apply Rmult_lt_0_compat; [apply Rmult_lt_0_compat |]; exact Hq. }
    rewrite !pow_pos_base by lra.
    reflexivity.
Qed.

(** [v^6 (1 - v)] increases on [(0, 6/7]] ... *)
Lemma sextic_increasing :
  forall u v, 0 < v -> v < u -> u <= 6 / 7 ->
    v * v * v * v * v * v * (1 - v) < u * u * u * u * u * u * (1 - u).
Proof.
  intros u v Hv Hvu Hu.
  assert (H2 : v * v < u * u) by nra.
  assert (H3 : v * v * v < u * u * u) by nra.
  assert (H4 : v * v * v * v < u * u * u * u) by nra.
  assert (H5 : v * v * v * v * v < u * u * u * u * u) by nra.
  assert (Hv5 : 0 < v * v * v * v * v) by (repeat apply Rmult_lt_0_compat; lra).
  set (S6 := u * u * u * u * u + u * u * u * u * v + u * u * u * v * v
             + u * u * v * v * v + u * v * v * v * v + v * v * v * v * v).
  assert (HS : 6 * (v * v * v * v * v) < S6).
  { unfold S6.
    assert (Hv2 : 0 < v * v) by nra.
    assert (Hv3 : 0 < v * v * v) by nra.
    assert (Hv4 : 0 < v * v * v * v) by nra.
    pose proof (Rmult_lt_compat_r v _ _ Hv H4) as G4.
    pose proof (Rmult_lt_compat_r (v * v) _ _ Hv2 H3) as G3.
    pose proof (Rmult_lt_compat_r (v * v * v) _ _ Hv3 H2) as G2.
    pose proof (Rmult_lt_compat_r (v * v * v * v) _ _ Hv4 Hvu) as G1.
    lra. }
  assert (Hfac : u * u * u * u * u * u * (1 - u) - v * v * v * v * v * v * (1 - v)
                 = (u - v) * ((1 - u) * S6 - v * v * v * v * v * v)).
  { unfold S6. ring. }
  assert (Hpos : 0 < (1 - u) * S6 - v * v * v * v * v * v).
  { assert (1 / 7 <= 1 - u) by lra.
    assert (0 < S6) by lra.
    assert (1 / 7 * S6 <= (1 - u) * S6) by nra.
    assert (v * v * v * v * v * v = v * (v * v * v * v * v)) by ring.
    assert (v * (v * v * v * v * v) < 6 / 7 * (v * v * v * v * v)) by nra.
    lra. }
  assert (0 < (u - v) * ((1 - u) * S6 - v * v * v * v * v * v)) by (apply Rmult_lt_0_compat; lra).
  lra.
Qed.

(** [calculateISCO] at zero spin: [Z1 = 3], [Z2 = 3], radius [6 M]. *)
Lemma calculateISCO_schwarzschild :
  forall M, 0 < M -> AccretionDisk.calculateISCO M 0 = 6 * M.
Proof.
  intros M HM. unfold AccretionDisk.calculateISCO, Math.pow, Math.sqrt, Math.abs.
  replace (0 / M) with 0 by (field; lra).
  replace (1 - 0 * 0) with 1 by lra. replace (1 + 0) with 1 by lra.
  replace (1 - 0) with 1 by lra. rewrite Rabs_R1.
  assert (H1 : RealMath.pow 1 (1 / 3) = 1).
  { rewrite pow_pos_base by lra. unfold Rpower. rewrite ln_1, Rmult_0_r. apply exp_0. }
  rewrite H1.
  replace (3 * (0 * 0) + (1 + 1 * (1 + 1)) * (1 + 1 * (1 + 1))) with (3 * 3) by lra.
  rewrite sqrt_square by lra.
  replace ((3 - (1 + 1 * (1 + 1))) * (3 + (1 + 1 * (1 + 1)) + 2 * 3)) with 0 by lra.
  rewrite sqrt_0. lra.
Qed.

Lemma schwarzschildDisk_fields :
  schwarzschildDisk = AccretionDisk.mk 1 0 15 1e7 6.
Proof.
  unfold schwarzschildDisk, AccretionDisk.constructor.
  rewrite calculateISCO_schwarzschild by lra. f_equal. lra.
Qed.

Lemma fluxShape_bounds : forall r, 6 < r -> 0 < fluxShape r < 1.
Proof.
  intros r Hr. unfold fluxShape.
  pose proof (edge_factor_bounds 6 r ltac:(lra)) as [Hf0 Hf1].
  assert (Hq : 0 < 1 / r < 1).
  { split; [apply Rdiv_lt_0_compat; lra |].
    apply Rmult_lt_reg_r with r; [lra |].
    replace (1 / r * r) with 1 by (field; lra). lra. }
  set (q := 1 / r) in *. set (f := 1 - sqrt (6 / r)) in *.
  assert (Hqq : 0 < q * q < 1) by nra.
  assert (Hc : 0 < q * q * q < 1) by nra.
  nra.
Qed.

(** The cap at [T0] is never active on the Schwarzschild default disk. *)
Lemma temperature_schwarzschild :
  forall r, 6 < r ->
    AccretionDisk.temperature schwarzschildDisk r = 1e7 * Rpower (fluxShape r) 0.25.
Proof.
  intros r Hr. rewrite schwarzschildDisk_fields.
  pose proof (temperature_host (AccretionDisk.mk 1 0 15 1e7 6) r) as H.
  cbn [AccretionDisk.M AccretionDisk.innerRadius AccretionDisk.T0] in H.
  destruct (H ltac:(lra) ltac:(lra)) as [_ H2].
  rewrite (H2 Hr). unfold dimensionlessProfile.
  pose proof (edge_factor_bounds 6 r ltac:(lra)) as [Hf0 Hf1].
  assert (Hq : 0 < 1 / r) by (apply Rdiv_lt_0_compat; lra).
  assert (Hc : 0 < 1 / r * (1 / r) * (1 / r))
    by (apply Rmult_lt_0_compat; [apply Rmult_lt_0_compat |]; exact Hq).
  rewrite Rmult_assoc, Rpower_mult_distr by assumption.
  fold (fluxShape r).
  pose proof (fluxShape_bounds r Hr) as Hb.
  pose proof (Rpower_lt_1 (fluxShape r) 0.25 Hb ltac:(lra)) as Hlt.
  pose proof (Rpower_pos (fluxShape r) 0.25) as Hpos.
  apply Rmin_left. nra.
Qed.

(** With [u = sqrt(6 / r)], [fluxShape r = u^6 (1 - u) / 216]; the peak is
    at [u = 6/7], that is [r = 49/6]. *)
Lemma fluxShape_decreasing :
  forall r1 r2, 49 / 6 <= r1 -> r1 < r2 -> fluxShape r2 < fluxShape r1.
Proof.
  intros r1 r2 H1 H12. unfold fluxShape.
  assert (Hq1 : 0 < 6 / r1) by (apply Rdiv_lt_0_compat; lra).
  assert (Hq2 : 0 < 6 / r2) by (apply Rdiv_lt_0_compat; lra).
  assert (Hlt : 6 / r2 < 6 / r1).
  { unfold Rdiv. apply Rmult_lt_compat_l; [lra |].
    apply Rinv_lt_contravar; nra. }
  assert (Hle : 6 / r1 <= 36 / 49).
  { apply Rmult_le_reg_r with r1; [lra |].
    replace (6 / r1 * r1) with 6 by (field; lra). lra. }
  set (u := sqrt (6 / r1)). set (v := sqrt (6 / r2)).
  assert (Hv : 0 < v) by (apply sqrt_lt_R0; exact Hq2).
  assert (Hvu : v < u) by (apply sqrt_lt_1; lra).
  assert (Hu : u <= 6 / 7).
  { replace (6 / 7) with (sqrt (6 / 7 * (6 / 7))) by (apply sqrt_square; lra).
    apply sqrt_le_1; lra. }
  assert (Huu : u * u = 6 / r1) by (apply sqrt_sqrt; lra).
  assert (Hvv : v * v = 6 / r2) by (apply sqrt_sqrt; lra).
  replace (1 / r1) with (u * u / 6) by (rewrite Huu; field; lra).
  replace (1 / r2) with (v * v / 6) by (rewrite Hvv; field; lra).
  pose proof (sextic_increasing u v Hv Hvu Hu) as Hs.
  lra.
Qed.

Ltac rlit := cbn [GLSL.lit RFloat]; unfold Q2R; cbn.

(** GLSL [diskTemperature]: the same product, with no ceiling applied. *)
Lemma diskTemperature_shader :
  forall r rISCO T0 M : R,
    0 < M -> 0 < rISCO ->
    (r <= rISCO -> GLSL.diskTemperature r rISCO T0 M = 0)
    /\ (rISCO < r -> GLSL.diskTemperature r rISCO T0 M
                     = dimensionlessProfile T0 M rISCO r).
Proof.
  intros r rI T0 M HM HI. unfold GLSL.diskTemperature.
  cbn [GLSL.fle GLSL.flt GLSL.fmul GLSL.fdiv GLSL.fsub GLSL.fsqrt GLSL.fpow RFloat].
  rewrite !lit_0, lit_1.
  split; intros Hr.
  - rewrite Rleb_true by exact Hr. reflexivity.
  - rewrite Rleb_false by exact Hr.
    replace (rI / M / (r / M)) with (rI / r) by (field; lra).
    pose proof (edge_factor_bounds rI r ltac:(lra)) as [Hf0 Hf1].
    rewrite Rleb_false by exact Hf0.
    replace (1 / (r / M * (r / M) * (r / M))) with (M / r * (M / r) * (M / r))
      by (field; lra).
    assert (Hb : 0 < M / r * (M / r) * (M / r)).
    { assert (Hq : 0 < M / r) by (apply Rdiv_lt_0_compat; lra).
      apply Rmult_lt_0_compat; [apply Rmult_lt_0_compat |]; exact Hq. }
    rewrite !pow_pos_base by (try assumption; rlit; lra).
    unfold dimensionlessProfile.
    replace (GLSL.lit (F := R) 0.25) with 0.25 by (rlit; lra). reflexivity.
Qed.

(** GLSL [diskTemperatureNT]: always within [[0, 50000]]; zero up to
    [1.001 * rISCO]; at zero spin the relativistic correction is 1 and the
    value is the product clamped to [[0, 50000]]. *)
Lemma diskTemperatureNT_shader :
  forall r rISCO T0 M a : R,
    0 <= GLSL.diskTemperatureNT r rISCO T0 M a <= 50000
    /\ (r <= rISCO * 1.001 -> GLSL.diskTemperatureNT r rISCO T0 M a = 0)
    /\ (0 < M -> 0 < rISCO -> a = 0 -> rISCO * 1.001 < r ->
        GLSL.diskTemperatureNT r rISCO T0 M a
        = Rmin (Rmax (dimensionlessProfile T0 M rISCO r) 0) 50000).
Proof.
  intros r rI T0 M a. unfold GLSL.diskTemperatureNT.
  cbn [GLSL.fle GLSL.flt GLSL.fmul GLSL.fdiv GLSL.fsub GLSL.fadd GLSL.fsqrt
       GLSL.fpow GLSL.fcos GLSL.facos GLSL.fneg RFloat].
  rewrite !lit_0, lit_1.
  replace (GLSL.lit (F := R) 1.001) with 1.001 by (rlit; lra).
  replace (GLSL.lit (F := R) 50000) with 50000 by (rlit; lra).
  replace (GLSL.lit (F := R) 0.25) with 0.25 by (rlit; lra).
  split; [| split].
  - destruct (Rle_dec r (rI * 1.001)) as [H | H].
    + rewrite Rleb_true by exact H. lra.
    + rewrite Rleb_false by lra.
      match goal with
      | |- context [RealMath.Rleb ?f 0] => destruct (Rle_dec f 0) as [Hf | Hf];
          [rewrite (Rleb_true f 0) by exact Hf; lra
          | rewrite (Rleb_false f 0) by lra]
      end.
      apply clamp_R_range. lra.
  - intros H. rewrite Rleb_true by exact H. reflexivity.
  - intros HM HI Ha Hr. subst a.
    rewrite Rleb_false by exact Hr.
    assert (Hr0 : rI < r) by lra.
    assert (HrM : 0 < r / M) by (apply Rdiv_lt_0_compat; lra).
    assert (HIM : 0 < rI / M) by (apply Rdiv_lt_0_compat; lra).
    assert (Hsx : 0 < sqrt (r / M)) by (apply sqrt_lt_R0; exact HrM).
    assert (Hf : 1 - sqrt (rI / M) / sqrt (r / M) = 1 - sqrt (rI / r)).
    { rewrite <- sqrt_div by lra. f_equal. f_equal. field. lra. }
    rewrite Hf.
    pose proof (edge_factor_bounds rI r ltac:(lra)) as [Hf0 Hf1].
    rewrite Rleb_false by exact Hf0.
    assert (Hy : sqrt (r / M) * sqrt (r / M) = r / M) by (apply sqrt_sqrt; lra).
    rewrite Hy.
    replace (0 / M) with 0 by (field; lra).
    replace (1 + 0 / (r / M * sqrt (r / M))) with 1 by (unfold Rdiv; ring).
    rewrite Rmult_1_r, max_R, (Rmax_left _ 0) by lra.
    rewrite clamp_R. f_equal. f_equal.
    unfold dimensionlessProfile.
    assert (Hb : 0 < M / r * (M / r) * (M / r)).
    { assert (Hq : 0 < M / r) by (apply Rdiv_lt_0_compat; lra).
      apply Rmult_lt_0_compat; [apply Rmult_lt_0_compat |]; exact Hq. }
    rewrite (Rmult_assoc T0), Rpower_mult_distr by assumption.
    rewrite pow_pos_base.
    + f_equal. f_equal. field. lra.
    + apply Rdiv_lt_0_compat; [lra |].
      apply Rmult_lt_0_compat; [apply Rmult_lt_0_compat |]; exact HrM.
    + lra.
Qed.

(** For [M = 1] the product of the code is the stated one. *)
Lemma claimed_profile_unit_mass :
  forall T0 rI r, 0 < r -> dimensionlessProfile T0 1 rI r = claimedProfile T0 1 rI r.
Proof.
  intros T0 rI r Hr. unfold dimensionlessProfile, claimedProfile.
  replace (1 / r * (1 / r) * (1 / r)) with (1 / (r * r * r)) by (field; lra).
  reflexivity.
Qed.

Lemma fourth_root_lower : forall c x, 0 < c -> c * c * c * c <= x -> c <= Rpower x 0.25.
Proof.
  intros c x Hc Hx.
  assert (Hc4 : 0 < c * c * c * c) by (repeat apply Rmult_lt_0_compat; lra).
  assert (H : Rpower (c * c * c * c) 0.25 = c).
  { replace (c * c * c * c) with (c ^ 4) by ring.
    rewrite <- (Rpower_pow 4 c Hc), Rpower_mult.
    replace (INR 4 * 0.25) with 1 by (simpl; lra).
    apply Rpower_1; exact Hc. }
  rewrite <- H at 1. apply Rle_Rpower_l; lra.
Qed.

(** Mass 2, zero spin: inner radius 12; at [r = 48] the code uses
    [(M/r)^3 = 1/13824] where the formula of its own documentation
    ([T_0 (M/r^3)^0.25 ...]) has [M/r^3 = 1/55296]: the host value departs
    from the documented one. *)
Lemma temperature_mass_two :
  let disk := AccretionDisk.constructor 2 0 None None None in
  disk = AccretionDisk.mk 2 0 15 1e7 12
  /\ AccretionDisk.innerRadius disk < 48
  /\ AccretionDisk.temperature disk 48
     <> Rmin (claimedProfile (AccretionDisk.T0 disk) (AccretionDisk.M disk)
                             (AccretionDisk.innerRadius disk) 48)
             (AccretionDisk.T0 disk).
Proof.
  intros disk.
  assert (Hd : disk = AccretionDisk.mk 2 0 15 1e7 12).
  { unfold disk, AccretionDisk.constructor.
    rewrite calculateISCO_schwarzschild by lra. f_equal. lra. }
  rewrite Hd. cbn [AccretionDisk.innerRadius AccretionDisk.T0 AccretionDisk.M].
  split; [reflexivity | split; [lra |]].
  pose proof (temperature_host (AccretionDisk.mk 2 0 15 1e7 12) 48) as H.
  cbn [AccretionDisk.M AccretionDisk.innerRadius AccretionDisk.T0] in H.
  destruct (H ltac:(lra) ltac:(lra)) as [_ H2]. rewrite (H2 ltac:(lra)).
  unfold dimensionlessProfile, claimedProfile.
  pose proof (edge_factor_bounds 12 48 ltac:(lra)) as Hf.
  pose proof (Rpower_pos (1 - sqrt (12 / 48)) 0.25) as HB0.
  pose proof (Rpower_lt_1 _ 0.25 Hf ltac:(lra)) as HB1.
  set (B := Rpower (1 - sqrt (12 / 48)) 0.25) in *.
  assert (HA : Rpower (2 / (48 * 48 * 48)) 0.25 < Rpower (2 / 48 * (2 / 48) * (2 / 48)) 0.25).
  { apply Rlt_Rpower_l; lra. }
  pose proof (Rpower_pos (2 / (48 * 48 * 48)) 0.25) as HA20.
  assert (HA1 : Rpower (2 / 48 * (2 / 48) * (2 / 48)) 0.25 < 1)
    by (apply Rpower_lt_1; lra).
  set (A1 := Rpower (2 / 48 * (2 / 48) * (2 / 48)) 0.25) in *.
  set (A2 := Rpower (2 / (48 * 48 * 48)) 0.25) in *.
  rewrite (Rmin_left (1e7 * A1 * B)) by nra.
  rewrite (Rmin_left (1e7 * A2 * B)) by nra.
  nra.
Qed.

(** Shader samples: [diskTemperature] exceeds 50000 at [r = 10], and
    [diskTemperatureNT] is zero at [r = 6.003 > rISCO = 6]. *)
Lemma shader_temperature_samples :
  6 < 10
  /\ 50000 < GLSL.diskTemperature (F := R) 10 6 1e7 1
  /\ 6 < 6.003
  /\ GLSL.diskTemperatureNT (F := R) 6.003 6 1e7 1 0 = 0
  /\ 0 < Rmin (claimedProfile 1e7 1 6 6.003) 50000.
Proof.
  split; [lra |]. split.
  - destruct (diskTemperature_shader 10 6 1e7 1 ltac:(lra) ltac:(lra)) as [_ H].
    rewrite (H ltac:(lra)). unfold dimensionlessProfile.
    assert (HA : 0.1 <= Rpower (1 / 10 * (1 / 10) * (1 / 10)) 0.25)
      by (apply fourth_root_lower; lra).
    assert (Hs : sqrt (6 / 10) <= 0.9).
    { replace 0.9 with (sqrt (0.9 * 0.9)) by (apply sqrt_square; lra).
      apply sqrt_le_1; lra. }
    assert (HB : 0.5 <= Rpower (1 - sqrt (6 / 10)) 0.25)
      by (apply fourth_root_lower; lra).
    nra.
  - split; [lra |]. split.
    + destruct (diskTemperatureNT_shader 6.003 6 1e7 1 0) as (_ & H & _).
      apply H. lra.
    + apply Rmin_glb_lt; [| lra]. unfold claimedProfile.
      pose proof (Rpower_pos (1 / (6.003 * 6.003 * 6.003)) 0.25).
      pose proof (Rpower_pos (1 - sqrt (6 / 6.003)) 0.25).
      nra.
Qed.

(** ... and decreases from [6/7] on. *)
Lemma sextic_decreasing :
  forall u v, 6 / 7 <= v -> v < u ->
    u * u * u * u * u * u * (1 - u) < v * v * v * v * v * v * (1 - v).
Proof.
  intros u v Hv Hvu.
  assert (Hv0 : 0 < v) by lra.
  assert (Hu0 : 0 < u) by lra.
  assert (Hu2 : 0 < u * u) by nra.
  assert (Hu3 : 0 < u * u * u) by nra.
  assert (Hu4 : 0 < u * u * u * u) by nra.
  assert (Hu5 : 0 < u * u * u * u * u) by nra.
  assert (H2 : v * v < u * u) by nra.
  assert (H3 : v * v * v < u * u * u) by nra.
  assert (H4 : v * v * v * v < u * u * u * u) by nra.
  assert (H5 : v * v * v * v * v < u * u * u * u * u) by nra.
  set (S6 := u * u * u * u * u + u * u * u * u * v + u * u * u * v * v
             + u * u * v * v * v + u * v * v * v * v + v * v * v * v * v).
  assert (HS : S6 < 6 * (u * u * u * u * u)).
  { unfold S6.
    pose proof (Rmult_lt_compat_l (u * u * u * u) _ _ Hu4 Hvu) as G1.
    pose proof (Rmult_lt_compat_l (u * u * u) _ _ Hu3 H2) as G2.
    pose proof (Rmult_lt_compat_l (u * u) _ _ Hu2 H3) as G3.
    pose proof (Rmult_lt_compat_l u _ _ Hu0 H4) as G4.
    lra. }
  assert (HS0 : 0 < S6).
  { unfold S6.
    assert (0 < v * v) by nra. assert (0 < v * v * v) by nra.
    assert (0 < v * v * v * v) by nra. assert (0 < v * v * v * v * v) by nra.
    assert (0 < u * u * u * u * v) by (apply Rmult_lt_0_compat; lra).
    assert (0 < u * u * u * v * v) by (repeat apply Rmult_lt_0_compat; lra).
    assert (0 < u * u * v * v * v) by (repeat apply Rmult_lt_0_compat; lra).
    assert (0 < u * v * v * v * v) by (repeat apply Rmult_lt_0_compat; lra).
    lra. }
  assert (Hfac : v * v * v * v * v * v * (1 - v) - u * u * u * u * u * u * (1 - u)
                 = (u - v) * (u * u * u * u * u * u - (1 - v) * S6)).
  { unfold S6. ring. }
  assert (Hpos : 0 < u * u * u * u * u * u - (1 - v) * S6).
  { assert ((1 - v) * S6 <= 1 / 7 * S6) by nra.
    assert (u * u * u * u * u * u = u * (u * u * u * u * u)) by ring.
    assert (6 / 7 * (u * u * u * u * u) < u * (u * u * u * u * u)) by nra.
    lra. }
  assert (0 < (u - v) * (u * u * u * u * u * u - (1 - v) * S6))
    by (apply Rmult_lt_0_compat; lra).
  lra.
Qed.

Lemma fluxShape_increasing :
  forall r1 r2, 6 < r1 -> r1 < r2 -> r2 <= 49 / 6 -> fluxShape r1 < fluxShape r2.
Proof.
  intros r1 r2 H1 H12 H2. unfold fluxShape.
  assert (Hq1 : 0 < 6 / r1) by (apply Rdiv_lt_0_compat; lra).
  assert (Hq2 : 0 < 6 / r2) by (apply Rdiv_lt_0_compat; lra).
  assert (Hlt : 6 / r2 < 6 / r1).
  { unfold Rdiv. apply Rmult_lt_compat_l; [lra |].
    apply Rinv_lt_contravar; nra. }
  assert (Hle : 36 / 49 <= 6 / r2).
  { apply Rmult_le_reg_r with r2; [lra |].
    replace (6 / r2 * r2) with 6 by (field; lra). lra. }
  set (u := sqrt (6 / r1)). set (v := sqrt (6 / r2)).
  assert (Hvu : v < u) by (apply sqrt_lt_1; lra).
  assert (Hv : 6 / 7 <= v).
  { replace (6 / 7) with (sqrt (6 / 7 * (6 / 7))) by (apply sqrt_square; lra).
    apply sqrt_le_1; lra. }
  assert (Huu : u * u = 6 / r1) by (apply sqrt_sqrt; lra).
  assert (Hvv : v * v = 6 / r2) by (apply sqrt_sqrt; lra).
  replace (1 / r1) with (u * u / 6) by (rewrite Huu; field; lra).
  replace (1 / r2) with (v * v / 6) by (rewrite Hvv; field; lra).
  pose proof (sextic_decreasing u v Hv Hvu) as Hs.
  lra.
Qed.

(** The default Schwarzschild profile: zero up to [6], positive beyond,
    rising up to [49/6] and falling from there on. *)
Lemma schwarzschild_profile :
  (forall r, r <= 6 -> AccretionDisk.temperature schwarzschildDisk r = 0)
  /\ (forall r, 6 < r -> 0 < AccretionDisk.temperature schwarzschildDisk r)
  /\ (forall r1 r2, 6 < r1 -> r1 < r2 -> r2 <= 49 / 6 ->
        AccretionDisk.temperature schwarzschildDisk r1
        < AccretionDisk.temperature schwarzschildDisk r2)
  /\ (forall r1 r2, 49 / 6 <= r1 -> r1 < r2 ->
        AccretionDisk.temperature schwarzschildDisk r2
        < AccretionDisk.temperature schwarzschildDisk r1).
Proof.
  split; [| split; [| split]].
  - intros r Hr. rewrite schwarzschildDisk_fields.
    pose proof (temperature_host (AccretionDisk.mk 1 0 15 1e7 6) r) as H.
    cbn [AccretionDisk.M AccretionDisk.innerRadius AccretionDisk.T0] in H.
    destruct (H ltac:(lra) ltac:(lra)) as [H1 _]. exact (H1 Hr).
  - intros r Hr. rewrite temperature_schwarzschild by exact Hr.
    pose proof (Rpower_pos (fluxShape r) 0.25). lra.
  - intros r1 r2 H1 H12 H2. rewrite !temperature_schwarzschild by lra.
    pose proof (fluxShape_bounds r1 H1) as Hb.
    pose proof (fluxShape_increasing r1 r2 H1 H12 H2) as Hd.
    assert (Rpower (fluxShape r1) 0.25 < Rpower (fluxShape r2) 0.25)
      by (apply Rlt_Rpower_l; lra).
    lra.
  - intros r1 r2 H1 H12. rewrite !temperature_schwarzschild by lra.
    pose proof (fluxShape_bounds r2 ltac:(lra)) as Hb.
    pose proof (fluxShape_decreasing r1 r2 H1 H12) as Hd.
    assert (Rpower (fluxShape r2) 0.25 < Rpower (fluxShape r1) 0.25)
      by (apply Rlt_Rpower_l; lra).
    lra.
Qed.

(** C6 (as amended).  Host [AccretionDisk.temperature], for positive mass
    and inner radius: zero for [r <= innerRadius] (the ISCO unless the
    caller overrides it); for unit mass, beyond the inner radius, the
    stated [T0 * (M/r^3)^0.25 * (1 - sqrt(innerRadius/r))^0.25] clamped to
    [T0].  Shader [diskTemperature]: zero for [r <= rISCO]; for unit mass
    the stated product beyond, with no ceiling.  Shader
    [diskTemperatureNT]: always within [[0, 50000]], zero for
    [r <= 1.001 * rISCO], and for unit mass and zero spin the stated
    product clamped to [[0, 50000]] beyond.  Schwarzschild default disk
    ([M = 1], [T0 = 1e7], inner radius 6): zero up to 6, strictly positive
    beyond, strictly increasing up to the peak at [49/6] and strictly
    decreasing from there on, so [T(20) < T(15) < T(10)].  How the value
    scales with a mass other than 1 is not part of the statement. *)
Theorem C6_disk_temperature_profile :
  (forall (this : AccretionDisk.t) (r : R),
      0 < AccretionDisk.M this -> 0 < AccretionDisk.innerRadius this ->
      (r <= AccretionDisk.innerRadius this -> AccretionDisk.temperature this r = 0)
      /\ (AccretionDisk.innerRadius this < r -> AccretionDisk.M this = 1 ->
          AccretionDisk.temperature this r
          = Rmin (claimedProfile (AccretionDisk.T0 this) (AccretionDisk.M this)
                                 (AccretionDisk.innerRadius this) r)
                 (AccretionDisk.T0 this)))
  /\ (forall r rISCO T0 M : R,
        0 < M -> 0 < rISCO ->
        (r <= rISCO -> GLSL.diskTemperature r rISCO T0 M = 0)
        /\ (rISCO < r -> M = 1 ->
            GLSL.diskTemperature r rISCO T0 M = claimedProfile T0 M rISCO r))
  /\ (forall r rISCO T0 M a : R,
        0 <= GLSL.diskTemperatureNT r rISCO T0 M a <= 50000
        /\ (r <= rISCO * 1.001 -> GLSL.diskTemperatureNT r rISCO T0 M a = 0)
        /\ (M = 1 -> 0 < rISCO -> a = 0 -> rISCO * 1.001 < r ->
            GLSL.diskTemperatureNT r rISCO T0 M a
            = Rmin (Rmax (claimedProfile T0 M rISCO r) 0) 50000))
  /\ (AccretionDisk.innerRadius schwarzschildDisk = 6
      /\ (forall r, r <= 6 -> AccretionDisk.temperature schwarzschildDisk r = 0)
      /\ (forall r, 6 < r -> 0 < AccretionDisk.temperature schwarzschildDisk r)
      /\ (forall r1 r2, 6 < r1 -> r1 < r2 -> r2 <= 49 / 6 ->
            AccretionDisk.temperature schwarzschildDisk r1
            < AccretionDisk.temperature schwarzschildDisk r2)
      /\ (forall r1 r2, 49 / 6 <= r1 -> r1 < r2 ->
            AccretionDisk.temperature schwarzschildDisk r2
            < AccretionDisk.temperature schwarzschildDisk r1)
      /\ AccretionDisk.temperature schwarzschildDisk 20
         < AccretionDisk.temperature schwarzschildDisk 15
      /\ AccretionDisk.temperature schwarzschildDisk 15
         < AccretionDisk.temperature schwarzschildDisk 10).
Proof.
  split; [| split; [| split]].
  - intros this r HM HI.
    destruct (temperature_host this r HM HI) as [H1 H2].
    split; [exact H1 |].
    intros Hr HM1. rewrite (H2 Hr), HM1.
    rewrite claimed_profile_unit_mass by lra. reflexivity.
  - intros r rISCO T0 M HM HI.
    destruct (diskTemperature_shader r rISCO T0 M HM HI) as [H1 H2].
    split; [exact H1 |].
    intros Hr HM1. rewrite (H2 Hr), HM1.
    apply claimed_profile_unit_mass. lra.
  - intros r rISCO T0 M a.
    destruct (diskTemperatureNT_shader r rISCO T0 M a) as (H1 & H2 & H3).
    split; [exact H1 | split; [exact H2 |]].
    intros HM1 HI Ha Hr. rewrite (H3 ltac:(lra) HI Ha Hr), HM1.
    rewrite claimed_profile_unit_mass by lra. reflexivity.
  - destruct schwarzschild_profile as (H0 & Hp & Hi & Hd).
    split; [rewrite schwarzschildDisk_fields; reflexivity |].
    split; [exact H0 |]. split; [exact Hp |]. split; [exact Hi |].
    split; [exact Hd |].
    split; apply Hd; lra.
Qed.

(** C6 at concrete radii of the Schwarzschild disk and of the shader. *)
Lemma C6_witness :
  AccretionDisk.temperature schwarzschildDisk 6 = 0
  /\ AccretionDisk.temperature schwarzschildDisk 10
     = Rmin (claimedProfile 1e7 1 6 10) 1e7
  /\ GLSL.diskTemperature (F := R) 5 6 1e7 1 = 0
  /\ GLSL.diskTemperature (F := R) 10 6 1e7 1 = claimedProfile 1e7 1 6 10
  /\ GLSL.diskTemperatureNT (F := R) 10 6 1e7 1 0
     = Rmin (Rmax (claimedProfile 1e7 1 6 10) 0) 50000
  /\ 0 < AccretionDisk.temperature schwarzschildDisk 7
  /\ AccretionDisk.temperature schwarzschildDisk 7
     < AccretionDisk.temperature schwarzschildDisk 8
  /\ AccretionDisk.temperature schwarzschildDisk 12
     < AccretionDisk.temperature schwarzschildDisk 9.
Proof.
  destruct C6_disk_temperature_profile as (Hh & Hs & Hn & Hi & H0 & Hp & Hu & Hd & _).
  pose proof (Hh schwarzschildDisk) as Hh'. rewrite schwarzschildDisk_fields in Hh'.
  cbn [AccretionDisk.M AccretionDisk.innerRadius AccretionDisk.T0] in Hh'.
  rewrite <- schwarzschildDisk_fields in Hh'.
  split; [apply H0; lra |].
  split. { destruct (Hh' 10 ltac:(lra) ltac:(lra)) as (_ & H). apply H; [lra | reflexivity]. }
  split. { destruct (Hs 5 6 1e7 1 ltac:(lra) ltac:(lra)) as [H _]. apply H; lra. }
  split. { destruct (Hs 10 6 1e7 1 ltac:(lra) ltac:(lra)) as [_ H]. apply H; [lra | reflexivity]. }
  split. { destruct (Hn 10 6 1e7 1 0) as (_ & _ & H). apply H; [reflexivity | lra | reflexivity | lra]. }
  split; [apply Hp; lra |].
  split; [apply Hu; lra | apply Hd; lra].
Defined.

(** C6, as stated, fails in the shader: [diskTemperature] applies no
    50000 ceiling, and at [r = 10], [rISCO = 6], [T0 = 1e7], [M = 1]
    returns more than 50000; [diskTemperatureNT] is zero on
    [(rISCO, 1.001 * rISCO]], where the stated formula is positive
    ([r = 6.003], [rISCO = 6]). *)
Lemma C6_counterexample_shader_ceiling_and_dead_band :
  (6 < 10
   /\ GLSL.diskTemperature (F := R) 10 6 1e7 1
      <> Rmin (claimedProfile 1e7 1 6 10) 50000)
  /\ (6 < 6.003
      /\ 0 < Rmin (claimedProfile 1e7 1 6 6.003) 50000
      /\ GLSL.diskTemperatureNT (F := R) 6.003 6 1e7 1 0 = 0).
Proof.
  split.
  - destruct shader_temperature_samples as (_ & H & _).
    split; [lra |]. intros E. rewrite E in H.
    pose proof (Rmin_r (claimedProfile 1e7 1 6 10) 50000). lra.
  - destruct shader_temperature_samples as (_ & _ & _ & H0 & Hp).
    split; [lra | split; assumption].
Qed.

End DiskTemperature.

(* ====================================================================== *)
(** * Part XI.  Step accounting of the two integration loops              *)
(* ====================================================================== *)

Section LoopAccounting.

Import GLSL.
Context {F : Type} {FO : GLFloat F}.
Local Open Scope glsl_scope.

(** The loop counter is the number of steps taken: entered with
    [Z.of_nat calls = i], the plain loop reports MaxStepsReached with
    exactly [maxSteps] steps when the budget test fires, or with
    [calls + n] when the hard bound does; it never steps past either. *)
Lemma integrateLoop_accounting :
  forall rayDir M a maxSteps escapeRadius stepSize rH rPh n i s calls,
    i = Z.of_nat calls ->
    let res := integrateLoop rayDir M a maxSteps escapeRadius stepSize rH rPh
                             n i s calls in
    (status res <> RAY_ESCAPED -> finalDir res = rayDir)
    /\ (Z.of_nat (rk4Calls res) <= Z.max i maxSteps)%Z
    /\ (status res = RAY_MAX_STEPS ->
        (maxSteps <= Z.of_nat (rk4Calls res))%Z
        \/ rk4Calls res = (calls + n)%nat).
Proof.
  intros rayDir M a maxSteps escapeRadius stepSize rH rPh n.
  induction n as [| n IH]; intros i s calls Hi; cbn.
  - split; [reflexivity | split; [lia | right; lia]].
  - destruct (Z.geb_spec i maxSteps) as [Hge | Hlt]; cbn.
    { split; [reflexivity | split; [lia | left; lia]]. }
    destruct (st_r s <? rH * lit 1.001); cbn.
    { split; [reflexivity | split; [lia | discriminate]]. }
    destruct (escapeRadius <? st_r s); cbn.
    { split; [intros H; contradiction H; reflexivity | split; [lia | discriminate]]. }
    destruct (invalidRadius _); cbn.
    { split; [reflexivity | split; [lia | discriminate]]. }
    specialize (IH (i + 1)%Z (rk4Step s M a (adaptiveStep (st_r s) rH rPh stepSize))
                   (S calls) ltac:(lia)).
    cbn in IH. destruct IH as (Hd & Hc & Hm).
    split; [exact Hd | split; [lia |]].
    intros Hs. destruct (Hm Hs) as [H | H]; [left; exact H | right; lia].
Qed.

(** The same accounting for the feature-sampling loop. *)
Lemma featureLoop_accounting :
  forall U sampleJet ergo diskEm rayDir M a maxSteps escapeRadius stepSize time
         rH rPh n i s acc calls,
    i = Z.of_nat calls ->
    let res := fst (featureLoop U sampleJet ergo diskEm rayDir M a maxSteps
                                escapeRadius stepSize time rH rPh n i s acc calls) in
    (status res <> RAY_ESCAPED -> finalDir res = rayDir)
    /\ (Z.of_nat (rk4Calls res) <= Z.max i maxSteps)%Z
    /\ (status res = RAY_MAX_STEPS ->
        (maxSteps <= Z.of_nat (rk4Calls res))%Z
        \/ rk4Calls res = (calls + n)%nat).
Proof.
  intros U sampleJet ergo diskEm rayDir M a maxSteps escapeRadius stepSize time
         rH rPh n.
  induction n as [| n IH]; intros i s acc calls Hi; cbn.
  - split; [reflexivity | split; [lia | right; lia]].
  - destruct (Z.geb_spec i maxSteps) as [Hge | Hlt]; cbn.
    { split; [reflexivity | split; [lia | left; lia]]. }
    destruct (st_r s <? rH * lit 1.001); cbn.
    { split; [reflexivity | split; [lia | discriminate]]. }
    destruct (escapeRadius <? st_r s); cbn.
    { split; [intros H; contradiction H; reflexivity | split; [lia | discriminate]]. }
    destruct (invalidRadius _); cbn.
    { split; [reflexivity | split; [lia | discriminate]]. }
    match goal with
    | |- context [featureLoop _ _ _ _ _ _ _ _ _ _ _ _ _ n ?i' ?s' ?acc' ?c'] =>
        specialize (IH i' s' acc' c' ltac:(lia))
    end.
    cbn in IH. destruct IH as (Hd & Hc & Hm).
    split; [exact Hd | split; [lia |]].
    intros Hs. destruct (Hm Hs) as [H | H]; [left; exact H | right; lia].
Qed.

(** X1. [integrateGeodesic] and [integrateGeodesicWithFeatures], for any
    float type: the number of RK4 steps taken is at most
    [min (max maxSteps 0) 1000]; it is exactly that number when the result
    is MaxStepsReached; and the returned direction is the incoming
    [rayDir] unless the ray escaped (only the Escaped exit writes
    [finalDir]). *)
Theorem X1_integrator_step_count_and_direction :
  forall (camPos rayDir : vec3 F) (M a : F) (maxSteps : Z)
         (escapeRadius stepSize : F),
    let budget := Z.min (Z.max maxSteps 0) 1000 in
    let res := integrateGeodesic camPos rayDir M a maxSteps escapeRadius stepSize in
    ((Z.of_nat (rk4Calls res) <= budget)%Z
     /\ (status res = RAY_MAX_STEPS -> Z.of_nat (rk4Calls res) = budget)
     /\ (status res <> RAY_ESCAPED -> finalDir res = rayDir))
    /\
    forall U sampleJet ergo diskEm time,
      let res' := fst (integrateGeodesicWithFeatures U sampleJet ergo diskEm
                         camPos rayDir M a maxSteps escapeRadius stepSize time) in
      (Z.of_nat (rk4Calls res') <= budget)%Z
      /\ (status res' = RAY_MAX_STEPS -> Z.of_nat (rk4Calls res') = budget)
      /\ (status res' <> RAY_ESCAPED -> finalDir res' = rayDir).
Proof.
  intros camPos rayDir M a maxSteps escapeRadius stepSize budget res. split.
  - subst res. unfold integrateGeodesic.
    pose proof (integrateLoop_accounting rayDir M a maxSteps escapeRadius stepSize
                  (eventHorizonRadius M a) (photonSphereRadius M a) 1000 0%Z
                  (initializeGeodesic camPos rayDir M a) 0%nat eq_refl) as H.
    pose proof (integrateLoop_bounded rayDir M a maxSteps escapeRadius stepSize
                  (eventHorizonRadius M a) (photonSphereRadius M a) 1000 0%Z
                  (initializeGeodesic camPos rayDir M a) 0%nat) as B.
    cbv zeta in H, B. destruct H as (Hd & Hc & Hm). destruct B as [_ Hb].
    subst budget. split; [lia | split; [| exact Hd]].
    intros Hs. destruct (Hm Hs); lia.
  - intros U sampleJet ergo diskEm time res'. subst res'.
    unfold integrateGeodesicWithFeatures.
    match goal with
    | |- context [featureLoop _ _ _ _ _ _ _ _ _ _ _ ?rH ?rPh 1000 0%Z ?s ?acc 0] =>
        pose proof (featureLoop_accounting U sampleJet ergo diskEm rayDir M a maxSteps
                    escapeRadius stepSize time rH rPh 1000 0%Z s acc 0%nat eq_refl) as H;
        pose proof (featureLoop_bounded U sampleJet ergo diskEm rayDir M a maxSteps
                    escapeRadius stepSize time rH rPh 1000 0%Z s acc 0%nat) as B
    end.
    cbv zeta in H, B. destruct H as (Hd & Hc & Hm). destruct B as [_ Hb].
    subst budget. split; [lia | split; [| exact Hd]].
    intros Hs. destruct (Hm Hs); lia.
Qed.

(** With the disk and the jets switched off the step size of the feature
    loop is the plain one, and the samplers never touch the geodesic
    state: the two loops return the same result. *)
Lemma featureLoop_plain :
  forall U sampleJet ergo diskEm rayDir M a maxSteps escapeRadius stepSize time
         rH rPh n,
    u_showDisk U = false -> u_showJets U = false ->
    forall i s acc calls,
    fst (featureLoop U sampleJet ergo diskEm rayDir M a maxSteps
                     escapeRadius stepSize time rH rPh n i s acc calls)
    = integrateLoop rayDir M a maxSteps escapeRadius stepSize rH rPh n i s calls.
Proof.
  intros U sampleJet ergo diskEm rayDir M a maxSteps escapeRadius stepSize time
         rH rPh n HD HJ.
  induction n as [| n IH]; intros i s acc calls; cbn; [reflexivity |].
  destruct (i >=? maxSteps)%Z; cbn; [reflexivity |].
  destruct (st_r s <? rH * lit 1.001); cbn; [reflexivity |].
  destruct (escapeRadius <? st_r s); cbn; [reflexivity |].
  assert (Hh : adaptiveStepFeatures U M a rH rPh stepSize s
               = adaptiveStep (st_r s) rH rPh stepSize).
  { unfold adaptiveStepFeatures. rewrite HD, HJ. reflexivity. }
  rewrite Hh.
  destruct (invalidRadius _); cbn; [reflexivity |].
  apply IH.
Qed.

(** X2. With [u_showDisk] and [u_showJets] both off, the feature-sampling
    integrator uses the step sizes of the plain one and the samplers never
    touch the geodesic state: [integrateGeodesicWithFeatures] returns the
    status, direction and step count of [integrateGeodesic], for any float
    type and any samplers. *)
Theorem X2_features_off_same_ray :
  forall (U : Uniforms F) sampleJet ergo diskEm
         (camPos rayDir : vec3 F) (M a : F) (maxSteps : Z)
         (escapeRadius stepSize time : F),
    u_showDisk U = false -> u_showJets U = false ->
    fst (integrateGeodesicWithFeatures U sampleJet ergo diskEm
           camPos rayDir M a maxSteps escapeRadius stepSize time)
    = integrateGeodesic camPos rayDir M a maxSteps escapeRadius stepSize.
Proof.
  intros U sampleJet ergo diskEm camPos rayDir M a maxSteps escapeRadius stepSize
         time HD HJ.
  unfold integrateGeodesicWithFeatures, integrateGeodesic.
  apply featureLoop_plain; assumption.
Qed.

End LoopAccounting.

Section LoopAccountingOverR.

Local Open Scope R_scope.

(** Witness for X1: the theorem at concrete parameters. *)
Lemma X1_witness :
  let rayDir := GLSL.mkVec3 (-1) 0 0 in
  let res := GLSL.integrateGeodesic (F := R) (GLSL.mkVec3 10 0 0) rayDir
               1 0 0 50 0.3 in
  GLSL.status res = GLSL.RAY_MAX_STEPS
  /\ GLSL.rk4Calls res = 0%nat
  /\ GLSL.finalDir res = rayDir.
Proof.
  intros rayDir res.
  assert (Hs : GLSL.status res = GLSL.RAY_MAX_STEPS) by reflexivity.
  destruct (X1_integrator_step_count_and_direction
              (GLSL.mkVec3 10 0 0) rayDir 1 0 0%Z 50 0.3) as [(_ & Hm & Hd) _].
  split; [exact Hs | split].
  - apply Nat2Z.inj. exact (Hm Hs).
  - apply Hd. fold res. rewrite Hs. discriminate.
Defined.

(** Witness for X2: the theorem at concrete parameters. *)
Lemma X2_witness :
  fst (GLSL.integrateGeodesicWithFeatures featuresOff darkSampler darkSampler
         darkDisk (GLSL.mkVec3 10 0 0) (GLSL.mkVec3 (-1) 0 0) 1 0 800 50 0.3 0)
  = GLSL.integrateGeodesic (F := R) (GLSL.mkVec3 10 0 0) (GLSL.mkVec3 (-1) 0 0)
      1 0 800 50 0.3.
Proof. apply X2_features_off_same_ray; reflexivity. Defined.

End LoopAccountingOverR.

(* ====================================================================== *)
(** * Part XII.  The integrator over the real numbers                     *)
(* ====================================================================== *)

Section RealLoop.

Import GLSL.
Local Open Scope R_scope.

Ltac rlit := cbn [lit RFloat]; unfold Q2R; cbn.

(** What the orbit tracking at the head of an iteration changes:
    [minRadius] is lowered to the current radius, [totalPhiChange] grows
    by an absolute value, the layers are untouched. *)
Lemma trackOrbit_fields :
  forall (s : GeodesicState R) (acc : Accumulators R),
    let acc' := trackOrbit s acc in
    minRadius acc' = Rmin (minRadius acc) (st_r s)
    /\ totalPhiChange acc <= totalPhiChange acc'
    /\ diskAlpha acc' = diskAlpha acc
    /\ jetColor acc' = jetColor acc.
Proof.
  intros s acc. unfold trackOrbit. cbn [minRadius totalPhiChange diskAlpha jetColor].
  rewrite min_R. split; [reflexivity |]. cbn [fadd fabs RFloat].
  split; [| split; reflexivity].
  match goal with |- _ <= _ + Rabs ?d => pose proof (Rabs_pos d) end. lra.
Qed.

(** The samplers leave the orbit-tracking fields alone. *)
Lemma sampleFeatures_tracking :
  forall U sj ev de rayDir (M a time : R) s acc,
    let acc' := sampleFeatures U sj ev de rayDir M a time s acc in
    minRadius acc' = minRadius acc /\ totalPhiChange acc' = totalPhiChange acc.
Proof.
  intros. unfold acc', sampleFeatures. cbv zeta.
  match goal with |- context [if ?c then _ else (diskColor acc, diskAlpha acc)] =>
    destruct c end; cbn [minRadius totalPhiChange]; split; reflexivity.
Qed.

(** The opacity update of the disk sampler: from [0 <= alpha < 1] the new
    value is at least the old one and still below 1. *)
Lemma sampleFeatures_alpha :
  forall U sj ev de rayDir (M a time : R) s acc,
    0 <= diskAlpha acc < 1 ->
    let acc' := sampleFeatures U sj ev de rayDir M a time s acc in
    diskAlpha acc <= diskAlpha acc' < 1.
Proof.
  intros U sj ev de rayDir M a time s acc [H0 H1] acc'.
  unfold acc', sampleFeatures. cbv zeta.
  match goal with |- context [if ?c then _ else (diskColor acc, diskAlpha acc)] =>
    destruct c end; cbn [diskAlpha]; [| lra].
  cbn [fadd fsub fmul fdiv fneg fabs fexp flt RFloat].
  rewrite min_R. rewrite lit_1.
  replace (lit (F := R) 0.95) with 0.95 by (rlit; lra).
  replace (lit (F := R) 0.8) with 0.8 by (rlit; lra).
  replace (lit (F := R) 10) with 10 by (rlit; lra).
  replace (lit (F := R) 4) with 4 by (rlit; lra).
  set (d := Rabs (st_theta s - HALF_PI)).
  assert (Hd : 0 <= d) by apply Rabs_pos.
  set (p := if RealMath.Rltb d (u_diskThickness U * 4) then d / u_diskThickness U else 1).
  assert (Hp : 0 <= p).
  { unfold p, RealMath.Rltb. destruct (Rlt_dec d (u_diskThickness U * 4)) as [H | H]; [| lra].
    apply Rmult_le_pos; [exact Hd |]. left. apply Rinv_0_lt_compat. lra. }
  assert (He : 0 <= 1 - exp (- p * 10) < 1).
  { pose proof (exp_pos (- p * 10)).
    assert (exp (- p * 10) <= 1).
    { rewrite <- exp_0. destruct (Req_dec p 0) as [-> | Hn].
      - replace (- 0 * 10) with 0 by ring. lra.
      - left. apply exp_increasing. lra. }
    lra. }
  set (od := 1 - exp (- p * 10)) in *.
  assert (Hm : 0 <= Rmin (od * (1 - diskAlpha acc)) 0.95 <= od * (1 - diskAlpha acc)).
  { split; [apply Rmin_glb; [nra | lra] | apply Rmin_l]. }
  nra.
Qed.

(** Entered with an opacity in [[0, 1)], the loop only lowers
    [minRadius], only raises [totalPhiChange], and keeps the opacity in
    [[0, 1)]. *)
Lemma featureLoop_invariants :
  forall U sj ev de rayDir (M a : R) maxSteps (escapeRadius stepSize time rH rPh : R) n
         i s acc calls,
    0 <= diskAlpha acc < 1 ->
    let acc' := snd (featureLoop U sj ev de rayDir M a maxSteps escapeRadius
                                 stepSize time rH rPh n i s acc calls) in
    minRadius acc' <= minRadius acc
    /\ totalPhiChange acc <= totalPhiChange acc'
    /\ diskAlpha acc <= diskAlpha acc' < 1.
Proof.
  intros U sj ev de rayDir M a maxSteps escapeRadius stepSize time rH rPh n.
  induction n as [| n IH]; intros i s acc calls Ha.
  - cbn. lra.
  - intros acc'. subst acc'. rewrite featureLoop_S. cbv zeta.
    destruct (i >=? maxSteps)%Z; cbn [snd]; [lra |].
    pose proof (trackOrbit_fields s acc) as T. cbv zeta in T.
    destruct T as (Tm & Tp & Ta & _).
    pose proof (Rmin_l (minRadius acc) (st_r s)) as Hl.
    destruct (flt (st_r s) (rH * lit 1.001)%glsl); cbn [snd]; [rewrite Tm, Ta; lra |].
    destruct (flt escapeRadius (st_r s)); cbn [snd]; [rewrite Tm, Ta; lra |].
    pose proof (sampleFeatures_tracking U sj ev de rayDir M a time s (trackOrbit s acc)) as S1.
    pose proof (sampleFeatures_alpha U sj ev de rayDir M a time s (trackOrbit s acc)
                  ltac:(rewrite Ta; exact Ha)) as S2.
    cbv zeta in S1, S2. destruct S1 as [Sm Sp]. rewrite Ta in S2.
    destruct (invalidRadius _); cbn [snd]; [rewrite Sm, Sp, Tm; lra |].
    match goal with
    | |- context [featureLoop _ _ _ _ _ _ _ _ _ _ _ _ _ n ?i' ?s' ?acc' ?c'] =>
        specialize (IH i' s' acc' c' ltac:(lra))
    end.
    cbv zeta in IH. rewrite Sm, Sp, Tm in IH. lra.
Qed.

(** One sampling step leaves a layer unchanged when its switch is off,
    and the jet layer also when the jet sampler returns black
    everywhere. *)
Lemma sampleFeatures_layers :
  forall U sj ev de rayDir (M a time : R) s acc,
    let acc' := sampleFeatures U sj ev de rayDir M a time s acc in
    ((u_showJets U = false
      \/ (forall pos, sj pos rayDir M a time = vzero)) ->
     jetColor acc' = jetColor acc)
    /\ (u_showErgosphere U = false -> ergoColor acc' = ergoColor acc)
    /\ (u_showDisk U = false ->
        diskColor acc' = diskColor acc /\ diskAlpha acc' = diskAlpha acc).
Proof.
  intros U sj ev de rayDir M a time s acc acc'.
  unfold acc', sampleFeatures. cbv zeta. split; [| split].
  - intros HJ.
    match goal with |- context [if ?c then _ else (diskColor acc, diskAlpha acc)] =>
      destruct c end; cbn [jetColor].
    all: destruct HJ as [-> | HJ]; [reflexivity |].
    all: destruct (u_showJets U); [| reflexivity].
    all: rewrite HJ; unfold vadd, vmul, vzero; cbn [vx vy vz fadd fmul fsub RFloat].
    all: rewrite lit_0; destruct (jetColor acc) as [jx jy jz]; cbn [vx vy vz].
    all: f_equal; ring.
  - intros ->.
    match goal with |- context [if ?c then _ else (diskColor acc, diskAlpha acc)] =>
      destruct c end; reflexivity.
  - intros ->. cbn [andb]. split; reflexivity.
Qed.

(** Orbit tracking does not touch the colour layers. *)
Lemma trackOrbit_layers :
  forall (s : GeodesicState R) (acc : Accumulators R),
    let acc' := trackOrbit s acc in
    jetColor acc' = jetColor acc /\ ergoColor acc' = ergoColor acc
    /\ diskColor acc' = diskColor acc /\ diskAlpha acc' = diskAlpha acc.
Proof. intros. unfold acc', trackOrbit. cbn. repeat split. Qed.

(** The whole loop leaves a switched-off layer as it was on entry. *)
Lemma featureLoop_layers :
  forall U sj ev de rayDir (M a : R) maxSteps (escapeRadius stepSize time rH rPh : R) n
         i s acc calls,
    let acc' := snd (featureLoop U sj ev de rayDir M a maxSteps escapeRadius
                                 stepSize time rH rPh n i s acc calls) in
    ((u_showJets U = false
      \/ (forall pos, sj pos rayDir M a time = vzero)) ->
     jetColor acc' = jetColor acc)
    /\ (u_showErgosphere U = false -> ergoColor acc' = ergoColor acc)
    /\ (u_showDisk U = false ->
        diskColor acc' = diskColor acc /\ diskAlpha acc' = diskAlpha acc).
Proof.
  intros U sj ev de rayDir M a maxSteps escapeRadius stepSize time rH rPh n.
  induction n as [| n IH]; intros i s acc calls.
  - cbn. repeat split.
  - intros acc'. subst acc'. rewrite featureLoop_S. cbv zeta.
    destruct (i >=? maxSteps)%Z; cbn [snd]; [repeat split |].
    pose proof (trackOrbit_layers s acc) as T. cbv zeta in T.
    destruct T as (Tj & Te & Tc & Ta).
    destruct (flt (st_r s) (rH * lit 1.001)%glsl); cbn [snd];
      [rewrite Tj, Te, Tc, Ta; repeat split |].
    destruct (flt escapeRadius (st_r s)); cbn [snd];
      [rewrite Tj, Te, Tc, Ta; repeat split |].
    pose proof (sampleFeatures_layers U sj ev de rayDir M a time s (trackOrbit s acc)) as S1.
    cbv zeta in S1. rewrite Tj, Te, Tc, Ta in S1. destruct S1 as (Sj & Se & Sd).
    destruct (invalidRadius _); cbn [snd]; [split; [exact Sj | split; [exact Se | exact Sd]] |].
    match goal with
    | |- context [featureLoop _ _ _ _ _ _ _ _ _ _ _ _ _ n ?i' ?s' ?acc' ?c'] =>
        specialize (IH i' s' acc' c')
    end.
    cbv zeta in IH. destruct IH as (Ij & Ie & Id).
    split; [| split].
    + intros H. rewrite (Ij H). exact (Sj H).
    + intros H. rewrite (Ie H). exact (Se H).
    + intros H. destruct (Id H) as [-> ->]. exact (Sd H).
Qed.

(** [sampleJet] returns black below the spin threshold [0.1 M]. *)
Lemma sampleJet_slow_spin :
  forall (pos rayDir : vec3 R) (M a time : R),
    Rabs a < 0.1 * M -> sampleJet pos rayDir M a time = vzero.
Proof.
  intros pos rayDir M a time H. unfold sampleJet.
  cbn [fabs flt fmul RFloat].
  replace (lit (F := R) 0.1) with 0.1 by (rlit; lra).
  rewrite Rltb_true by exact H. reflexivity.
Qed.

(** X3. What the feature loop accumulates, over the reals and for any
    uniforms and samplers: [minRadius] never exceeds the initial radius,
    [totalPhiChange] is a sum of absolute values and so non-negative, and
    the disk opacity stays in [[0, 1)]. *)
Theorem X3_feature_accumulators_invariants :
  forall (U : Uniforms R) sj ev de (camPos rayDir : vec3 R) (M a : R)
         (maxSteps : Z) (escapeRadius stepSize time : R),
    let s0 := initializeGeodesic camPos rayDir M a in
    let acc := snd (integrateGeodesicWithFeatures U sj ev de camPos rayDir M a
                      maxSteps escapeRadius stepSize time) in
    minRadius acc <= st_r s0
    /\ 0 <= totalPhiChange acc
    /\ 0 <= diskAlpha acc < 1.
Proof.
  intros U sj ev de camPos rayDir M a maxSteps escapeRadius stepSize time s0 acc.
  subst acc. unfold integrateGeodesicWithFeatures. fold s0.
  match goal with
  | |- context [featureLoop _ _ _ _ _ _ _ _ _ _ _ ?rH ?rPh 1000 0%Z ?s ?acc 0] =>
      pose proof (featureLoop_invariants U sj ev de rayDir M a maxSteps escapeRadius
                    stepSize time rH rPh 1000 0%Z s acc 0%nat) as H
  end.
  cbn [diskAlpha minRadius totalPhiChange] in H.
  pose proof lit_0 as L. set (z := lit (F := R) 0) in *.
  specialize (H ltac:(lra)). cbv zeta in H. lra.
Qed.

(** X4. A layer that is switched off contributes nothing, with the
    samplers of the shader ([sampleJet], [ergosphereVisualization],
    [diskEmission]): the jet colour is black when [u_showJets] is off or
    [|a| < 0.1 M]; the ergosphere colour is black when [u_showErgosphere]
    is off; the disk colour is black and its opacity 0 when [u_showDisk] is
    off. *)
Theorem X4_inactive_layers_stay_black :
  forall (U : Uniforms R) (camPos rayDir : vec3 R) (M a : R)
         (maxSteps : Z) (escapeRadius stepSize time : R),
    let acc := snd (integrateGeodesicWithFeatures U sampleJet
                      ergosphereVisualization diskEmission camPos rayDir M a
                      maxSteps escapeRadius stepSize time) in
    (u_showJets U = false \/ Rabs a < 0.1 * M -> jetColor acc = vzero)
    /\ (u_showErgosphere U = false -> ergoColor acc = vzero)
    /\ (u_showDisk U = false -> diskColor acc = vzero /\ diskAlpha acc = 0).
Proof.
  intros U camPos rayDir M a maxSteps escapeRadius stepSize time acc.
  subst acc. unfold integrateGeodesicWithFeatures.
  match goal with
  | |- context [featureLoop _ _ _ _ _ _ _ _ _ _ _ ?rH ?rPh 1000 0%Z ?s ?acc 0] =>
      pose proof (featureLoop_layers U sampleJet ergosphereVisualization diskEmission
                    rayDir M a maxSteps escapeRadius
                    stepSize time rH rPh 1000 0%Z s acc 0%nat) as H
  end.
  cbv zeta in H. cbn [jetColor ergoColor diskColor diskAlpha] in H.
  destruct H as (Hj & He & Hd). split; [| split].
  - intros [HJ | HJ]; apply Hj; [left; exact HJ | right].
    intros pos. apply sampleJet_slow_spin. exact HJ.
  - exact He.
  - intros H. destruct (Hd H) as [H1 H2]. split; [exact H1 |].
    rewrite H2. apply lit_0.
Qed.

(** Witness for X4: the theorem at concrete parameters. *)
Lemma X4_witness :
  let jetsOnly := mkUniforms R false true false 0 0 0 0 in
  let acc := snd (integrateGeodesicWithFeatures jetsOnly sampleJet
                    ergosphereVisualization diskEmission
                    (mkVec3 10 0 0) (mkVec3 (-1) 0 0) 1 0 800 50 0.3 0) in
  jetColor acc = vzero /\ ergoColor acc = vzero
  /\ diskColor acc = vzero /\ diskAlpha acc = 0.
Proof.
  intros jetsOnly acc.
  destruct (X4_inactive_layers_stay_black jetsOnly (mkVec3 10 0 0) (mkVec3 (-1) 0 0)
              1 0 800 50 0.3 0) as (HJ & HE & HD).
  split; [| split].
  - apply HJ. right. rewrite Rabs_R0. lra.
  - apply HE. reflexivity.
  - apply HD. reflexivity.
Defined.

End RealLoop.

Section RealIntegrator.

Import GLSL.
Local Open Scope R_scope.

Ltac rlit := cbn [lit RFloat]; unfold Q2R; cbn.

(** The clamp keeps the horizon factor in [[0.01, 1]] and the photon-
    sphere refinement halves the step at most once. *)
Lemma adaptiveStep_bounds :
  forall r rH rPh stepSize : R, 0 <= stepSize ->
    0.005 * stepSize <= adaptiveStep r rH rPh stepSize <= stepSize.
Proof.
  intros r rH rPh stepSize Hs. unfold adaptiveStep.
  cbn [fabs flt fmul fsub fdiv RFloat].
  pose proof (clamp_R_range ((r - rH) / rPh) (lit 0.01) (lit 1)) as Hc.
  replace (lit (F := R) 0.01) with 0.01 in * by (rlit; lra).
  replace (lit (F := R) 0.5) with 0.5 by (rlit; lra).
  rewrite lit_1 in *. specialize (Hc ltac:(lra)).
  set (c := clamp ((r - rH) / rPh) 0.01 1) in *. clearbody c.
  destruct (RealMath.Rltb (Rabs (r - rPh)) (rPh * 0.5)); nra.
Qed.

(** The disk refinement multiplies by a factor in [[0.2, 1]] and the jet
    refinement by 0.7 at most once. *)
Lemma adaptiveStepFeatures_bounds :
  forall (U : Uniforms R) (M a rH rPh stepSize : R) (s : GeodesicState R),
    0 <= stepSize ->
    0.0007 * stepSize <= adaptiveStepFeatures U M a rH rPh stepSize s <= stepSize.
Proof.
  intros U M a rH rPh stepSize s Hs. unfold adaptiveStepFeatures. cbv zeta.
  pose proof (adaptiveStep_bounds (st_r s) rH rPh stepSize Hs) as Hh.
  set (h := adaptiveStep (st_r s) rH rPh stepSize) in *. clearbody h.
  cbn [fabs flt fle fmul fsub fdiv fadd RFloat].
  replace (lit (F := R) 0.7) with 0.7 by (rlit; lra).
  replace (lit (F := R) 0.2) with 0.2 by (rlit; lra).
  replace (lit (F := R) 5) with 5 by (rlit; lra).
  set (dp := Rabs (st_theta s - HALF_PI) / u_diskThickness U). clearbody dp.
  assert (Hd : 0.001 * stepSize
               <= (if u_showDisk U && RealMath.Rleb (u_diskInnerRadius U * lit 0.9) (st_r s)
                      && RealMath.Rleb (st_r s) (u_diskOuterRadius U * lit 1.1)
                   then if RealMath.Rltb dp 5 then h * max 0.2 (dp / 5) else h
                   else h) <= stepSize).
  { destruct (u_showDisk U && _ && _); [| lra].
    unfold RealMath.Rltb. destruct (Rlt_dec dp 5) as [H5 | H5]; [| lra].
    rewrite max_R.
    assert (0.2 <= Rmax 0.2 (dp / 5) <= 1).
    { split; [apply Rmax_l | apply Rmax_lub; lra]. }
    nra. }
  match type of Hd with _ <= ?x <= _ => set (h2 := x) in *; clearbody h2 end.
  destruct (u_showJets U && _); [| lra].
  destruct (RealMath.Rltb _ _); lra.
Qed.

(** X5. For a non-negative [stepSize], the adaptive step of
    [integrateGeodesic] lies in [[0.005 * stepSize, stepSize]], and that of
    [integrateGeodesicWithFeatures], which is reduced further near the disk
    plane and inside the jets, in [[0.0007 * stepSize, stepSize]]: the
    loops never take a step larger than the configured one, and never a
    zero step when [stepSize > 0]. *)
Theorem X5_adaptive_step_stays_within_the_base_step :
  forall (U : Uniforms R) (M a r rH rPh stepSize : R) (s : GeodesicState R),
    0 <= stepSize ->
    0.005 * stepSize <= adaptiveStep r rH rPh stepSize <= stepSize
    /\ 0.0007 * stepSize
       <= adaptiveStepFeatures U M a rH rPh stepSize s <= stepSize.
Proof.
  intros U M a r rH rPh stepSize s H. split.
  - apply adaptiveStep_bounds; exact H.
  - apply adaptiveStepFeatures_bounds; exact H.
Qed.

(** Witness for X5: the theorem at concrete parameters. *)
Lemma X5_witness :
  let s := mkState 2.1 (Rtrigo1.PI / 2) 0 (-1) 0 1 0 0 in
  0.005 * 0.3 <= adaptiveStep 2.1 2 3 0.3 <= 0.3
  /\ 0.0007 * 0.3
     <= adaptiveStepFeatures (mkUniforms R true true true 6 15 1 0.1)
          1 0 2 3 0.3 s <= 0.3.
Proof.
  intros s.
  apply (X5_adaptive_step_stays_within_the_base_step
           (mkUniforms R true true true 6 15 1 0.1) 1 0 2.1 2 3 0.3 s).
  lra.
Defined.

(** The Carter constant that [computeConservedQuantities] returns puts the
    polar potential at the square of [Sigma * dtheta/dlambda]. *)
Lemma carter_round_trip :
  forall r theta dr dtheta dphi M a : R,
    sin theta * sin theta <> 1e-6 ->
    let '(E, Lz, Q) := computeConservedQuantities r theta dr dtheta dphi M a in
    E = 1
    /\ Theta_potential theta E Lz Q a
       = (sigma r theta a * dtheta) * (sigma r theta a * dtheta).
Proof.
  intros r theta dr dtheta dphi M a Hs.
  unfold computeConservedQuantities. cbv zeta.
  split; [apply lit_1 |].
  unfold Theta_potential, sigma. cbv zeta.
  cbn [fabs flt fle fmul fsub fdiv fadd fsin fcos RFloat].
  rewrite EPSILON_R, lit_1.
  set (s2 := sin theta * sin theta) in *. set (c2 := cos theta * cos theta).
  match goal with |- context [if RealMath.Rltb 1e-6 (Rabs ?c) then ?x else ?y] =>
    set (Lz := if RealMath.Rltb 1e-6 (Rabs c) then x else y) end.
  unfold RealMath.Rltb.
  destruct (Rlt_dec 1e-6 s2) as [H1 | H1]; destruct (Rlt_dec s2 1e-6) as [H2 | H2];
    try (exfalso; lra).
  - subst c2. clearbody Lz s2. field. lra.
  - subst c2. clearbody Lz s2. ring.
Qed.

(** The sine of an angle clamped to [[0.01, PI - 0.01]] (shader constant
    [PI]) is above 0.009. *)
Lemma sin_bounded_below_initial :
  forall th, 0.01 <= th <= 3.14159265359 - 0.01 -> 0.009 < sin th.
Proof.
  intros th [Hlo Hhi].
  pose proof PI_lower_bound as Hpi. pose proof PI_4 as Hpi4.
  assert (Hsmall : forall x, 0.0099 <= x <= Rtrigo1.PI / 2 -> 0.009 < sin x).
  { intros x [Hx1 Hx2].
    apply Rlt_le_trans with (sin 0.0099).
    - pose proof (sin_lower_small 0.0099 ltac:(lra)). lra.
    - apply sin_incr_1; lra. }
  destruct (Rle_dec th (Rtrigo1.PI / 2)) as [Hc | Hc].
  - apply Hsmall; lra.
  - rewrite <- sin_PI_x. apply Hsmall; lra.
Qed.

(** [sign d] squares to 1 for [d <> 0]. *)
Lemma sign_sqr : forall d x : R, d <> 0 -> (sign d * x) * (sign d * x) = x * x.
Proof.
  intros d x Hd. unfold sign. cbn [flt RFloat]. rewrite lit_0, lit_1, lit_m1.
  unfold RealMath.Rltb.
  destruct (Rlt_dec 0 d); [ring |]. destruct (Rlt_dec d 0); [ring | exfalso; lra].
Qed.

(** The fields of the initial state in terms of the direction components
    [dr], [dtheta], [dphi] that [initializeGeodesic] computes. *)
Lemma initializeGeodesic_shape :
  forall (camPos rayDir : vec3 R) (M a : R),
    let s := initializeGeodesic camPos rayDir M a in
    exists dr dtheta dphi,
      computeConservedQuantities (st_r s) (st_theta s) dr dtheta dphi M a
      = (st_E s, st_Lz s, st_Q s)
      /\ st_pr s
         = sign dr
           * safeSqrt (max (R_potential (st_r s) (st_E s) (st_Lz s) (st_Q s) M a) 0)
           / sigma (st_r s) (st_theta s) a
      /\ st_ptheta s
         = sign dtheta
           * safeSqrt (max (Theta_potential (st_theta s) (st_E s) (st_Lz s) (st_Q s) a) 0)
           / sigma (st_r s) (st_theta s) a.
Proof.
  intros camPos rayDir M a s. subst s. unfold initializeGeodesic. cbv zeta.
  match goal with
  | |- context [computeConservedQuantities ?r ?th ?dr ?dth ?dph M a] =>
      exists dr, dth, dph;
      destruct (computeConservedQuantities r th dr dth dph M a) as [[E Lz] Q] eqn:HC
  end.
  cbn [st_r st_theta st_E st_Lz st_Q st_pr st_ptheta].
  rewrite HC. rewrite lit_0. cbn [fmul fdiv RFloat]. repeat split.
Qed.

(** [sign] is 0 at 0 and of unit square elsewhere. *)
Lemma sign_zero_or_unit :
  forall d : R, (d = 0 /\ sign d = 0) \/ (d <> 0 /\ sign d * sign d = 1).
Proof.
  intros d. unfold sign. cbn [flt RFloat]. rewrite lit_0, lit_1, lit_m1.
  unfold RealMath.Rltb.
  destruct (Rlt_dec 0 d); [right; split; lra |].
  destruct (Rlt_dec d 0); [right; split; lra | left; split; lra].
Qed.

(** X6. The state [initializeGeodesic] builds has [E = 1], and its
    Carter constant makes the polar potential non-negative; where
    [Sigma <> 0] the momenta sit on the constraint surface:
    [(Sigma * ptheta)^2 = Theta_potential], and [(Sigma * pr)^2] is
    [max R_potential 0] unless the ray has no radial component
    ([pr = 0]). *)
Theorem X6_initial_state_on_constraint_surface :
  forall (camPos rayDir : vec3 R) (M a : R),
    let s := initializeGeodesic camPos rayDir M a in
    let Sigma := sigma (st_r s) (st_theta s) a in
    let Th := Theta_potential (st_theta s) (st_E s) (st_Lz s) (st_Q s) a in
    let Rr := R_potential (st_r s) (st_E s) (st_Lz s) (st_Q s) M a in
    st_E s = 1
    /\ 0 <= Th
    /\ (Sigma <> 0 ->
        (Sigma * st_ptheta s) * (Sigma * st_ptheta s) = Th
        /\ ((Sigma * st_pr s) * (Sigma * st_pr s) = Rmax Rr 0 \/ st_pr s = 0)).
Proof.
  intros camPos rayDir M a s Sigma Th Rr.
  destruct (initializeGeodesic_shape camPos rayDir M a) as (dr & dth & dph & HC & Hpr & Hpt).
  fold s in HC, Hpr, Hpt. fold Sigma in Hpr, Hpt. fold Th in Hpt. fold Rr in Hpr.
  assert (Hth : 0.01 <= st_theta s <= 3.14159265359 - 0.01).
  { destruct (initializeGeodesic_theta_is_clamp camPos rayDir M a) as [t Ht].
    fold s in Ht. rewrite Ht.
    pose proof (clamp_R_range t (lit 0.01) (PI - lit 0.01)) as Hc.
    rewrite PI_R in *. cbn [fsub RFloat] in *.
    replace (lit (F := R) 0.01) with 0.01 in * by (rlit; lra).
    apply Hc. lra. }
  pose proof (sin_bounded_below_initial _ Hth) as Hsin.
  assert (Hs2 : sin (st_theta s) * sin (st_theta s) <> 1e-6) by nra.
  pose proof (carter_round_trip (st_r s) (st_theta s) dr dth dph M a Hs2) as HK.
  rewrite HC in HK. destruct HK as [HE HT]. fold Th Sigma in HT.
  assert (HTh : 0 <= Th) by (rewrite HT; nra).
  split; [exact HE | split; [exact HTh |]].
  intros HS. split.
  - rewrite Hpt, max_R, Rmax_left by exact HTh.
    rewrite safeSqrt_R by exact HTh.
    replace (Sigma * (sign dth * sqrt Th / Sigma)) with (sign dth * sqrt Th)
      by (field; exact HS).
    destruct (sign_zero_or_unit dth) as [[Hd Hz] | [Hd Hu]].
    + rewrite Hz, HT, Hd. ring.
    + replace (sign dth * sqrt Th * (sign dth * sqrt Th))
        with (sign dth * sign dth * (sqrt Th * sqrt Th)) by ring.
      rewrite Hu, sqrt_sqrt by exact HTh. ring.
  - destruct (sign_zero_or_unit dr) as [[Hd Hz] | [Hd Hu]].
    + right. rewrite Hpr, Hz. unfold Rdiv. ring.
    + left. rewrite Hpr, max_R.
      rewrite safeSqrt_R by apply Rmax_r.
      replace (Sigma * (sign dr * sqrt (Rmax Rr 0) / Sigma))
        with (sign dr * sqrt (Rmax Rr 0)) by (field; exact HS).
      replace (sign dr * sqrt (Rmax Rr 0) * (sign dr * sqrt (Rmax Rr 0)))
        with (sign dr * sign dr * (sqrt (Rmax Rr 0) * sqrt (Rmax Rr 0))) by ring.
      rewrite Hu, sqrt_sqrt by apply Rmax_r. ring.
Qed.

(** Witness for X6: the theorem at concrete parameters. *)
Lemma X6_witness :
  let s := initializeGeodesic (F := R) (mkVec3 10 0 0) (mkVec3 (-1) 0 0) 1 0 in
  let Sigma := sigma (st_r s) (st_theta s) 0 in
  st_E s = 1
  /\ (Sigma * st_ptheta s) * (Sigma * st_ptheta s)
     = Theta_potential (st_theta s) (st_E s) (st_Lz s) (st_Q s) 0
  /\ ((Sigma * st_pr s) * (Sigma * st_pr s)
      = Rmax (R_potential (st_r s) (st_E s) (st_Lz s) (st_Q s) 1 0) 0
      \/ st_pr s = 0).
Proof.
  intros s Sigma.
  assert (HS : Sigma <> 0).
  { subst Sigma s. rewrite initializeGeodesic_radial. cbn [st_r st_theta].
    unfold sigma. cbn [fadd fmul fcos RFloat]. rewrite cos_PI2. lra. }
  destruct (X6_initial_state_on_constraint_surface (mkVec3 10 0 0) (mkVec3 (-1) 0 0) 1 0)
    as (HE & _ & HC).
  split; [exact HE | exact (HC HS)].
Defined.

End RealIntegrator.

Section RadialForce.

Import GLSL.
Local Open Scope R_scope.

Ltac rlit := cbn [lit RFloat]; unfold Q2R; cbn.

(** [R_potential] over the reals, as a polynomial in [r]. *)
Lemma R_potential_R :
  forall r E Lz Q M a : R,
    R_potential r E Lz Q M a
    = ((r * r + a * a) * E - a * Lz) * ((r * r + a * a) * E - a * Lz)
      - (r * r - 2 * M * r + a * a) * ((Lz - a * E) * (Lz - a * E) + Q).
Proof.
  intros. unfold R_potential. cbn [fmul fadd fsub RFloat]. rewrite lit_2. reflexivity.
Qed.

(** The derivative of [x * x]. *)
Lemma derivable_pt_lim_sqr : forall r, derivable_pt_lim (fun x => x * x) r (2 * r).
Proof.
  intros r. replace (2 * r) with (1 * r + r * 1) by ring.
  apply (derivable_pt_lim_mult id id); apply derivable_pt_lim_id.
Qed.

(** The derivative of [R_potential] in [r]. *)
Lemma R_potential_derivative :
  forall r E Lz Q M a : R,
    derivable_pt_lim (fun x => R_potential x E Lz Q M a) r
      (2 * ((r * r + a * a) * E - a * Lz) * (2 * r * E)
       - (2 * r - 2 * M) * ((Lz - a * E) * (Lz - a * E) + Q)).
Proof.
  intros r E Lz Q M a.
  set (K := (Lz - a * E) * (Lz - a * E) + Q).
  set (P := fun x : R => (x * x + a * a) * E - a * Lz).
  set (D := fun x : R => x * x - 2 * M * x + a * a).
  assert (HP : derivable_pt_lim P r (2 * r * E)).
  { unfold P.
    replace (2 * r * E) with ((2 * r + 0) * E + (r * r + a * a) * 0 - 0) by ring.
    apply (derivable_pt_lim_minus (fun x => (x * x + a * a) * E) (fun _ => a * Lz)).
    - apply (derivable_pt_lim_mult (fun x => x * x + a * a) (fun _ => E)).
      + apply (derivable_pt_lim_plus (fun x => x * x) (fun _ => a * a)).
        * apply derivable_pt_lim_sqr.
        * apply derivable_pt_lim_const.
      + apply derivable_pt_lim_const.
    - apply derivable_pt_lim_const. }
  assert (HD : derivable_pt_lim D r (2 * r - 2 * M)).
  { unfold D.
    replace (2 * r - 2 * M) with (2 * r - (0 * r + 2 * M * 1) + 0) by ring.
    apply (derivable_pt_lim_plus (fun x => x * x - 2 * M * x) (fun _ => a * a)).
    - apply (derivable_pt_lim_minus (fun x => x * x) (fun x => 2 * M * x)).
      + apply derivable_pt_lim_sqr.
      + apply (derivable_pt_lim_mult (fun _ => 2 * M) id).
        * apply derivable_pt_lim_const.
        * apply derivable_pt_lim_id.
    - apply derivable_pt_lim_const. }
  assert (HF : derivable_pt_lim (fun x => P x * P x - D x * K) r
                 ((2 * r * E) * P r + P r * (2 * r * E)
                  - ((2 * r - 2 * M) * K + D r * 0))).
  { apply (derivable_pt_lim_minus (fun x => P x * P x) (fun x => D x * K)).
    - apply (derivable_pt_lim_mult P P); exact HP.
    - apply (derivable_pt_lim_mult D (fun _ => K)); [exact HD | apply derivable_pt_lim_const]. }
  replace (2 * ((r * r + a * a) * E - a * Lz) * (2 * r * E) - (2 * r - 2 * M) * K)
    with ((2 * r * E) * P r + P r * (2 * r * E) - ((2 * r - 2 * M) * K + D r * 0))
    by (unfold P; ring).
  intros eps Heps. destruct (HF eps Heps) as [d Hd]. exists d.
  intros h Hh0 Hh. specialize (Hd h Hh0 Hh).
  rewrite !R_potential_R. unfold P, D, K in *. exact Hd.
Qed.

(** A strict lower bound on [sin^2] persists in a neighbourhood. *)
Lemma sin_sqr_locally_large :
  forall theta e, e < sin theta * sin theta ->
    exists d : posreal, forall h, Rabs h < d -> e < sin (theta + h) * sin (theta + h).
Proof.
  intros theta e He.
  assert (Hc : continuity_pt (fun t => sin t * sin t) theta).
  { apply (continuity_pt_mult sin sin); apply continuity_sin. }
  destruct (Hc (sin theta * sin theta - e) ltac:(lra)) as (d & Hd & H).
  exists (mkposreal d Hd). intros h Hh. cbn in Hh.
  destruct (Req_dec h 0) as [-> | Hn]; [rewrite Rplus_0_r; exact He |].
  specialize (H (theta + h)).
  assert (Hx : D_x no_cond theta (theta + h) /\ Rabs (theta + h - theta) < d).
  { split; [split; [exact I | lra] |]. replace (theta + h - theta) with h by ring. exact Hh. }
  specialize (H Hx). cbn in H. unfold R_dist in H.
  apply Rabs_def2 in H. lra.
Qed.

(** A derivative depends only on the function near the point. *)
Lemma derivable_pt_lim_local :
  forall (f g : R -> R) (x l : R) (d : posreal),
    (forall h, Rabs h < d -> f (x + h) = g (x + h)) ->
    derivable_pt_lim g x l -> derivable_pt_lim f x l.
Proof.
  intros f g x l d Heq Hg eps Heps.
  destruct (Hg eps Heps) as [d' Hd'].
  assert (Hm : 0 < Rmin d d') by (apply Rmin_pos; [apply cond_pos | apply cond_pos]).
  exists (mkposreal _ Hm). intros h Hh0 Hh. cbn in Hh.
  assert (H1 : f (x + h) = g (x + h)).
  { apply Heq. apply Rlt_le_trans with (Rmin d d'); [exact Hh | apply Rmin_l]. }
  assert (H2 : f x = g x).
  { rewrite <- (Rplus_0_r x). apply Heq. rewrite Rabs_R0. apply cond_pos. }
  rewrite H1, H2.
  apply Hd'; [exact Hh0 |]. apply Rlt_le_trans with (Rmin d d'); [exact Hh | apply Rmin_r].
Qed.

(** The derivative of [Theta_potential] in [theta], away from the pole
    guard. *)
Lemma Theta_potential_derivative :
  forall theta E Lz Q a : R,
    1e-6 < sin theta * sin theta ->
    derivable_pt_lim (fun t => Theta_potential t E Lz Q a) theta
      (- 2 * (a * a) * E * E * cos theta * sin theta
       + 2 * Lz * Lz * cos theta / (sin theta * (sin theta * sin theta))).
Proof.
  intros theta E Lz Q a Hs.
  destruct (sin_sqr_locally_large theta 1e-6 Hs) as [d Hd].
  set (g := fun t : R => Q + a * a * E * E * (cos t * cos t)
                         - Lz * Lz * ((cos t * cos t) / (sin t * sin t))).
  apply (derivable_pt_lim_local _ g theta _ d).
  - intros h Hh. specialize (Hd h Hh). unfold Theta_potential, g. cbv zeta.
    cbn [fmul fadd fsub fdiv fsin fcos flt RFloat]. rewrite EPSILON_R.
    rewrite Rltb_false by lra. reflexivity.
  - assert (Hsin : sin theta <> 0) by (intros H0; rewrite H0 in Hs; lra).
    assert (Hc2 : derivable_pt_lim (fun t => cos t * cos t) theta
                    (- sin theta * cos theta + cos theta * - sin theta)).
    { apply (derivable_pt_lim_mult cos cos); apply derivable_pt_lim_cos. }
    assert (Hs2 : derivable_pt_lim (fun t => sin t * sin t) theta
                    (cos theta * sin theta + sin theta * cos theta)).
    { apply (derivable_pt_lim_mult sin sin); apply derivable_pt_lim_sin. }
    assert (Hq : derivable_pt_lim (fun t => (cos t * cos t) / (sin t * sin t)) theta
                   (((- sin theta * cos theta + cos theta * - sin theta) * (sin theta * sin theta)
                     - (cos theta * sin theta + sin theta * cos theta) * (cos theta * cos theta))
                    / Rsqr (sin theta * sin theta))).
    { apply (derivable_pt_lim_div (fun t => cos t * cos t) (fun t => sin t * sin t));
        [exact Hc2 | exact Hs2 | nra]. }
    unfold g.
    match goal with |- derivable_pt_lim _ _ ?l =>
      replace l with
        ((0 + (0 * (cos theta * cos theta)
               + a * a * E * E * (- sin theta * cos theta + cos theta * - sin theta)))
         - (0 * ((cos theta * cos theta) / (sin theta * sin theta))
            + Lz * Lz
              * (((- sin theta * cos theta + cos theta * - sin theta) * (sin theta * sin theta)
                  - (cos theta * sin theta + sin theta * cos theta) * (cos theta * cos theta))
                 / Rsqr (sin theta * sin theta))))
    end.
    + apply (derivable_pt_lim_minus
               (fun t => Q + a * a * E * E * (cos t * cos t))
               (fun t => Lz * Lz * ((cos t * cos t) / (sin t * sin t)))).
      * apply (derivable_pt_lim_plus (fun _ => Q) (fun t => a * a * E * E * (cos t * cos t))).
        -- apply derivable_pt_lim_const.
        -- apply (derivable_pt_lim_mult (fun _ => a * a * E * E) (fun t => cos t * cos t));
             [apply derivable_pt_lim_const | exact Hc2].
      * apply (derivable_pt_lim_mult (fun _ => Lz * Lz)
                 (fun t => (cos t * cos t) / (sin t * sin t)));
          [apply derivable_pt_lim_const | exact Hq].
    + unfold Rsqr. pose proof (sin2_cos2 theta) as Hsc. unfold Rsqr in Hsc.
      assert (Hcc : cos theta * cos theta = 1 - sin theta * sin theta) by lra.
      field_simplify_eq; try exact Hsin.
      set (s := sin theta) in *. set (c := cos theta) in *.
      clearbody s c.
      replace (c ^ 3) with (c * (c * c)) by ring.
      rewrite Hcc. ring.
Qed.

(** X7. The force terms of [momentumDerivatives] are exact derivatives
    of the potentials: where [Sigma <> 0], [d R_potential / dr] at [r] is
    [2 * Sigma^2] times the radial force, and away from the pole guard
    ([sin^2 theta > 1e-6]) [d Theta_potential / d theta] at [theta] is
    [2 * Sigma^2] times the polar force. *)
Theorem X7_force_terms_are_potential_gradients :
  forall r theta pr ptheta E Lz Q M a : R,
    sigma r theta a <> 0 ->
    derivable_pt_lim (fun x => R_potential x E Lz Q M a) r
      (2 * sigma r theta a * sigma r theta a
       * ux (momentumDerivatives r theta pr ptheta E Lz Q M a))
    /\ (1e-6 < sin theta * sin theta ->
        derivable_pt_lim (fun t => Theta_potential t E Lz Q a) theta
          (2 * sigma r theta a * sigma r theta a
           * uy (momentumDerivatives r theta pr ptheta E Lz Q M a))).
Proof.
  intros r theta pr ptheta E Lz Q M a HS. split.
  - pose proof (R_potential_derivative r E Lz Q M a) as HD.
    match type of HD with derivable_pt_lim _ _ ?d =>
      replace (2 * sigma r theta a * sigma r theta a
               * ux (momentumDerivatives r theta pr ptheta E Lz Q M a)) with d;
        [exact HD |]
    end.
    unfold momentumDerivatives, sigma in *. cbv zeta. cbn [ux].
    cbn [fmul fadd fsub fdiv fcos RFloat] in *. rewrite !lit_2.
    field. intros H; apply HS; rewrite <- H; ring.
  - intros Hs.
    pose proof (Theta_potential_derivative theta E Lz Q a Hs) as HD.
    match type of HD with derivable_pt_lim _ _ ?d =>
      replace (2 * sigma r theta a * sigma r theta a
               * uy (momentumDerivatives r theta pr ptheta E Lz Q M a)) with d;
        [exact HD |]
    end.
    assert (Hsin : sin theta <> 0) by (intros H0; rewrite H0 in Hs; lra).
    unfold momentumDerivatives, sigma in *. cbv zeta. cbn [uy].
    cbn [fmul fadd fsub fdiv fneg fcos fsin flt RFloat] in *.
    rewrite EPSILON_R, !lit_2. rewrite Rltb_true by exact Hs.
    field. split; [exact Hsin |]. intros H; apply HS; rewrite <- H; ring.
Qed.

(** Witness for X7: the theorem at concrete parameters. *)
Lemma X7_witness :
  let F := momentumDerivatives (F := R) 10 (Rtrigo1.PI / 2) (-1) 0 1 0 0 1 0 in
  derivable_pt_lim (fun x => R_potential x 1 0 0 1 0) 10
    (2 * sigma 10 (Rtrigo1.PI / 2) 0 * sigma 10 (Rtrigo1.PI / 2) 0 * ux F)
  /\ derivable_pt_lim (fun t => Theta_potential t 1 0 0 0) (Rtrigo1.PI / 2)
       (2 * sigma 10 (Rtrigo1.PI / 2) 0 * sigma 10 (Rtrigo1.PI / 2) 0 * uy F).
Proof.
  intros F.
  assert (HS : sigma (F := R) 10 (Rtrigo1.PI / 2) 0 <> 0).
  { unfold sigma. cbn [fadd fmul fcos RFloat]. rewrite cos_PI2. lra. }
  destruct (X7_force_terms_are_potential_gradients 10 (Rtrigo1.PI / 2) (-1) 0 1 0 0 1 0 HS)
    as [Hr Ht].
  split; [exact Hr | apply Ht; rewrite sin_PI2; lra].
Defined.

End RadialForce.

Section CameraPlacement.

Import GLSL.
Local Open Scope R_scope.

Ltac rlit := cbn [lit RFloat]; unfold Q2R; cbn.

(** The Boyer-Lindquist radius of a Cartesian point is at most its
    distance [rho] from the origin and, for a point not closer than
    EPSILON, at least [sqrt (rho^2 - a^2)]. *)
Lemma boyer_lindquist_radius_bounds :
  forall (p : vec3 R) (a : R),
    let r := vx (cartesianToBoyerLindquist p a) in
    0 <= r
    /\ r <= length p
    /\ (1e-6 <= length p -> dot p p - a * a <= r * r).
Proof.
  intros p a r. subst r.
  assert (Hd : 0 <= dot p p).
  { unfold dot. cbn [fadd fmul RFloat]. nra. }
  assert (Hl : length p * length p = dot p p).
  { unfold length. cbn [fsqrt RFloat]. apply sqrt_sqrt. exact Hd. }
  assert (Hl0 : 0 <= length p) by (unfold length; cbn [fsqrt RFloat]; apply sqrt_pos).
  unfold cartesianToBoyerLindquist. cbv zeta.
  cbn [flt fabs RFloat]. rewrite EPSILON_R.
  destruct (RealMath.Rltb (Rabs a) 1e-6) eqn:Ha.
  - unfold cartesianToSpherical. cbv zeta. cbn [flt RFloat]. rewrite EPSILON_R.
    destruct (RealMath.Rltb (length p) 1e-6) eqn:Hr; cbn [vx].
    + rewrite lit_0. split; [lra | split; [exact Hl0 |]].
      intros H. exfalso.
      unfold RealMath.Rltb in Hr. destruct (Rlt_dec (length p) 1e-6); [lra | discriminate].
    + split; [exact Hl0 | split; [lra |]]. intros _. rewrite Hl. nra.
  - cbn [vx].
    set (x := vx p) in *. set (y := vy p) in *. set (z := vz p) in *.
    assert (Hdot : dot p p = x * x + y * y + z * z) by reflexivity.
    cbn [fadd fsub fmul fneg RFloat].
    replace (lit (F := R) 4) with 4 by (rlit; lra).
    replace (lit (F := R) 0.5) with 0.5 by (rlit; lra).
    remember (x * x + y * y + z * z - a * a) as b eqn:Eb.
    remember (b * b - 4 * (- (a * a) * z * z)) as disc eqn:Ed.
    assert (Hdisc : 0 <= disc) by (rewrite Ed; nra).
    rewrite (safeSqrt_R disc) by exact Hdisc.
    assert (Hw0 : 0 <= sqrt disc) by apply sqrt_pos.
    assert (Hww : sqrt disc * sqrt disc = disc) by (apply sqrt_sqrt; exact Hdisc).
    remember (sqrt disc) as w eqn:Ew. clear Ew.
    assert (Hz : 0 <= a * a * (z * z)) by nra.
    remember (a * a * (z * z)) as q eqn:Eq.
    assert (Hd' : disc = b * b + 4 * q) by (rewrite Ed, Eq; ring).
    assert (Hwb : b <= w /\ - b <= w).
    { split.
      - destruct (Rle_dec b 0) as [Hb | Hb]; [lra |].
        apply Rnot_le_lt in Hb. nra.
      - destruct (Rle_dec 0 b) as [Hb | Hb]; [lra |].
        apply Rnot_le_lt in Hb. nra. }
    assert (Hs : 0 <= b + 2 * (a * a)) by (rewrite Eb; nra).
    assert (Hqb : q <= a * a * (b + a * a)).
    { rewrite Eq, Eb. nra. }
    assert (Hwu : w <= b + 2 * (a * a)).
    { destruct (Rle_dec w (b + 2 * (a * a))) as [H | H]; [exact H |].
      apply Rnot_le_lt in H. exfalso.
      assert (Hsq : (b + 2 * (a * a)) * (b + 2 * (a * a)) < w * w) by nra.
      rewrite Hww, Hd' in Hsq. nra. }
    assert (Hr2 : 0 <= (b + w) * 0.5) by lra.
    rewrite (safeSqrt_R _ Hr2).
    assert (Hrr : sqrt ((b + w) * 0.5) * sqrt ((b + w) * 0.5) = (b + w) * 0.5)
      by (apply sqrt_sqrt; exact Hr2).
    split; [apply sqrt_pos | split].
    + unfold length. cbn [fsqrt RFloat]. apply sqrt_le_1; [exact Hr2 | exact Hd |].
      rewrite Hdot. lra.
    + intros _. rewrite Hrr, Hdot. lra.
Qed.

(** X8. With a positive step budget, a camera closer to the origin than
    [eventHorizon * 1.001] has every ray Captured, and a camera farther
    than [sqrt (escapeRadius^2 + a^2)] (with
    [max EPSILON (eventHorizon * 1.001) <= escapeRadius]) has every ray
    Escaped, by both integrators and with no RK4 step taken. *)
Theorem X8_camera_position_decides_without_a_step :
  forall (camPos rayDir : vec3 R) (M a : R) (maxSteps : Z)
         (escapeRadius stepSize : R),
    (0 < maxSteps)%Z ->
    let rH := eventHorizonRadius M a in
    let plain := integrateGeodesic camPos rayDir M a maxSteps escapeRadius stepSize in
    (length camPos < rH * 1.001 ->
       (status plain = RAY_CAPTURED /\ rk4Calls plain = 0%nat)
       /\ forall U sj ev de time,
            let res := fst (integrateGeodesicWithFeatures U sj ev de camPos rayDir
                              M a maxSteps escapeRadius stepSize time) in
            status res = RAY_CAPTURED /\ rk4Calls res = 0%nat)
    /\ (1e-6 <= escapeRadius -> rH * 1.001 <= escapeRadius ->
        escapeRadius * escapeRadius + a * a < dot camPos camPos ->
        (status plain = RAY_ESCAPED /\ rk4Calls plain = 0%nat)
        /\ forall U sj ev de time,
             let res := fst (integrateGeodesicWithFeatures U sj ev de camPos rayDir
                               M a maxSteps escapeRadius stepSize time) in
             status res = RAY_ESCAPED /\ rk4Calls res = 0%nat).
Proof.
  intros camPos rayDir M a maxSteps escapeRadius stepSize Hmax rH plain.
  destruct (boyer_lindquist_radius_bounds camPos a) as (Hr0 & Hru & Hrl).
  cbv zeta in Hr0, Hru, Hrl.
  rewrite <- (initializeGeodesic_radius camPos rayDir M a) in Hr0, Hru, Hrl.
  assert (Hbudget : (0 >=? maxSteps)%Z = false) by (destruct (Z.geb_spec 0 maxSteps); [lia | reflexivity]).
  assert (Hlit : lit (F := R) 1.001 = 1.001) by (rlit; lra).
  subst plain. unfold integrateGeodesic, integrateGeodesicWithFeatures.
  fold rH. change 1000%nat with (S 999).
  split.
  - intros Hin.
    assert (Hc : flt (st_r (initializeGeodesic camPos rayDir M a)) (rH * lit 1.001)%glsl
                 = true).
    { cbn [flt fmul RFloat]. rewrite Hlit. apply Rltb_true. lra. }
    split.
    + rewrite integrateLoop_S, Hbudget, Hc. split; reflexivity.
    + intros U sj ev de time. cbv zeta.
      rewrite featureLoop_S, Hbudget. cbv zeta. rewrite Hc. split; reflexivity.
  - intros Heps HrH Hfar.
    assert (Hlen : 1e-6 <= length camPos).
    { assert (Hd : 0 <= dot camPos camPos) by (unfold dot; cbn [fadd fmul RFloat]; nra).
      assert (Hl : length camPos * length camPos = dot camPos camPos).
      { unfold length. cbn [fsqrt RFloat]. apply sqrt_sqrt. exact Hd. }
      assert (Hl0 : 0 <= length camPos)
        by (unfold length; cbn [fsqrt RFloat]; apply sqrt_pos).
      nra. }
    specialize (Hrl Hlen).
    set (r0 := st_r (initializeGeodesic camPos rayDir M a)) in *.
    assert (Hout : escapeRadius < r0) by nra.
    assert (Hc : flt r0 (rH * lit 1.001)%glsl = false).
    { cbn [flt fmul RFloat]. rewrite Hlit. apply Rltb_false. lra. }
    assert (He : flt escapeRadius r0 = true).
    { cbn [flt RFloat]. apply Rltb_true. exact Hout. }
    split.
    + rewrite integrateLoop_S, Hbudget. fold r0. rewrite Hc, He. split; reflexivity.
    + intros U sj ev de time. cbv zeta.
      rewrite featureLoop_S, Hbudget. cbv zeta. fold r0. rewrite Hc, He.
      split; reflexivity.
Qed.

(** Witness for X8: the theorem at concrete parameters. *)
Lemma X8_witness :
  let rayDir := mkVec3 0 1 0 in
  (status (integrateGeodesic (F := R) (mkVec3 1 0 0) rayDir 1 0 800 50 0.15)
   = RAY_CAPTURED
   /\ rk4Calls (integrateGeodesic (F := R) (mkVec3 1 0 0) rayDir 1 0 800 50 0.15)
      = 0%nat)
  /\ (status (integrateGeodesic (F := R) (mkVec3 60 0 0) rayDir 1 0.9 800 50 0.15)
      = RAY_ESCAPED
      /\ rk4Calls (integrateGeodesic (F := R) (mkVec3 60 0 0) rayDir 1 0.9 800 50 0.15)
         = 0%nat).
Proof.
  intros rayDir.
  assert (Hmax : (0 < 800)%Z) by lia.
  destruct (X8_camera_position_decides_without_a_step
              (mkVec3 1 0 0) rayDir 1 0 800 50 0.15 Hmax) as [Hin _].
  destruct (X8_camera_position_decides_without_a_step
              (mkVec3 60 0 0) rayDir 1 0.9 800 50 0.15 Hmax) as [_ Hout].
  split.
  - apply Hin.
    rewrite eventHorizonRadius_schwarzschild.
    unfold length, dot. cbn [vx vy vz fsqrt fadd fmul RFloat].
    replace (1 * 1 + 0 * 0 + 0 * 0) with 1 by lra. rewrite sqrt_1. lra.
  - apply Hout; [lra | | unfold dot; cbn [vx vy vz fadd fmul RFloat]; lra].
    assert (H : eventHorizonRadius (F := R) 1 0.9 <= 2).
    { unfold eventHorizonRadius. cbn [fadd fsub fmul RFloat].
      rewrite safeSqrt_R by lra.
      assert (sqrt (1 * 1 - 0.9 * 0.9) <= sqrt 1) by (apply sqrt_le_1; lra).
      rewrite sqrt_1 in H. lra. }
    lra.
Defined.

End CameraPlacement.

(* ====================================================================== *)
(** * Part XIII.  Radii and frame dragging of the Kerr metric             *)
(* ====================================================================== *)

Section KerrRadii.

Import JS.
Local Open Scope R_scope.

Ltac rlit := cbn [GLSL.lit RFloat]; unfold Q2R; cbn.

(** The square root shared by both horizon radii and its square. *)
Lemma horizon_root :
  forall mass spin this,
    KerrMetric.constructor mass spin = Normal this ->
    let w := sqrt (KerrMetric.M this * KerrMetric.M this - KerrMetric.a2 this) in
    0 < KerrMetric.M this
    /\ KerrMetric.a2 this = KerrMetric.a this * KerrMetric.a this
    /\ 0 <= w <= KerrMetric.M this
    /\ w * w = KerrMetric.M this * KerrMetric.M this - KerrMetric.a2 this
    /\ KerrMetric.eventHorizonRadius this = KerrMetric.M this + w
    /\ KerrMetric.innerHorizonRadius this = KerrMetric.M this - w.
Proof.
  intros mass spin this Hc w.
  destruct (constructor_invariant _ _ _ Hc) as (HM & Ha & Ha2).
  pose proof (spin_square_le_mass_square _ _ HM Ha) as Hd.
  rewrite <- Ha2 in Hd.
  assert (Hw : w * w = KerrMetric.M this * KerrMetric.M this - KerrMetric.a2 this)
    by (apply sqrt_sqrt; exact Hd).
  assert (Hw0 : 0 <= w) by apply sqrt_pos.
  assert (Hw1 : w <= KerrMetric.M this).
  { assert (0 <= KerrMetric.a2 this) by (rewrite Ha2; nra). nra. }
  unfold KerrMetric.eventHorizonRadius, KerrMetric.innerHorizonRadius,
    Math.sqrt, Math.max.
  rewrite Rmax_right by exact Hd. fold w.
  repeat split; try assumption; lra.
Qed.

(** The square root shared by the shader's two horizon radii. *)
Lemma glsl_horizon_root :
  forall M a : R,
    let w := GLSL.safeSqrt (M * M - a * a) in
    0 <= w /\ (0 <= M * M - a * a -> w * w = M * M - a * a)
    /\ (M * M <= a * a -> w = 0).
Proof.
  intros M a w. unfold w, GLSL.safeSqrt. rewrite max_R, lit_0.
  split; [apply sqrt_pos | split].
  - intros H. rewrite Rmax_left by exact H. apply sqrt_sqrt. exact H.
  - intros H. rewrite Rmax_right by lra. apply sqrt_0.
Qed.

(** X9. The two horizon radii of a constructed [KerrMetric] are the roots
    of [delta]: their sum is [2 M], their product [a^2],
    [0 <= r- <= M <= r+ <= 2 M], [delta r = (r - r+) * (r - r-)], and
    [delta] is negative exactly between them.  The shader's
    [eventHorizonRadius] and [innerHorizonRadius] satisfy the same
    identities for [0 <= M], [a^2 <= M^2], and both collapse to [M] for an
    over-extremal spin. *)
Theorem X9_horizon_radii_are_the_roots_of_delta :
  (forall (mass spin : R) (this : KerrMetric.t),
     KerrMetric.constructor (Some mass) (Some spin) = Normal this ->
     let rp := KerrMetric.eventHorizonRadius this in
     let rm := KerrMetric.innerHorizonRadius this in
     rm + rp = 2 * KerrMetric.M this
     /\ rm * rp = KerrMetric.a this * KerrMetric.a this
     /\ 0 <= rm <= KerrMetric.M this
     /\ KerrMetric.M this <= rp <= 2 * KerrMetric.M this
     /\ (forall r, KerrMetric.delta this r = (r - rp) * (r - rm))
     /\ (forall r, KerrMetric.delta this r < 0 <-> rm < r < rp))
  /\
  (forall M a : R,
     let rp := GLSL.eventHorizonRadius M a in
     let rm := GLSL.innerHorizonRadius M a in
     rm + rp = 2 * M
     /\ rm <= rp
     /\ (0 <= M -> a * a <= M * M ->
         rm * rp = a * a /\ forall r, GLSL.delta r M a = (r - rp) * (r - rm))
     /\ (M * M <= a * a -> rp = M /\ rm = M)).
Proof.
  split.
  - intros mass spin this Hc rp rm.
    destruct (horizon_root _ _ _ Hc) as (HM & Ha2 & Hw01 & Hw & Hp & Hm).
    subst rp rm. rewrite Hp, Hm.
    set (w := sqrt (KerrMetric.M this * KerrMetric.M this - KerrMetric.a2 this)) in *.
    clearbody w. rewrite Ha2 in Hw.
    assert (Hd : forall r, KerrMetric.delta this r
                           = (r - (KerrMetric.M this + w)) * (r - (KerrMetric.M this - w))).
    { intros r. unfold KerrMetric.delta. rewrite Ha2. nra. }
    repeat split; try lra; try nra.
    + exact Hd.
    + rewrite Hd in H. nra.
    + rewrite Hd in H. nra.
    + intros [H1 H2]. rewrite Hd. nra.
  - intros M a rp rm. subst rp rm.
    unfold GLSL.eventHorizonRadius, GLSL.innerHorizonRadius.
    cbn [GLSL.fadd GLSL.fsub GLSL.fmul RFloat].
    destruct (glsl_horizon_root M a) as (Hw0 & Hw & Hz).
    set (w := GLSL.safeSqrt (M * M - a * a)) in *. clearbody w.
    split; [ring | split; [lra | split]].
    + intros HM Ha. specialize (Hw ltac:(lra)). split; [nra |].
      intros r. unfold GLSL.delta. cbn [GLSL.fadd GLSL.fsub GLSL.fmul RFloat].
      rewrite lit_2. nra.
    + intros H. rewrite (Hz H). split; ring.
Qed.

(** [cos^2] lies in [[0, 1]]. *)
Lemma cos_sqr_le_1 : forall t, 0 <= cos t * cos t <= 1.
Proof.
  intros t. pose proof (COS_bound t) as [H1 H2]. nra.
Qed.

(** The square root of [ergosphereRadius] lies between that of the
    horizon and [M]. *)
Lemma ergosphere_root :
  forall mass spin this theta,
    KerrMetric.constructor mass spin = Normal this ->
    sqrt (KerrMetric.M this * KerrMetric.M this - KerrMetric.a2 this)
    <= sqrt (Rmax 0 (KerrMetric.M this * KerrMetric.M this
                     - KerrMetric.a2 this * cos theta * cos theta))
    <= KerrMetric.M this.
Proof.
  intros mass spin this theta Hc.
  destruct (constructor_invariant _ _ _ Hc) as (HM & Ha & Ha2).
  pose proof (spin_square_le_mass_square _ _ HM Ha) as Hd.
  rewrite <- Ha2 in Hd.
  pose proof (cos_sqr_le_1 theta) as Hcs.
  assert (H0 : 0 <= KerrMetric.a2 this) by (rewrite Ha2; nra).
  assert (He : KerrMetric.M this * KerrMetric.M this - KerrMetric.a2 this
               <= KerrMetric.M this * KerrMetric.M this
                  - KerrMetric.a2 this * cos theta * cos theta) by nra.
  rewrite Rmax_right by lra. split.
  - apply sqrt_le_1; lra.
  - apply Rle_trans with (sqrt (KerrMetric.M this * KerrMetric.M this)).
    + apply sqrt_le_1; nra.
    + rewrite sqrt_square by lra. lra.
Qed.

(** X10. The ergosphere radius lies between the event horizon and [2 M];
    it meets the horizon at the pole and equals [2 M] at the equator
    (also as reported by [getKeyRadii]).  [isInErgosphere] and
    [isInsideHorizon] are never both true, the ergosphere is empty on the
    axis and for [a = 0]; the same holds for the shader's functions, and
    [ergosphereRadiusAtTheta] agrees with [ergosphereRadius] when
    [a^2 cos^2 theta <= M^2]. *)
Theorem X10_ergosphere_lies_between_horizon_and_2M :
  (forall (mass spin : R) (this : KerrMetric.t),
     KerrMetric.constructor (Some mass) (Some spin) = Normal this ->
     let rH := KerrMetric.eventHorizonRadius this in
     (forall theta, rH <= KerrMetric.ergosphereRadius this theta <= 2 * KerrMetric.M this)
     /\ KerrMetric.ergosphereRadius this 0 = rH
     /\ KerrMetric.ergosphereRadius this (Math.PI / 2) = 2 * KerrMetric.M this
     /\ (forall r theta, KerrMetric.isInErgosphere this r theta = true ->
          KerrMetric.isInsideHorizon this r = false
          /\ rH <= r < 2 * KerrMetric.M this)
     /\ (forall r, KerrMetric.isInErgosphere this r 0 = false)
     /\ (KerrMetric.a this = 0 ->
         forall r theta, KerrMetric.isInErgosphere this r theta = false)
     /\ KerrMetric.ergospherePole (KerrMetric.getKeyRadii this)
        = KerrMetric.eventHorizon (KerrMetric.getKeyRadii this)
     /\ KerrMetric.ergosphereEquator (KerrMetric.getKeyRadii this)
        = 2 * KerrMetric.M this)
  /\
  (forall theta M a : R,
     GLSL.eventHorizonRadius M a <= GLSL.ergosphereRadius theta M a
     /\ (0 <= M -> GLSL.ergosphereRadius theta M a <= 2 * M)
     /\ (a * a * (cos theta * cos theta) <= M * M ->
         GLSL.ergosphereRadiusAtTheta theta M a = GLSL.ergosphereRadius theta M a)
     /\ (forall r, GLSL.isInErgosphere r theta M a = true ->
                   GLSL.isInsideHorizon r M a = false)
     /\ (a = 0 -> forall r, GLSL.isInErgosphere r theta M a = false)).
Proof.
  split.
  - intros mass spin this Hc rH.
    destruct (horizon_root _ _ _ Hc) as (HM & Ha2 & Hw01 & Hw & Hp & Hm).
    assert (Hrange : forall theta,
               rH <= KerrMetric.ergosphereRadius this theta <= 2 * KerrMetric.M this).
    { intros theta. pose proof (ergosphere_root _ _ _ theta Hc) as He.
      subst rH. rewrite Hp. unfold KerrMetric.ergosphereRadius, Math.sqrt, Math.max, Math.cos.
      lra. }
    assert (Hpole : KerrMetric.ergosphereRadius this 0 = rH).
    { subst rH. unfold KerrMetric.ergosphereRadius, KerrMetric.eventHorizonRadius,
        Math.cos. rewrite cos_0. do 2 f_equal. f_equal. ring. }
    assert (Heq : KerrMetric.ergosphereRadius this (Math.PI / 2) = 2 * KerrMetric.M this).
    { unfold KerrMetric.ergosphereRadius, Math.PI, Math.cos, Math.sqrt, Math.max.
      rewrite cos_PI2.
      replace (KerrMetric.M this * KerrMetric.M this - KerrMetric.a2 this * 0 * 0)
        with (KerrMetric.M this * KerrMetric.M this) by ring.
      rewrite Rmax_right by nra. rewrite sqrt_square by lra. ring. }
    assert (Hin : forall r theta, KerrMetric.isInErgosphere this r theta = true ->
                    rH <= r < KerrMetric.ergosphereRadius this theta).
    { intros r theta. unfold KerrMetric.isInErgosphere. fold rH.
      unfold RealMath.Rleb, RealMath.Rltb.
      destruct (Rle_dec rH r); destruct (Rlt_dec r _); cbn; try discriminate.
      intros _. lra. }
    split; [exact Hrange | split; [exact Hpole | split; [exact Heq |]]].
    split; [| split; [| split; [| split]]].
    + intros r theta H. destruct (Hin r theta H) as [H1 H2].
      pose proof (Hrange theta). split; [| lra].
      unfold KerrMetric.isInsideHorizon. fold rH. apply Rltb_false. exact H1.
    + intros r. destruct (KerrMetric.isInErgosphere this r 0) eqn:E; [| reflexivity].
      destruct (Hin r 0 E). rewrite Hpole in *. lra.
    + intros Ha0 r theta.
      destruct (KerrMetric.isInErgosphere this r theta) eqn:E; [| reflexivity].
      destruct (Hin r theta E) as [H1 H2].
      assert (KerrMetric.ergosphereRadius this theta = rH).
      { subst rH. unfold KerrMetric.ergosphereRadius, KerrMetric.eventHorizonRadius.
        rewrite Ha2, Ha0. do 3 f_equal. ring. }
      lra.
    + cbn. exact Hpole.
    + cbn. exact Heq.
  - intros theta M a.
    assert (Hle : GLSL.eventHorizonRadius M a <= GLSL.ergosphereRadius theta M a).
    { unfold GLSL.eventHorizonRadius, GLSL.ergosphereRadius, GLSL.safeSqrt.
      cbn [GLSL.fadd GLSL.fsub GLSL.fmul GLSL.fcos GLSL.fsqrt RFloat].
      rewrite !max_R, lit_0. pose proof (cos_sqr_le_1 theta).
      assert (0 <= a * a) by nra.
      apply Rplus_le_compat_l. apply sqrt_le_1; try apply Rmax_r.
      apply Rle_max_compat_r. nra. }
    split; [exact Hle | split; [| split; [| split]]].
    + intros HM. unfold GLSL.ergosphereRadius, GLSL.safeSqrt.
      cbn [GLSL.fadd GLSL.fsub GLSL.fmul GLSL.fcos GLSL.fsqrt RFloat].
      rewrite max_R, lit_0. pose proof (cos_sqr_le_1 theta).
      assert (0 <= a * a) by nra.
      assert (sqrt (Rmax (M * M - a * a * cos theta * cos theta) 0) <= M); [| lra].
      apply Rle_trans with (sqrt (M * M)); [| rewrite sqrt_square by lra; lra].
      apply sqrt_le_1; [apply Rmax_r | nra | apply Rmax_lub; nra].
    + intros H. unfold GLSL.ergosphereRadiusAtTheta, GLSL.ergosphereRadius, GLSL.safeSqrt.
      cbn [GLSL.fadd GLSL.fsub GLSL.fmul GLSL.fcos GLSL.fsqrt RFloat].
      rewrite max_R, lit_0, Rmax_left by nra. reflexivity.
    + intros r. unfold GLSL.isInErgosphere, GLSL.isInsideHorizon.
      cbn [GLSL.fle GLSL.flt RFloat]. unfold RealMath.Rleb, RealMath.Rltb.
      destruct (Rle_dec (GLSL.eventHorizonRadius M a) r);
        destruct (Rlt_dec r (GLSL.eventHorizonRadius M a)); cbn; try discriminate;
        try reflexivity. exfalso; lra.
    + intros -> r. unfold GLSL.isInErgosphere.
      assert (He : GLSL.ergosphereRadius theta M 0 = GLSL.eventHorizonRadius M 0).
      { unfold GLSL.eventHorizonRadius, GLSL.ergosphereRadius.
        cbn [GLSL.fadd GLSL.fsub GLSL.fmul GLSL.fcos RFloat].
        do 2 f_equal. ring. }
      rewrite He. cbn [GLSL.fle GLSL.flt RFloat]. unfold RealMath.Rleb, RealMath.Rltb.
      destruct (Rle_dec _ r); destruct (Rlt_dec r _); cbn; try reflexivity.
      exfalso; lra.
Qed.

(** [A = (r^2 + a^2)^2 - a^2 Delta sin^2(theta)] is positive off the
    origin. *)
Lemma metric_A_positive :
  forall r M a s2 : R,
    0 < r -> 0 <= M -> 0 <= s2 <= 1 ->
    r * r * (r * r)
    <= (r * r + a * a) * (r * r + a * a) - a * a * (r * r - 2 * M * r + a * a) * s2.
Proof.
  intros r M a s2 Hr HM Hs.
  assert (Ha : 0 <= a * a) by nra.
  assert (Hr2 : 0 < r * r) by nra.
  destruct (Rle_dec (r * r - 2 * M * r + a * a) 0) as [Hd | Hd].
  - assert (0 <= - (a * a * (r * r - 2 * M * r + a * a) * s2)).
    { replace (- (a * a * (r * r - 2 * M * r + a * a) * s2))
        with ((a * a) * (- (r * r - 2 * M * r + a * a)) * s2) by ring.
      apply Rmult_le_pos; [apply Rmult_le_pos |]; lra. }
    nra.
  - assert (a * a * (r * r - 2 * M * r + a * a) * s2
            <= a * a * (r * r - 2 * M * r + a * a)).
    { rewrite <- (Rmult_1_r (a * a * (r * r - 2 * M * r + a * a))) at 2.
      apply Rmult_le_compat_l; [apply Rmult_le_pos; lra | lra]. }
    assert (0 <= M * r * (a * a)) by (apply Rmult_le_pos; [nra | lra]).
    nra.
Qed.

(** [sin^2] lies in [[0, 1]]. *)
Lemma sin_sqr_le_1 : forall t, 0 <= sin t * sin t <= 1.
Proof.
  intros t. pose proof (SIN_bound t) as [H1 H2]. nra.
Qed.

(** The sign of [2 a M r / A] for positive [M], [r], [A]. *)
Lemma quotient_sign :
  forall a M r A : R, 0 < M -> 0 < r -> 0 < A ->
    (0 < a -> 0 < 2 * a * M * r / A)
    /\ (a < 0 -> 2 * a * M * r / A < 0)
    /\ (a = 0 -> 2 * a * M * r / A = 0).
Proof.
  intros a M r A HM Hr HA.
  assert (Hi : 0 < / A) by (apply Rinv_0_lt_compat; exact HA).
  assert (Hmr : 0 < M * r) by nra.
  unfold Rdiv. repeat split.
  - intros Ha. apply Rmult_lt_0_compat; [nra | exact Hi].
  - intros Ha. assert (0 < (- a) * (M * r)) by (apply Rmult_lt_0_compat; lra).
    assert (0 < (2 * ((- a) * (M * r))) * / A) by (apply Rmult_lt_0_compat; lra).
    nra.
  - intros ->. ring.
Qed.

(** X11. Outside [r = 0] the frame-dragging angular velocity has the sign
    of the spin and vanishes for [a = 0], in [KerrMetric.frameDraggingOmega]
    and in the shader's [frameDragging], whose denominator [metricA] is
    positive for [M > 0], [r > 0].  The guarded shader version
    [frameDraggingOmega] equals [frameDragging] when [metricA >= 1e-6] and
    returns 0 below. *)
Theorem X11_frame_dragging_follows_the_spin :
  (forall (mass spin : R) (this : KerrMetric.t) (r theta : R),
     KerrMetric.constructor (Some mass) (Some spin) = Normal this ->
     0 < r ->
     let omega := KerrMetric.frameDraggingOmega this r theta in
     (0 < KerrMetric.a this -> 0 < omega)
     /\ (KerrMetric.a this < 0 -> omega < 0)
     /\ (KerrMetric.a this = 0 -> omega = 0))
  /\
  (forall r theta M a : R,
     0 < M -> 0 < r ->
     let omega := GLSL.frameDragging r theta M a in
     0 < GLSL.metricA r theta M a
     /\ (0 < a -> 0 < omega) /\ (a < 0 -> omega < 0) /\ (a = 0 -> omega = 0)
     /\ (1e-6 <= GLSL.metricA r theta M a ->
         GLSL.frameDraggingOmega r theta M a = omega)
     /\ (GLSL.metricA r theta M a < 1e-6 ->
         GLSL.frameDraggingOmega r theta M a = 0)).
Proof.
  split.
  - intros mass spin this r theta Hc Hr omega.
    destruct (constructor_invariant _ _ _ Hc) as (HM & Ha & Ha2).
    subst omega. unfold KerrMetric.frameDraggingOmega, KerrMetric.delta, Math.sin.
    cbv zeta. rewrite Ha2.
    pose proof (metric_A_positive r (KerrMetric.M this) (KerrMetric.a this)
                  (sin theta * sin theta) Hr ltac:(lra) (sin_sqr_le_1 theta)) as HA.
    assert (Hr4 : 0 < r * r * (r * r)) by (apply Rmult_lt_0_compat; nra).
    apply quotient_sign; [exact HM | exact Hr |]. lra.
  - intros r theta M a HM Hr omega.
    assert (HA : r * r * (r * r) <= GLSL.metricA r theta M a).
    { unfold GLSL.metricA, GLSL.delta. cbv zeta.
      cbn [GLSL.fadd GLSL.fsub GLSL.fmul GLSL.fsin RFloat]. rewrite lit_2.
      apply metric_A_positive; [exact Hr | lra | apply sin_sqr_le_1]. }
    assert (Hr4 : 0 < r * r * (r * r)) by (apply Rmult_lt_0_compat; nra).
    assert (HA0 : 0 < GLSL.metricA r theta M a) by lra.
    assert (Ho : GLSL.frameDragging r theta M a
                 = 2 * a * M * r / GLSL.metricA r theta M a).
    { unfold GLSL.frameDragging. cbv zeta. cbn [GLSL.fmul GLSL.fdiv RFloat].
      rewrite lit_2. reflexivity. }
    assert (Hadv : GLSL.frameDraggingOmega r theta M a
                   = if RealMath.Rltb (GLSL.metricA r theta M a) 1e-6 then 0
                     else 2 * a * M * r / GLSL.metricA r theta M a).
    { unfold GLSL.frameDraggingOmega, GLSL.metricA, GLSL.delta. cbv zeta.
      cbn [GLSL.fadd GLSL.fsub GLSL.fmul GLSL.fdiv GLSL.fsin GLSL.flt RFloat].
      rewrite EPSILON_R, lit_0, lit_2. reflexivity. }
    subst omega. rewrite Ho, Hadv.
    destruct (quotient_sign a M r _ HM Hr HA0) as (H1 & H2 & H3).
    split; [exact HA0 | split; [exact H1 | split; [exact H2 | split; [exact H3 |]]]].
    split; intros H; [rewrite Rltb_false by exact H | rewrite Rltb_true by exact H];
      reflexivity.
Qed.

(** [acos] does not increase on [[-1, 1]]. *)
Lemma acos_decreasing :
  forall x y, -1 <= x <= 1 -> -1 <= y <= 1 -> x <= y -> acos y <= acos x.
Proof.
  intros x y Hx Hy Hxy.
  destruct (Rle_dec (acos y) (acos x)) as [H | H]; [exact H | exfalso].
  assert (Hlt : acos x < acos y) by lra.
  pose proof (acos_bound x). pose proof (acos_bound y).
  assert (cos (acos y) < cos (acos x)) by (apply cos_decreasing_1; lra).
  rewrite !cos_acos in * by assumption. lra.
Qed.

(** The cosine in the photon-orbit formula lies in [[-1/2, 1]]. *)
Lemma photon_cosine_bounds :
  forall chi, -1 <= chi <= 1 ->
    - (1 / 2) <= cos (2 / 3 * acos (- chi)) <= 1.
Proof.
  intros chi Hc. pose proof (acos_bound (- chi)) as [H0 H1].
  pose proof PI_RGT_0.
  split; [| apply COS_bound].
  replace (- (1 / 2)) with (cos (2 * (PI / 3))) by (rewrite cos_2PI3; lra).
  apply cos_decr_1; lra.
Qed.

(** The clamped dimensionless spin lies in [[-1, 1]]. *)
Lemma chi_clamped : forall x, -1 <= Rmax (-1) (Rmin 1 x) <= 1.
Proof.
  intros x. split; [apply Rmax_l |].
  apply Rmax_lub; [lra | apply Rmin_l].
Qed.

(** [photonSphereRadius] outside the Schwarzschild branch. *)
Lemma photonSphereRadius_far :
  forall this : KerrMetric.t,
    EPSILON <= Rabs (KerrMetric.a this) ->
    KerrMetric.photonSphereRadius this
    = 2 * KerrMetric.M this
      * (1 + cos (2 / 3 * acos (- Rmax (-1)
                    (Rmin 1 (KerrMetric.a this / KerrMetric.M this))))).
Proof.
  intros this H. unfold KerrMetric.photonSphereRadius, Math.abs.
  destruct (Rlt_dec _ _); [exfalso; lra | reflexivity].
Qed.

(** X12. [photonSphereRadius] of a constructed [KerrMetric] lies in
    [[M, 4 M]]; it is [3 M] for [|a| < EPSILON], [M] for [a = M] and [4 M]
    for [a = -M] (when [M >= EPSILON]); for a fixed mass it does not
    increase with the spin over [|a| >= EPSILON].  The shader's
    [photonSphereRadius] also lies in [[M, 4 M]] for [M >= 0]. *)
Theorem X12_photon_sphere_between_M_and_4M :
  (forall (mass spin : R) (this : KerrMetric.t),
     KerrMetric.constructor (Some mass) (Some spin) = Normal this ->
     KerrMetric.M this <= KerrMetric.photonSphereRadius this <= 4 * KerrMetric.M this
     /\ (Rabs (KerrMetric.a this) < EPSILON ->
         KerrMetric.photonSphereRadius this = 3 * KerrMetric.M this)
     /\ (EPSILON <= KerrMetric.M this -> KerrMetric.a this = KerrMetric.M this ->
         KerrMetric.photonSphereRadius this = KerrMetric.M this)
     /\ (EPSILON <= KerrMetric.M this -> KerrMetric.a this = - KerrMetric.M this ->
         KerrMetric.photonSphereRadius this = 4 * KerrMetric.M this))
  /\
  (forall (this1 this2 : KerrMetric.t),
     KerrMetric.M this1 = KerrMetric.M this2 -> 0 < KerrMetric.M this1 ->
     EPSILON <= Rabs (KerrMetric.a this1) -> EPSILON <= Rabs (KerrMetric.a this2) ->
     KerrMetric.a this1 <= KerrMetric.a this2 ->
     KerrMetric.photonSphereRadius this2 <= KerrMetric.photonSphereRadius this1)
  /\
  (forall M a : R, 0 <= M ->
     M <= GLSL.photonSphereRadius M a <= 4 * M).
Proof.
  split; [| split].
  - intros mass spin this Hc.
    destruct (constructor_invariant _ _ _ Hc) as (HM & Ha & Ha2).
    assert (Hnear : Rabs (KerrMetric.a this) < EPSILON ->
                    KerrMetric.photonSphereRadius this = 3 * KerrMetric.M this).
    { intros H. unfold KerrMetric.photonSphereRadius, Math.abs.
      destruct (Rlt_dec _ _); [reflexivity | contradiction]. }
    split; [| split; [exact Hnear | split]].
    + destruct (Rlt_dec (Rabs (KerrMetric.a this)) EPSILON) as [H | H].
      * rewrite (Hnear H). lra.
      * rewrite photonSphereRadius_far by lra.
        pose proof (photon_cosine_bounds _
                      (chi_clamped (KerrMetric.a this / KerrMetric.M this))).
        nra.
    + intros HE HaM. rewrite photonSphereRadius_far
        by (rewrite HaM, Rabs_pos_eq by lra; exact HE).
      rewrite HaM. replace (KerrMetric.M this / KerrMetric.M this) with 1 by (field; lra).
      rewrite Rmin_left by lra. rewrite Rmax_right by lra.
      rewrite acos_opp, acos_1.
      replace (2 / 3 * (PI - 0)) with (2 * (PI / 3)) by field.
      rewrite cos_2PI3. field.
    + intros HE HaM. rewrite photonSphereRadius_far
        by (rewrite HaM, Rabs_Ropp, Rabs_pos_eq by lra; exact HE).
      rewrite HaM. replace (- KerrMetric.M this / KerrMetric.M this) with (-1) by (field; lra).
      rewrite Rmin_right by lra. rewrite Rmax_left by lra.
      replace (- -1) with 1 by lra.
      rewrite acos_1, Rmult_0_r, cos_0. ring.
  - intros this1 this2 HMeq HM H1 H2 H12.
    rewrite !photonSphereRadius_far by assumption. rewrite <- HMeq.
    set (M := KerrMetric.M this1) in *.
    assert (Hq : KerrMetric.a this1 / M <= KerrMetric.a this2 / M).
    { unfold Rdiv. apply Rmult_le_compat_r; [left; apply Rinv_0_lt_compat; exact HM | exact H12]. }
    pose proof (chi_clamped (KerrMetric.a this1 / M)) as C1.
    pose proof (chi_clamped (KerrMetric.a this2 / M)) as C2.
    assert (Hchi : Rmax (-1) (Rmin 1 (KerrMetric.a this1 / M))
                   <= Rmax (-1) (Rmin 1 (KerrMetric.a this2 / M))).
    { apply Rle_max_compat_l. apply Rle_min_compat_l. exact Hq. }
    set (c1 := Rmax (-1) (Rmin 1 (KerrMetric.a this1 / M))) in *.
    set (c2 := Rmax (-1) (Rmin 1 (KerrMetric.a this2 / M))) in *.
    assert (Hac : acos (- c1) <= acos (- c2)) by (apply acos_decreasing; lra).
    pose proof (acos_bound (- c1)). pose proof (acos_bound (- c2)).
    pose proof PI_RGT_0.
    assert (cos (2 / 3 * acos (- c2)) <= cos (2 / 3 * acos (- c1)))
      by (apply cos_decr_1; lra).
    nra.
  - intros M a HM. unfold GLSL.photonSphereRadius.
    cbn [GLSL.fabs GLSL.flt GLSL.fmul GLSL.fadd GLSL.fdiv GLSL.fneg GLSL.fcos GLSL.facos
         RFloat].
    destruct (RealMath.Rltb (Rabs a) GLSL.EPSILON).
    + replace (GLSL.lit (F := R) 3) with 3 by (rlit; lra). lra.
    + rewrite clamp_R, lit_1, lit_2, lit_m1.
      replace (GLSL.lit (F := R) 3) with 3 by (rlit; lra).
      assert (Hc : -1 <= Rmin (Rmax (a / M) (-1)) 1 <= 1).
      { split; [apply Rmin_glb; [apply Rmax_r | lra] | apply Rmin_r]. }
      pose proof (photon_cosine_bounds _ Hc). nra.
Qed.

(** [new KerrMetric(m, s)] succeeds for a positive mass and [|s| <= m]. *)
Lemma constructor_accepts :
  forall m s : R, 0 < m -> Rabs s <= m ->
    KerrMetric.constructor (Some m) (Some s) = Normal (KerrMetric.mk m s (s * s)).
Proof.
  intros m s Hm Hs.
  unfold KerrMetric.constructor, KerrMetric.setParameters, Math.abs.
  destruct (Rle_dec m 0) as [H | _]; [exfalso; lra |].
  destruct (Rgt_dec (Rabs s) m) as [H | _]; [exfalso; lra | reflexivity].
Qed.

(** [|1| = 1]. *)
Lemma Rabs_one : Rabs 1 = 1.
Proof. apply Rabs_pos_eq; lra. Qed.

(** The event horizon of the extremal hole [M = 1], [a = 1]. *)
Lemma extremal_horizon :
  KerrMetric.eventHorizonRadius (KerrMetric.mk 1 1 (1 * 1)) = 1.
Proof.
  unfold KerrMetric.eventHorizonRadius, Math.sqrt, Math.max.
  cbn [KerrMetric.M KerrMetric.a2].
  replace (1 * 1 - 1 * 1) with 0 by lra.
  rewrite Rmax_left by lra. rewrite sqrt_0. lra.
Qed.

(** Witness for X9: the theorem at concrete parameters. *)
Lemma X9_witness :
  let this := KerrMetric.mk 1 1 (1 * 1) in
  (KerrMetric.innerHorizonRadius this + KerrMetric.eventHorizonRadius this = 2 * 1
   /\ KerrMetric.innerHorizonRadius this * KerrMetric.eventHorizonRadius this = 1 * 1
   /\ forall r, KerrMetric.delta this r
                = (r - KerrMetric.eventHorizonRadius this)
                  * (r - KerrMetric.innerHorizonRadius this))
  /\ GLSL.innerHorizonRadius 1 0.6 * GLSL.eventHorizonRadius 1 0.6 = 0.6 * 0.6
  /\ GLSL.eventHorizonRadius 1 2 = 1.
Proof.
  intros this.
  destruct X9_horizon_radii_are_the_roots_of_delta as [Hjs Hgl].
  assert (Hc : KerrMetric.constructor (Some 1) (Some 1) = Normal this).
  { apply constructor_accepts; [lra | rewrite Rabs_one; lra]. }
  destruct (Hjs 1 1 this Hc) as (H1 & H2 & _ & _ & H5 & _).
  split; [split; [exact H1 | split; [exact H2 | exact H5]] |].
  split.
  - destruct (Hgl 1 0.6) as (_ & _ & H & _).
    apply H; lra.
  - destruct (Hgl 1 2) as (_ & _ & _ & H).
    apply H; lra.
Defined.

(** Witness for X10: the theorem at concrete parameters. *)
Lemma X10_witness :
  let this := KerrMetric.mk 1 1 (1 * 1) in
  let still := KerrMetric.mk 1 0 (0 * 0) in
  KerrMetric.ergosphereRadius this (Math.PI / 2) = 2 * 1
  /\ KerrMetric.isInErgosphere this 1.5 (Math.PI / 2) = true
  /\ KerrMetric.isInsideHorizon this 1.5 = false
  /\ KerrMetric.isInErgosphere still 1.5 (Math.PI / 2) = false
  /\ GLSL.ergosphereRadius 0 2 1 <= 2 * 2
  /\ GLSL.ergosphereRadiusAtTheta 0 2 1 = GLSL.ergosphereRadius 0 2 1
  /\ GLSL.isInErgosphere 3 0 1 0 = false.
Proof.
  intros this still.
  destruct X10_ergosphere_lies_between_horizon_and_2M as [Hjs Hgl].
  assert (Hc : KerrMetric.constructor (Some 1) (Some 1) = Normal this).
  { apply constructor_accepts; [lra | rewrite Rabs_one; lra]. }
  assert (Hc0 : KerrMetric.constructor (Some 1) (Some 0) = Normal still).
  { apply constructor_accepts; [lra | rewrite Rabs_R0; lra]. }
  destruct (Hjs 1 1 this Hc) as (_ & _ & HE & Hin & _).
  destruct (Hjs 1 0 still Hc0) as (_ & _ & _ & _ & _ & Hz & _).
  assert (Hi : KerrMetric.isInErgosphere this 1.5 (Math.PI / 2) = true).
  { unfold KerrMetric.isInErgosphere. cbv zeta.
    rewrite HE. unfold this. rewrite extremal_horizon.
    rewrite Rleb_true, Rltb_true by (cbn [KerrMetric.M]; lra). reflexivity. }
  split; [exact HE | split; [exact Hi | split; [exact (proj1 (Hin _ _ Hi)) |]]].
  split; [apply Hz; reflexivity |].
  destruct (Hgl 0 2 1) as (_ & H2 & H3 & _).
  split; [apply H2; lra | split].
  - apply H3. rewrite cos_0. lra.
  - destruct (Hgl 0 1 0) as (_ & _ & _ & _ & H5). apply H5. reflexivity.
Defined.

(** Witness for X11: the theorem at concrete parameters. *)
Lemma X11_witness :
  0 < KerrMetric.frameDraggingOmega (KerrMetric.mk 1 1 (1 * 1)) 3 (Math.PI / 2)
  /\ KerrMetric.frameDraggingOmega (KerrMetric.mk 1 (-1) (-1 * -1)) 3 (Math.PI / 2) < 0
  /\ KerrMetric.frameDraggingOmega (KerrMetric.mk 1 0 (0 * 0)) 3 (Math.PI / 2) = 0
  /\ 0 < GLSL.frameDragging 3 (Rtrigo1.PI / 2) 1 0.5
  /\ GLSL.frameDragging 3 (Rtrigo1.PI / 2) 1 (-0.5) < 0
  /\ GLSL.frameDragging 3 (Rtrigo1.PI / 2) 1 0 = 0.
Proof.
  destruct X11_frame_dragging_follows_the_spin as [Hjs Hgl].
  assert (Hm1 : Rabs (-1) = 1) by (unfold Rabs; destruct (Rcase_abs (-1)); lra).
  assert (Hc : KerrMetric.constructor (Some 1) (Some 1)
               = Normal (KerrMetric.mk 1 1 (1 * 1))).
  { apply constructor_accepts; [lra | rewrite Rabs_one; lra]. }
  assert (Hcm : KerrMetric.constructor (Some 1) (Some (-1))
                = Normal (KerrMetric.mk 1 (-1) (-1 * -1))).
  { apply constructor_accepts; [lra | rewrite Hm1; lra]. }
  assert (Hc0 : KerrMetric.constructor (Some 1) (Some 0)
                = Normal (KerrMetric.mk 1 0 (0 * 0))).
  { apply constructor_accepts; [lra | rewrite Rabs_R0; lra]. }
  assert (H3 : 0 < 3) by lra. assert (H1 : 0 < 1) by lra.
  split; [apply (Hjs 1 1 _ 3 (Math.PI / 2) Hc H3); cbn [KerrMetric.a]; lra |].
  split; [apply (Hjs 1 (-1) _ 3 (Math.PI / 2) Hcm H3); cbn [KerrMetric.a]; lra |].
  split; [apply (Hjs 1 0 _ 3 (Math.PI / 2) Hc0 H3); reflexivity |].
  split; [apply (Hgl 3 (Rtrigo1.PI / 2) 1 0.5 H1 H3); lra |].
  split; [apply (Hgl 3 (Rtrigo1.PI / 2) 1 (-0.5) H1 H3); lra |].
  apply (Hgl 3 (Rtrigo1.PI / 2) 1 0 H1 H3); reflexivity.
Defined.

(** Witness for X12: the theorem at concrete parameters. *)
Lemma X12_witness :
  KerrMetric.photonSphereRadius (KerrMetric.mk 1 0 (0 * 0)) = 3 * 1
  /\ KerrMetric.photonSphereRadius (KerrMetric.mk 1 1 (1 * 1)) = 1
  /\ KerrMetric.photonSphereRadius (KerrMetric.mk 1 (-1) (-1 * -1)) = 4 * 1
  /\ KerrMetric.photonSphereRadius (KerrMetric.mk 1 1 (1 * 1))
     <= KerrMetric.photonSphereRadius (KerrMetric.mk 1 (-1) (-1 * -1))
  /\ 1 <= GLSL.photonSphereRadius 1 0.5 <= 4 * 1.
Proof.
  destruct X12_photon_sphere_between_M_and_4M as (Hjs & Hmono & Hgl).
  assert (Hm1 : Rabs (-1) = 1) by (unfold Rabs; destruct (Rcase_abs (-1)); lra).
  assert (Hc : KerrMetric.constructor (Some 1) (Some 1)
               = Normal (KerrMetric.mk 1 1 (1 * 1))).
  { apply constructor_accepts; [lra | rewrite Rabs_one; lra]. }
  assert (Hcm : KerrMetric.constructor (Some 1) (Some (-1))
                = Normal (KerrMetric.mk 1 (-1) (-1 * -1))).
  { apply constructor_accepts; [lra | rewrite Hm1; lra]. }
  assert (Hc0 : KerrMetric.constructor (Some 1) (Some 0)
                = Normal (KerrMetric.mk 1 0 (0 * 0))).
  { apply constructor_accepts; [lra | rewrite Rabs_R0; lra]. }
  assert (He : EPSILON <= 1) by (unfold EPSILON; lra).
  split; [apply (Hjs 1 0 _ Hc0); cbn [KerrMetric.a]; rewrite Rabs_R0;
          unfold EPSILON; lra |].
  split; [apply (Hjs 1 1 _ Hc); [exact He | reflexivity] |].
  split; [apply (Hjs 1 (-1) _ Hcm); [exact He | reflexivity] |].
  split.
  - apply Hmono; cbn [KerrMetric.M KerrMetric.a];
      rewrite ?Hm1, ?Rabs_one; unfold EPSILON; try reflexivity; lra.
  - apply Hgl. lra.
Defined.

End KerrRadii.

Section IscoProperties.

Import JS.
Local Open Scope R_scope.

(** The two auxiliary quantities of the ISCO formula depend on the spin
    only through its absolute value. *)
Lemma isco_Z1_even :
  forall chi, -1 <= chi <= 1 ->
    RealMath.pow (1 - - chi * - chi) (1 / 3)
    * (RealMath.pow (1 + - chi) (1 / 3) + RealMath.pow (Rabs (1 - - chi)) (1 / 3))
    = RealMath.pow (1 - chi * chi) (1 / 3)
      * (RealMath.pow (1 + chi) (1 / 3) + RealMath.pow (Rabs (1 - chi)) (1 / 3)).
Proof.
  intros chi Hc.
  replace (1 - - chi * - chi) with (1 - chi * chi) by ring.
  replace (1 - - chi) with (1 + chi) by ring.
  replace (1 + - chi) with (1 - chi) by ring.
  rewrite (Rabs_pos_eq (1 + chi)) by lra.
  rewrite (Rabs_pos_eq (1 - chi)) by lra.
  ring.
Qed.

(** The dimensionless spin of valid parameters lies in [[-1, 1]]. *)
Lemma chi_range :
  forall M a, 0 < M -> Rabs a <= M -> -1 <= a / M <= 1.
Proof.
  intros M a HM Ha.
  assert (H1 : - M <= a <= M) by (unfold Rabs in Ha; destruct (Rcase_abs a); lra).
  split.
  - apply Rmult_le_reg_r with M; [lra |].
    replace (a / M * M) with a by (field; lra). lra.
  - apply Rmult_le_reg_r with M; [lra |].
    replace (a / M * M) with a by (field; lra). lra.
Qed.

(** [Math.pow(1, 1/3) = 1]. *)
Lemma pow_one_third_1 : RealMath.pow 1 (1 / 3) = 1.
Proof.
  rewrite pow_pos_base by lra. unfold Rpower. rewrite ln_1, Rmult_0_r. apply exp_0.
Qed.

(** X13. [iscoRadius] and [iscoRadiusRetrograde] depend on the spin only
    through [|a|]: both are unchanged when [a] is replaced by [-a].  For a
    constructed metric [iscoRadius <= iscoRadiusRetrograde],
    [AccretionDisk.calculateISCO] computes the same value as
    [KerrMetric.iscoRadius], both radii are [6 M] at [a = 0], and they are
    [M] and [9 M] at [|a| = M]. *)
Theorem X13_isco_radii_ignore_the_spin_direction :
  (forall this this' : KerrMetric.t,
     KerrMetric.M this' = KerrMetric.M this ->
     KerrMetric.a this' = - KerrMetric.a this ->
     0 < KerrMetric.M this -> Rabs (KerrMetric.a this) <= KerrMetric.M this ->
     KerrMetric.iscoRadius this' = KerrMetric.iscoRadius this
     /\ KerrMetric.iscoRadiusRetrograde this' = KerrMetric.iscoRadiusRetrograde this)
  /\
  (forall (mass spin : R) (this : KerrMetric.t),
     KerrMetric.constructor (Some mass) (Some spin) = Normal this ->
     KerrMetric.iscoRadius this <= KerrMetric.iscoRadiusRetrograde this
     /\ AccretionDisk.calculateISCO (KerrMetric.M this) (KerrMetric.a this)
        = KerrMetric.iscoRadius this
     /\ (KerrMetric.a this = 0 ->
         KerrMetric.iscoRadius this = 6 * KerrMetric.M this
         /\ KerrMetric.iscoRadiusRetrograde this = 6 * KerrMetric.M this)
     /\ (Rabs (KerrMetric.a this) = KerrMetric.M this ->
         KerrMetric.iscoRadius this = KerrMetric.M this
         /\ KerrMetric.iscoRadiusRetrograde this = 9 * KerrMetric.M this)).
Proof.
  split.
  - intros this this' HM' Ha' HM Ha.
    pose proof (chi_range _ _ HM Ha) as Hchi.
    unfold KerrMetric.iscoRadius, KerrMetric.iscoRadiusRetrograde,
      Math.pow, Math.sqrt, Math.abs. cbv zeta.
    rewrite HM', Ha'.
    replace (- KerrMetric.a this / KerrMetric.M this)
      with (- (KerrMetric.a this / KerrMetric.M this)) by (field; lra).
    set (chi := KerrMetric.a this / KerrMetric.M this) in *.
    rewrite (isco_Z1_even chi Hchi).
    replace (- chi * - chi) with (chi * chi) by ring.
    split; reflexivity.
  - intros mass spin this Hc.
    destruct (constructor_invariant _ _ _ Hc) as (HM & Ha & Ha2).
    split; [| split; [reflexivity | split]].
    + unfold KerrMetric.iscoRadius, KerrMetric.iscoRadiusRetrograde, Math.sqrt.
      cbv zeta.
      match goal with |- _ * (_ - sqrt ?u) <= _ => pose proof (sqrt_pos u) end.
      nra.
    + intros H0.
      unfold KerrMetric.iscoRadius, KerrMetric.iscoRadiusRetrograde,
        Math.pow, Math.sqrt, Math.abs. cbv zeta. rewrite H0.
      replace (0 / KerrMetric.M this) with 0 by (field; lra).
      replace (1 - 0 * 0) with 1 by lra. replace (1 + 0) with 1 by lra.
      replace (1 - 0) with 1 by lra. rewrite Rabs_R1, pow_one_third_1.
      replace (3 * (0 * 0) + (1 + 1 * (1 + 1)) * (1 + 1 * (1 + 1))) with (3 * 3) by lra.
      rewrite sqrt_square by lra.
      replace ((3 - (1 + 1 * (1 + 1))) * (3 + (1 + 1 * (1 + 1)) + 2 * 3)) with 0 by lra.
      rewrite sqrt_0. split; ring.
    + intros HaM.
      assert (Hpow0 : RealMath.pow 0 (1 / 3) = 0) by (apply pow_zero_base; lra).
      assert (Hchi2 : KerrMetric.a this / KerrMetric.M this
                      * (KerrMetric.a this / KerrMetric.M this) = 1).
      { assert (KerrMetric.a this * KerrMetric.a this
                = KerrMetric.M this * KerrMetric.M this).
        { rewrite <- HaM. unfold Rabs. destruct (Rcase_abs _); ring. }
        field_simplify_eq; lra. }
      unfold KerrMetric.iscoRadius, KerrMetric.iscoRadiusRetrograde,
        Math.pow, Math.sqrt, Math.abs. cbv zeta.
      rewrite Hchi2. replace (1 - 1) with 0 by lra. rewrite Hpow0, Rmult_0_l.
      replace (3 * 1 + (1 + 0) * (1 + 0)) with 4 by lra. rewrite sqrt_4.
      replace ((3 - (1 + 0)) * (3 + (1 + 0) + 2 * 2)) with 16 by lra. rewrite sqrt_16.
      split; ring.
Qed.

(** Witness for X13: the theorem at concrete parameters. *)
Lemma X13_witness :
  let pro := KerrMetric.mk 1 0.5 (0.5 * 0.5) in
  let retro := KerrMetric.mk 1 (-0.5) (-0.5 * -0.5) in
  KerrMetric.iscoRadius retro = KerrMetric.iscoRadius pro
  /\ KerrMetric.iscoRadius pro <= KerrMetric.iscoRadiusRetrograde pro
  /\ KerrMetric.iscoRadius (KerrMetric.mk 1 0 (0 * 0)) = 6 * 1
  /\ KerrMetric.iscoRadius (KerrMetric.mk 1 1 (1 * 1)) = 1
  /\ KerrMetric.iscoRadiusRetrograde (KerrMetric.mk 1 1 (1 * 1)) = 9 * 1.
Proof.
  intros pro retro.
  destruct X13_isco_radii_ignore_the_spin_direction as [Heven Hjs].
  assert (Hh : Rabs 0.5 = 0.5) by (apply Rabs_pos_eq; lra).
  assert (Hc : KerrMetric.constructor (Some 1) (Some 0.5) = Normal pro).
  { apply constructor_accepts; [lra | rewrite Hh; lra]. }
  assert (Hc0 : KerrMetric.constructor (Some 1) (Some 0)
                = Normal (KerrMetric.mk 1 0 (0 * 0))).
  { apply constructor_accepts; [lra | rewrite Rabs_R0; lra]. }
  assert (Hc1 : KerrMetric.constructor (Some 1) (Some 1)
                = Normal (KerrMetric.mk 1 1 (1 * 1))).
  { apply constructor_accepts; [lra | rewrite Rabs_one; lra]. }
  split.
  - assert (He : KerrMetric.iscoRadius retro = KerrMetric.iscoRadius pro
                 /\ KerrMetric.iscoRadiusRetrograde retro
                    = KerrMetric.iscoRadiusRetrograde pro).
    { apply (Heven pro retro); unfold pro, retro; cbn [KerrMetric.M KerrMetric.a];
        rewrite ?Hh; try reflexivity; lra. }
    exact (proj1 He).
  - split; [apply (Hjs 1 0.5 pro Hc) |].
    split; [apply (Hjs 1 0 _ Hc0); reflexivity |].
    destruct (Hjs 1 1 _ Hc1) as (_ & _ & _ & H).
    apply H. cbn [KerrMetric.M KerrMetric.a]. apply Rabs_one.
Defined.

End IscoProperties.

Section InverseRoundTrip.

Import JS.
Local Open Scope R_scope.






End InverseRoundTrip.

(* ====================================================================== *)
(** * Part XIV.  Kinematics and temperature of the accretion disk         *)
(* ====================================================================== *)

Section DiskKinematics.

Import JS.
Local Open Scope R_scope.

Ltac rlit := cbn [GLSL.lit RFloat]; unfold Q2R; cbn.

(** [r^(3/2)] increases strictly on the positive reals. *)
Lemma r15_increasing :
  forall r1 r2, 0 < r1 -> r1 < r2 -> r1 * sqrt r1 < r2 * sqrt r2.
Proof.
  intros r1 r2 H1 H12.
  assert (0 < sqrt r1) by (apply sqrt_lt_R0; lra).
  assert (sqrt r1 < sqrt r2) by (apply sqrt_lt_1; lra).
  nra.
Qed.

(** Kepler's third law for the zero-spin angular velocity [sqrt M /
    r^(3/2)] and its period. *)
Lemma kepler_core :
  forall M r, 0 < M -> 0 < r ->
    let W := sqrt M / (r * sqrt r + 0 * sqrt M) in
    W * W * (r * r * r) = M
    /\ (2 * PI / W) * (2 * PI / W) * M = 4 * (PI * PI) * (r * r * r).
Proof.
  intros M r HM Hr W.
  assert (HsM : 0 < sqrt M) by (apply sqrt_lt_R0; exact HM).
  assert (HsMM : sqrt M * sqrt M = M) by (apply sqrt_sqrt; lra).
  assert (Hsr : 0 < sqrt r) by (apply sqrt_lt_R0; exact Hr).
  assert (Hsrr : sqrt r * sqrt r = r) by (apply sqrt_sqrt; lra).
  assert (HW : W = sqrt M / (r * sqrt r)) by (unfold W; f_equal; ring).
  set (m := sqrt M) in *. set (q := sqrt r) in *. clearbody m q W.
  assert (Hrq : r * q <> 0) by nra.
  rewrite HW. split.
  - replace (m / (r * q) * (m / (r * q)) * (r * r * r))
      with ((m * m) * r / (q * q)) by (field; split; lra).
    rewrite HsMM, Hsrr. field. lra.
  - replace (2 * PI / (m / (r * q)) * (2 * PI / (m / (r * q))) * M)
      with (4 * (PI * PI) * (r * r) * (q * q) * M / (m * m)) by (field; repeat split; lra).
    rewrite HsMM, Hsrr. field. lra.
Qed.

(** X15. [keplerianOmega] of a disk with [M > 0], [a >= 0] is positive and
    strictly decreasing in [r > 0]; at [a = 0] it obeys Kepler's third law,
    [Omega^2 r^3 = M], and the period reported by [getPropertiesAt]
    satisfies [T^2 M = 4 pi^2 r^3].  The shader's [keplerianOmega] is the
    same expression. *)
Theorem X15_keplerian_rotation_law :
  (forall (this : AccretionDisk.t) (r : R),
     0 < AccretionDisk.M this -> 0 <= AccretionDisk.a this -> 0 < r ->
     0 < AccretionDisk.keplerianOmega this r
     /\ (forall r', r < r' ->
          AccretionDisk.keplerianOmega this r' < AccretionDisk.keplerianOmega this r)
     /\ (AccretionDisk.a this = 0 ->
         AccretionDisk.keplerianOmega this r * AccretionDisk.keplerianOmega this r
           * (r * r * r) = AccretionDisk.M this
         /\ AccretionDisk.p_keplerianPeriod (AccretionDisk.getPropertiesAt this r)
            * AccretionDisk.p_keplerianPeriod (AccretionDisk.getPropertiesAt this r)
            * AccretionDisk.M this
            = 4 * (PI * PI) * (r * r * r)))
  /\
  (forall (this : AccretionDisk.t) (r : R),
     GLSL.keplerianOmega r (AccretionDisk.M this) (AccretionDisk.a this)
     = AccretionDisk.keplerianOmega this r).
Proof.
  split; [| reflexivity].
  intros this r HM Ha Hr.
  unfold AccretionDisk.keplerianOmega, Math.sqrt. cbv zeta.
  set (M := AccretionDisk.M this) in *. set (a := AccretionDisk.a this) in *.
  assert (HsM : 0 < sqrt M) by (apply sqrt_lt_R0; exact HM).
  assert (HsMM : sqrt M * sqrt M = M) by (apply sqrt_sqrt; lra).
  assert (Hsr : 0 < sqrt r) by (apply sqrt_lt_R0; exact Hr).
  assert (Hsrr : sqrt r * sqrt r = r) by (apply sqrt_sqrt; lra).
  assert (Hden : forall x, 0 < x -> 0 < x * sqrt x + a * sqrt M).
  { intros x Hx. assert (0 < sqrt x) by (apply sqrt_lt_R0; exact Hx). nra. }
  split; [apply Rdiv_lt_0_compat; [exact HsM | apply Hden; exact Hr] | split].
  - intros r' Hr'. unfold Rdiv. apply Rmult_lt_compat_l; [exact HsM |].
    apply Rinv_lt_contravar.
    + apply Rmult_lt_0_compat; apply Hden; lra.
    + pose proof (r15_increasing r r' Hr Hr'). lra.
  - intros Ha0. rewrite Ha0.
    destruct (kepler_core M r HM Hr) as [K1 K2]. split; [exact K1 |].
    unfold AccretionDisk.getPropertiesAt, AccretionDisk.keplerianOmega, Math.sqrt, Math.PI.
    cbn [AccretionDisk.p_keplerianPeriod]. fold M a. rewrite Ha0. exact K2.
Qed.

(** The pieces of [orbitalVelocity] at zero spin: the radicand of [denom]
    is [(r - 3M) / r] and the unclamped velocity squares to
    [M / (r - 3M)]. *)
Lemma orbital_core :
  forall M r, 0 < M -> 3 * M < r ->
    let omega := sqrt M / (r * sqrt r + 0 * sqrt M) in
    let sig := r * r in
    let del := r * r - 2 * M * r + 0 * 0 in
    let gtt := - (1 - 2 * M * r / sig) in
    let gtphi := - 2 * 0 * M * r / sig in
    let gphiphi := ((r * r + 0 * 0) ^ 2 - 0 * 0 * del) / sig in
    let denom := sqrt (- gtt - 2 * gtphi * omega - gphiphi * omega * omega) in
    denom * denom = (r - 3 * M) / r
    /\ 0 < denom
    /\ sqrt gphiphi * omega / denom = sqrt (M / (r - 3 * M)).
Proof.
  intros M r HM Hr omega sig del gtt gtphi gphiphi denom.
  assert (Hr0 : 0 < r) by lra.
  assert (HsM : 0 < sqrt M) by (apply sqrt_lt_R0; exact HM).
  assert (HsMM : sqrt M * sqrt M = M) by (apply sqrt_sqrt; lra).
  assert (Hsr : 0 < sqrt r) by (apply sqrt_lt_R0; exact Hr0).
  assert (Hsrr : sqrt r * sqrt r = r) by (apply sqrt_sqrt; lra).
  assert (Hg : gphiphi = r * r) by (unfold gphiphi, sig, del; field; lra).
  assert (Hom : omega * omega = M / (r * r * r)).
  { unfold omega.
    replace (sqrt M / (r * sqrt r + 0 * sqrt M) * (sqrt M / (r * sqrt r + 0 * sqrt M)))
      with ((sqrt M * sqrt M) / (r * r * (sqrt r * sqrt r)))
      by (field; nra).
    rewrite HsMM, Hsrr. reflexivity. }
  assert (Hom0 : 0 < omega) by (unfold omega; apply Rdiv_lt_0_compat; nra).
  assert (Hrad : - gtt - 2 * gtphi * omega - gphiphi * omega * omega = (r - 3 * M) / r).
  { transitivity (1 - 2 * M * r / (r * r) - gphiphi * (omega * omega)).
    - unfold gtt, gtphi, sig. field. lra.
    - rewrite Hom, Hg. field. lra. }
  assert (Hq : 0 < (r - 3 * M) / r) by (apply Rdiv_lt_0_compat; lra).
  assert (Hd2 : denom * denom = (r - 3 * M) / r).
  { unfold denom. rewrite Hrad. apply sqrt_sqrt. lra. }
  assert (Hd0 : 0 < denom) by (unfold denom; rewrite Hrad; apply sqrt_lt_R0; exact Hq).
  split; [exact Hd2 | split; [exact Hd0 |]].
  rewrite Hg, sqrt_square by lra.
  assert (Hv0 : 0 <= r * omega / denom).
  { apply Rmult_le_pos; [nra | left; apply Rinv_0_lt_compat; exact Hd0]. }
  rewrite <- (sqrt_square (r * omega / denom)) by exact Hv0.
  f_equal.
  replace (r * omega / denom * (r * omega / denom))
    with (r * r * (omega * omega) / (denom * denom)) by (field; lra).
  rewrite Hom, Hd2. field. lra.
Qed.

(** At zero spin and outside [3M] the velocity is the clamped
    Schwarzschild value. *)
Lemma orbitalVelocity_zero_spin :
  forall (this : AccretionDisk.t) (r : R),
    AccretionDisk.a this = 0 -> 0 < AccretionDisk.M this ->
    3 * AccretionDisk.M this < r ->
    AccretionDisk.orbitalVelocity this r
    = Rmin (sqrt (AccretionDisk.M this / (r - 3 * AccretionDisk.M this))) 0.999.
Proof.
  intros this r Ha HM Hr.
  unfold AccretionDisk.orbitalVelocity, AccretionDisk.keplerianOmega,
    Math.sqrt, Math.min. cbv zeta. rewrite Ha.
  destruct (orbital_core (AccretionDisk.M this) r HM Hr) as (Hd2 & Hd0 & Hv).
  cbv zeta in Hd2, Hd0, Hv.
  set (M := AccretionDisk.M this) in *.
  match goal with |- (if Rlt_dec ?d _ then _ else _) = _ => set (denom := d) in * end.
  destruct (Rlt_dec denom 1e-10) as [Hs | Hs]; [| rewrite Hv; reflexivity].
  symmetry. apply Rmin_right.
  assert (Hq : (r - 3 * M) / r < 1e-10) by nra.
  assert (Hr0 : 0 < r) by lra.
  assert (Hlt : r - 3 * M < 1e-10 * r).
  { apply Rmult_lt_reg_r with (/ r); [apply Rinv_0_lt_compat; exact Hr0 |].
    replace (1e-10 * r * / r) with 1e-10 by (field; lra). exact Hq. }
  apply Rle_trans with (sqrt (1 * 1)); [rewrite sqrt_square; lra |].
  apply sqrt_le_1; [lra | left; apply Rdiv_lt_0_compat; lra |].
  apply Rmult_le_reg_r with (r - 3 * M); [lra |].
  replace (M / (r - 3 * M) * (r - 3 * M)) with M by (field; lra). lra.
Qed.

(** At zero spin and outside [3 M] the velocity lies in [(0, 0.999]]. *)
Lemma orbitalVelocity_zero_spin_range :
  forall (this : AccretionDisk.t) (r : R),
    AccretionDisk.a this = 0 -> 0 < AccretionDisk.M this ->
    3 * AccretionDisk.M this < r ->
    0 < AccretionDisk.orbitalVelocity this r <= 0.999.
Proof.
  intros this r Ha HM Hr. rewrite orbitalVelocity_zero_spin by assumption.
  split; [apply Rmin_glb_lt; [| lra] | apply Rmin_r].
  apply sqrt_lt_R0. apply Rdiv_lt_0_compat; lra.
Qed.

(** X16. At zero spin and [r > 3 M], [orbitalVelocity] is
    [min (sqrt (M / (r - 3 M))) 0.999]: it lies in [(0, 0.999]], and from
    [r >= 4.01 M] on the ceiling is inactive and the velocity decreases
    strictly with the radius. *)
Theorem X16_schwarzschild_orbital_velocity :
  forall (this : AccretionDisk.t) (r : R),
    AccretionDisk.a this = 0 -> 0 < AccretionDisk.M this ->
    3 * AccretionDisk.M this < r ->
    AccretionDisk.orbitalVelocity this r
    = Rmin (sqrt (AccretionDisk.M this / (r - 3 * AccretionDisk.M this))) 0.999
    /\ 0 < AccretionDisk.orbitalVelocity this r <= 0.999
    /\ (4.01 * AccretionDisk.M this <= r ->
        AccretionDisk.orbitalVelocity this r
        = sqrt (AccretionDisk.M this / (r - 3 * AccretionDisk.M this))
        /\ forall r', r < r' ->
             AccretionDisk.orbitalVelocity this r' < AccretionDisk.orbitalVelocity this r).
Proof.
  intros this r Ha HM Hr.
  assert (Hexact : forall x, 4.01 * AccretionDisk.M this <= x ->
            sqrt (AccretionDisk.M this / (x - 3 * AccretionDisk.M this)) <= 0.999).
  { intros x Hx.
    apply Rle_trans with (sqrt (0.999 * 0.999)); [| rewrite sqrt_square; lra].
    apply sqrt_le_1; [left; apply Rdiv_lt_0_compat; lra | lra |].
    apply Rmult_le_reg_r with (x - 3 * AccretionDisk.M this); [lra |].
    replace (AccretionDisk.M this / (x - 3 * AccretionDisk.M this)
             * (x - 3 * AccretionDisk.M this))
      with (AccretionDisk.M this) by (field; lra).
    lra. }
  split; [apply orbitalVelocity_zero_spin; assumption | split].
  - apply orbitalVelocity_zero_spin_range; assumption.
  - intros H4. split.
    + rewrite orbitalVelocity_zero_spin by assumption.
      apply Rmin_left. apply Hexact. exact H4.
    + intros r' Hr'. rewrite !orbitalVelocity_zero_spin by (try assumption; lra).
      rewrite !Rmin_left by (apply Hexact; lra).
      apply sqrt_lt_1; [left; apply Rdiv_lt_0_compat; lra
                       | left; apply Rdiv_lt_0_compat; lra |].
      unfold Rdiv. apply Rmult_lt_compat_l; [exact HM |].
      apply Rinv_lt_contravar; [apply Rmult_lt_0_compat; lra | lra].
Qed.

(** Witness for X15: the theorem at concrete parameters. *)
Lemma X15_witness :
  let this := AccretionDisk.mk 1 0 15 1e7 6 in
  0 < AccretionDisk.keplerianOmega this 6
  /\ AccretionDisk.keplerianOmega this 10 < AccretionDisk.keplerianOmega this 6
  /\ AccretionDisk.keplerianOmega this 6 * AccretionDisk.keplerianOmega this 6
     * (6 * 6 * 6) = 1.
Proof.
  intros this.
  destruct X15_keplerian_rotation_law as [Hjs _].
  assert (HM : 0 < AccretionDisk.M this) by (cbn; lra).
  assert (Ha : 0 <= AccretionDisk.a this) by (cbn; lra).
  assert (Hr : 0 < 6) by lra.
  destruct (Hjs this 6 HM Ha Hr) as (H1 & H2 & H3).
  split; [exact H1 | split; [apply H2; lra |]].
  exact (proj1 (H3 eq_refl)).
Defined.

(** Witness for X16: the theorem at concrete parameters. *)
Lemma X16_witness :
  let this := AccretionDisk.mk 1 0 15 1e7 6 in
  AccretionDisk.orbitalVelocity this 6 = sqrt (1 / (6 - 3 * 1))
  /\ 0 < AccretionDisk.orbitalVelocity this 6 <= 0.999
  /\ AccretionDisk.orbitalVelocity this 10 < AccretionDisk.orbitalVelocity this 6.
Proof.
  intros this.
  assert (HM : 0 < AccretionDisk.M this) by (cbn; lra).
  assert (Hr : 3 * AccretionDisk.M this < 6) by (cbn; lra).
  destruct (X16_schwarzschild_orbital_velocity this 6 eq_refl HM Hr) as (_ & H2 & H3).
  assert (H4 : 4.01 * AccretionDisk.M this <= 6) by (cbn; lra).
  destruct (H3 H4) as [H5 H6].
  split; [exact H5 | split; [exact H2 | apply H6; lra]].
Defined.

End DiskKinematics.

Section DiskShifts.

Import JS.
Local Open Scope R_scope.

Ltac rlit := cbn [GLSL.lit RFloat]; unfold Q2R; cbn.

(** [sqrt 1e-10 = 1e-5]. *)
Lemma sqrt_1em10 : sqrt 1e-10 = 1e-5.
Proof. replace 1e-10 with (1e-5 * 1e-5) by lra. apply sqrt_square; lra. Qed.

(** [sqrt 1e-6 = 1e-3]. *)
Lemma sqrt_1em6 : sqrt 1e-6 = 1e-3.
Proof. replace 1e-6 with (1e-3 * 1e-3) by lra. apply sqrt_square; lra. Qed.

(** [gravitationalRedshift] is the square root of the floored radicand. *)
Lemma redshift_unfold :
  forall this r, r <> 0 ->
    AccretionDisk.gravitationalRedshift this r
    = sqrt (Rmax (1 - 2 * AccretionDisk.M this / r) 1e-10).
Proof.
  intros this r Hr. unfold AccretionDisk.gravitationalRedshift, Math.sqrt, Math.max.
  cbv zeta. do 2 f_equal. field. exact Hr.
Qed.

(** X17. [AccretionDisk.gravitationalRedshift] lies in [[1e-5, 1]] for
    [M >= 0], [r > 0], equals [sqrt (1 - 2 M / r)] where that radicand is
    at least [1e-10], and does not decrease with [r].  The shader's
    [gravitationalRedshift] is at least [1e-3], at most 1 for [Sigma > 0],
    and agrees with the host at [a = 0] where [1 - 2 M / r >= 1e-6]. *)
Theorem X17_gravitational_redshift_range :
  (forall (this : AccretionDisk.t) (r : R),
     0 <= AccretionDisk.M this -> 0 < r ->
     1e-5 <= AccretionDisk.gravitationalRedshift this r <= 1
     /\ (1e-10 <= 1 - 2 * AccretionDisk.M this / r ->
         AccretionDisk.gravitationalRedshift this r
         = sqrt (1 - 2 * AccretionDisk.M this / r))
     /\ (forall r', r <= r' ->
          AccretionDisk.gravitationalRedshift this r
          <= AccretionDisk.gravitationalRedshift this r'))
  /\
  (forall r theta M a : R,
     1e-3 <= GLSL.gravitationalRedshift r theta M a
     /\ (0 <= M -> 0 <= r -> 0 < GLSL.sigma r theta a ->
         GLSL.gravitationalRedshift r theta M a <= 1)
     /\ (a = 0 -> r <> 0 -> 1e-6 <= 1 - 2 * M / r ->
         forall this : AccretionDisk.t, AccretionDisk.M this = M ->
           GLSL.gravitationalRedshift r theta M a
           = AccretionDisk.gravitationalRedshift this r)).
Proof.
  split.
  - intros this r HM Hr.
    assert (Hu : forall x, 0 < x ->
               AccretionDisk.gravitationalRedshift this x
               = sqrt (Rmax (1 - 2 * AccretionDisk.M this / x) 1e-10)).
    { intros x Hx. apply redshift_unfold. lra. }
    assert (Hq : forall x, 0 < x -> 0 <= 2 * AccretionDisk.M this / x).
    { intros x Hx. apply Rmult_le_pos; [lra | left; apply Rinv_0_lt_compat; exact Hx]. }
    split; [| split].
    + rewrite Hu by exact Hr. split.
      * rewrite <- sqrt_1em10. apply sqrt_le_1; [lra | | apply Rmax_r].
        apply Rle_trans with 1e-10; [lra | apply Rmax_r].
      * apply Rle_trans with (sqrt 1); [| rewrite sqrt_1; lra].
        apply sqrt_le_1; [| lra |].
        -- apply Rle_trans with 1e-10; [lra | apply Rmax_r].
        -- apply Rmax_lub; [specialize (Hq r Hr); lra | lra].
    + intros H. rewrite Hu by exact Hr. rewrite Rmax_left by exact H. reflexivity.
    + intros r' Hr'. rewrite !Hu by lra.
      apply sqrt_le_1.
      * apply Rle_trans with 1e-10; [lra | apply Rmax_r].
      * apply Rle_trans with 1e-10; [lra | apply Rmax_r].
      * apply Rle_max_compat_r.
        assert (2 * AccretionDisk.M this / r' <= 2 * AccretionDisk.M this / r); [| lra].
        unfold Rdiv. apply Rmult_le_compat_l; [lra |].
        apply Rinv_le_contravar; lra.
  - intros r theta M a.
    assert (Hu : GLSL.gravitationalRedshift r theta M a
                 = sqrt (Rmax (1 - 2 * M * r / GLSL.sigma r theta a) 1e-6)).
    { unfold GLSL.gravitationalRedshift. cbv zeta.
      cbn [GLSL.fsub GLSL.fmul GLSL.fdiv GLSL.fsqrt RFloat].
      rewrite max_R, lit_1, lit_2, EPSILON_R. reflexivity. }
    split; [| split].
    + rewrite Hu, <- sqrt_1em6. apply sqrt_le_1; [lra | | apply Rmax_r].
      apply Rle_trans with 1e-6; [lra | apply Rmax_r].
    + intros HM Hr HS. rewrite Hu.
      apply Rle_trans with (sqrt 1); [| rewrite sqrt_1; lra].
      apply sqrt_le_1; [| lra |].
      * apply Rle_trans with 1e-6; [lra | apply Rmax_r].
      * apply Rmax_lub; [| lra].
        assert (0 <= 2 * M * r / GLSL.sigma r theta a); [| lra].
        apply Rmult_le_pos; [nra | left; apply Rinv_0_lt_compat; exact HS].
    + intros Ha Hr H this HMt. rewrite Hu, redshift_unfold by exact Hr.
      rewrite HMt, Ha. unfold GLSL.sigma. cbv zeta.
      cbn [GLSL.fadd GLSL.fmul GLSL.fcos RFloat].
      replace (2 * M * r / (r * r + 0 * 0 * cos theta * cos theta)) with (2 * M / r)
        by (field; exact Hr).
      rewrite !Rmax_left by lra. reflexivity.
Qed.

(** X18. For an orbital velocity [0 < v < 1] the Doppler factors of
    approach and recession are reciprocal,
    [dopplerFactor 0 * dopplerFactor pi = 1]; the transverse factor is
    [sqrt (1 - v^2) < 1]; and every angle gives a factor between those of
    recession and approach. *)
Theorem X18_doppler_factor_symmetry :
  forall (this : AccretionDisk.t) (r : R),
    let v := AccretionDisk.orbitalVelocity this r in
    0 < v < 1 ->
    AccretionDisk.dopplerFactor this r 0 * AccretionDisk.dopplerFactor this r Math.PI = 1
    /\ AccretionDisk.dopplerFactor this r (Math.PI / 2) = sqrt (1 - v * v)
    /\ AccretionDisk.dopplerFactor this r (Math.PI / 2) < 1
    /\ forall angle,
         AccretionDisk.dopplerFactor this r Math.PI
         <= AccretionDisk.dopplerFactor this r angle
         <= AccretionDisk.dopplerFactor this r 0.
Proof.
  intros this r v [Hv0 Hv1].
  assert (Hpos : 0 < 1 - v * v) by nra.
  assert (Hw0 : 0 < sqrt (1 - v * v)) by (apply sqrt_lt_R0; exact Hpos).
  assert (Hww : sqrt (1 - v * v) * sqrt (1 - v * v) = 1 - v * v)
    by (apply sqrt_sqrt; lra).
  assert (Hg : forall angle,
             AccretionDisk.dopplerFactor this r angle
             = sqrt (1 - v * v) / (1 - v * cos angle)).
  { intros angle. rewrite dopplerFactor_unfold. fold v.
    pose proof (COS_bound angle). field. split; nra. }
  rewrite !Hg. unfold Math.PI. rewrite cos_0, cos_PI, cos_PI2.
  set (w := sqrt (1 - v * v)) in *. clearbody w.
  split; [| split; [| split]].
  - replace (w / (1 - v * 1) * (w / (1 - v * -1)))
      with ((w * w) / (1 - v * v)) by (field; split; lra).
    rewrite Hww. field. lra.
  - field.
  - replace (w / (1 - v * 0)) with w by field. nra.
  - intros angle. rewrite Hg. pose proof (COS_bound angle) as [Hc1 Hc2].
    assert (H1 : 0 < 1 - v * cos angle) by nra.
    unfold Rdiv. split; apply Rmult_le_compat_l; try lra;
      apply Rinv_le_contravar; nra.
Qed.

(** Witness for X17: the theorem at concrete parameters. *)
Lemma X17_witness :
  let this := AccretionDisk.mk 1 0 15 1e7 6 in
  1e-5 <= AccretionDisk.gravitationalRedshift this 6 <= 1
  /\ AccretionDisk.gravitationalRedshift this 6 = sqrt (1 - 2 * 1 / 6)
  /\ AccretionDisk.gravitationalRedshift this 6
     <= AccretionDisk.gravitationalRedshift this 10
  /\ GLSL.gravitationalRedshift 6 (PI / 2) 1 0 <= 1
  /\ GLSL.gravitationalRedshift 6 (PI / 2) 1 0
     = AccretionDisk.gravitationalRedshift this 6.
Proof.
  intros this.
  destruct X17_gravitational_redshift_range as [Hjs Hgl].
  assert (HM : 0 <= AccretionDisk.M this) by (cbn; lra).
  assert (Hr : 0 < 6) by lra.
  destruct (Hjs this 6 HM Hr) as (H1 & H2 & H3).
  destruct (Hgl 6 (PI / 2) 1 0) as (_ & H4 & H5).
  split; [exact H1 | split; [apply H2; cbn; lra | split; [apply H3; lra |]]].
  split.
  - apply H4; [lra | lra |].
    unfold GLSL.sigma. cbn [GLSL.fadd GLSL.fmul GLSL.fcos RFloat].
    rewrite cos_PI2. lra.
  - apply H5; [reflexivity | lra | lra | reflexivity].
Defined.

(** Witness for X18: the theorem at concrete parameters. *)
Lemma X18_witness :
  let this := AccretionDisk.mk 1 0 15 1e7 6 in
  AccretionDisk.dopplerFactor this 6 0 * AccretionDisk.dopplerFactor this 6 Math.PI = 1
  /\ AccretionDisk.dopplerFactor this 6 (Math.PI / 2) < 1
  /\ AccretionDisk.dopplerFactor this 6 Math.PI
     <= AccretionDisk.dopplerFactor this 6 1
     <= AccretionDisk.dopplerFactor this 6 0.
Proof.
  intros this.
  assert (Hv : 0 < AccretionDisk.orbitalVelocity this 6 < 1).
  { assert (H : 0 < AccretionDisk.orbitalVelocity this 6 <= 0.999).
    { apply orbitalVelocity_zero_spin_range; cbn; [reflexivity | lra | lra]. }
    lra. }
  destruct (X18_doppler_factor_symmetry this 6 Hv) as (H1 & _ & H3 & H4).
  split; [exact H1 | split; [exact H3 | apply H4]].
Defined.

End DiskShifts.

Section DiskTemperatureRange.

Import JS.
Local Open Scope R_scope.

(** X19. [temperature] of a disk with [M > 0], a positive inner radius
    and [T0 >= 0] lies in [[0, T0]]; for [T0 > 0] it is positive at every
    radius beyond the inner one, including beyond [outerRadius], where
    [getPropertiesAt] reports [isInDisk = false] with a positive
    temperature.  An inner radius of 0 given to the constructor is treated
    as not given. *)
Theorem X19_disk_temperature_range :
  (forall (this : AccretionDisk.t) (r : R),
     0 < AccretionDisk.M this -> 0 < AccretionDisk.innerRadius this ->
     0 <= AccretionDisk.T0 this ->
     0 <= AccretionDisk.temperature this r <= AccretionDisk.T0 this
     /\ (0 < AccretionDisk.T0 this ->
         (AccretionDisk.innerRadius this < r -> 0 < AccretionDisk.temperature this r)
         /\ 0 < AccretionDisk.q_innerTemp (AccretionDisk.getParameters this)
         /\ (AccretionDisk.outerRadius this < r -> AccretionDisk.innerRadius this < r ->
             AccretionDisk.p_isInDisk (AccretionDisk.getPropertiesAt this r) = false
             /\ 0 < AccretionDisk.p_temperature (AccretionDisk.getPropertiesAt this r))))
  /\
  (forall (mass spin : R) (outer peak : option R),
     AccretionDisk.constructor mass spin (Some 0) outer peak
     = AccretionDisk.constructor mass spin None outer peak).
Proof.
  split.
  - intros this r HM HI HT.
    assert (Hprof : forall x, AccretionDisk.innerRadius this < x ->
              AccretionDisk.temperature this x
              = Rmin (dimensionlessProfile (AccretionDisk.T0 this) (AccretionDisk.M this)
                        (AccretionDisk.innerRadius this) x) (AccretionDisk.T0 this)
              /\ (0 < AccretionDisk.T0 this ->
                  0 < dimensionlessProfile (AccretionDisk.T0 this) (AccretionDisk.M this)
                        (AccretionDisk.innerRadius this) x)
              /\ 0 <= dimensionlessProfile (AccretionDisk.T0 this) (AccretionDisk.M this)
                        (AccretionDisk.innerRadius this) x).
    { intros x Hx. destruct (temperature_host this x HM HI) as [_ H]. split; [exact (H Hx) |].
      unfold dimensionlessProfile.
      match goal with |- context [_ * Rpower ?u ?c * Rpower ?w ?c] =>
        pose proof (Rpower_pos u c); pose proof (Rpower_pos w c);
        set (A := Rpower u c) in *; set (B := Rpower w c) in *; clearbody A B
      end.
      assert (0 < A * B) by nra.
      split; [intros; rewrite Rmult_assoc; nra | rewrite Rmult_assoc; nra]. }
    assert (Hpos : 0 < AccretionDisk.T0 this -> forall x,
              AccretionDisk.innerRadius this < x -> 0 < AccretionDisk.temperature this x).
    { intros HT0 x Hx. destruct (Hprof x Hx) as (-> & Hp & _).
      apply Rmin_glb_lt; [apply Hp; exact HT0 | exact HT0]. }
    split.
    + destruct (Rle_dec r (AccretionDisk.innerRadius this)) as [Hr | Hr].
      * destruct (temperature_host this r HM HI) as [H _]. rewrite (H Hr). lra.
      * destruct (Hprof r ltac:(lra)) as (-> & _ & Hp).
        split; [apply Rmin_glb; assumption | apply Rmin_r].
    + intros HT0. split; [apply Hpos; exact HT0 | split].
      * cbn [AccretionDisk.getParameters AccretionDisk.q_innerTemp].
        apply Hpos; [exact HT0 | lra].
      * intros Ho Hi. cbn [AccretionDisk.getPropertiesAt AccretionDisk.p_isInDisk
                          AccretionDisk.p_temperature].
        split; [| apply Hpos; assumption].
        rewrite (Rleb_false r) by exact Ho. apply andb_false_r.
  - intros mass spin outer peak. unfold AccretionDisk.constructor.
    destruct (Req_dec_T 0 0) as [_ | H]; [reflexivity | exfalso; apply H; reflexivity].
Qed.

(** Witness for X19: the theorem at concrete parameters. *)
Lemma X19_witness :
  let this := AccretionDisk.mk 1 0 15 1e7 6 in
  0 <= AccretionDisk.temperature this 10 <= 1e7
  /\ 0 < AccretionDisk.temperature this 10
  /\ AccretionDisk.p_isInDisk (AccretionDisk.getPropertiesAt this 20) = false
  /\ 0 < AccretionDisk.p_temperature (AccretionDisk.getPropertiesAt this 20).
Proof.
  intros this.
  destruct X19_disk_temperature_range as [Hjs _].
  assert (HM : 0 < AccretionDisk.M this) by (cbn; lra).
  assert (Hi : 0 < AccretionDisk.innerRadius this) by (cbn; lra).
  assert (HT : 0 <= AccretionDisk.T0 this) by (cbn; lra).
  assert (HT' : 0 < AccretionDisk.T0 this) by (cbn; lra).
  destruct (Hjs this 10 HM Hi HT) as (H1 & H2).
  destruct (H2 HT') as (H3 & _ & _).
  destruct (Hjs this 20 HM Hi HT) as (_ & H4).
  destruct (H4 HT') as (_ & _ & H5).
  split; [exact H1 | split; [apply H3; cbn; lra |]].
  apply H5; cbn; lra.
Defined.

End DiskTemperatureRange.

(* ====================================================================== *)
(** * Part XV.  Metric tensor components (shader)                         *)
(* ====================================================================== *)

Section MetricComponents.

Import GLSL.
Local Open Scope R_scope.

Ltac rlit := cbn [lit RFloat]; unfold Q2R; cbn.

(** [sigma] over the reals. *)
Lemma sigma_R : forall r theta a : R,
  sigma r theta a = r * r + a * a * (cos theta * cos theta).
Proof. intros. unfold sigma. cbn [fadd fmul fcos RFloat]. ring. Qed.

(** [delta] over the reals. *)
Lemma delta_R : forall r M a : R, delta r M a = r * r - 2 * M * r + a * a.
Proof. intros. unfold delta. cbn [fadd fsub fmul RFloat]. rewrite lit_2. reflexivity. Qed.

(** [metricA] over the reals. *)
Lemma metricA_R : forall r theta M a : R,
  metricA r theta M a
  = (r * r + a * a) * (r * r + a * a)
    - a * a * (r * r - 2 * M * r + a * a) * (sin theta * sin theta).
Proof.
  intros. unfold metricA. cbv zeta. rewrite delta_R.
  cbn [fadd fsub fmul fsin RFloat]. reflexivity.
Qed.

(** X20. The components [getMetricComponents] returns satisfy, where
    [Sigma <> 0], the determinant identity of the [(t, phi)] block,
    [g_tt * g_phph - g_tph^2 = - Delta * sin^2 theta]; where also
    [Delta <> 0], [g_rr * Delta = Sigma] and
    [g_tt = - (Delta - a^2 sin^2 theta) / Sigma]. *)
Theorem X20_metric_components_determinant :
  forall r theta M a : R,
    let g := getMetricComponents r theta M a in
    g_thth g = sigma r theta a
    /\ (sigma r theta a <> 0 ->
        g_tt g * g_phph g - g_tph g * g_tph g
        = - delta r M a * (sin theta * sin theta))
    /\ (sigma r theta a <> 0 -> delta r M a <> 0 ->
        g_rr g * delta r M a = sigma r theta a
        /\ g_tt g = - (delta r M a - a * a * (sin theta * sin theta)) / sigma r theta a).
Proof.
  intros r theta M a g. subst g. unfold getMetricComponents. cbv zeta.
  cbn [g_tt g_rr g_thth g_phph g_tph].
  split; [reflexivity |].
  rewrite !sigma_R, !delta_R.
  cbn [fadd fsub fmul fdiv fneg fsin RFloat]. rewrite lit_1, lit_2.
  pose proof (sin2_cos2 theta) as Hsc. unfold Rsqr in Hsc.
  set (s := sin theta) in *. set (c := cos theta) in *. clearbody s c.
  assert (Hc : c * c = 1 - s * s) by lra.
  split.
  - intros HS. rewrite Hc in *. field. exact HS.
  - intros HS HD. rewrite Hc in *. split; field; assumption.
Qed.

(** X21. [lapseFunction] lies in [[0, 1]] for [r > 0], [M >= 0]; it is 0
    where [Delta <= 0] (between the horizons), positive where [Delta > 0],
    and below 1 for [M > 0]. *)
Theorem X21_lapse_function_range :
  forall r theta M a : R,
    0 < r -> 0 <= M ->
    0 <= lapseFunction r theta M a <= 1
    /\ (delta r M a <= 0 -> lapseFunction r theta M a = 0)
    /\ (0 < delta r M a -> 0 < lapseFunction r theta M a)
    /\ (0 < M -> lapseFunction r theta M a < 1).
Proof.
  intros r theta M a Hr HM.
  unfold lapseFunction, safeSqrt. cbv zeta. rewrite max_R, lit_0.
  cbn [fmul fdiv fsqrt RFloat]. rewrite sigma_R, delta_R, metricA_R.
  pose proof (sin2_cos2 theta) as Hsc. unfold Rsqr in Hsc.
  set (s2 := sin theta * sin theta) in *. set (c2 := cos theta * cos theta) in *.
  assert (Hs2 : 0 <= s2 <= 1).
  { unfold s2. pose proof (SIN_bound theta). nra. }
  assert (Hc2 : c2 = 1 - s2) by lra.
  clearbody s2 c2.
  set (D := r * r - 2 * M * r + a * a) in *.
  set (S := r * r + a * a * c2) in *.
  set (A := (r * r + a * a) * (r * r + a * a) - a * a * D * s2) in *.
  assert (Hr4 : 0 < r * r * (r * r)) by (apply Rmult_lt_0_compat; nra).
  assert (HA : r * r * (r * r) <= A).
  { unfold A, D. apply metric_A_positive; [exact Hr | exact HM | exact Hs2]. }
  assert (HA0 : 0 < A) by lra.
  assert (HS0 : 0 < S) by (unfold S; rewrite Hc2; nra).
  assert (Hdiff : A - D * S = (r * r + a * a) * (2 * M * r)).
  { unfold A, S, D. rewrite Hc2. ring. }
  assert (Hle : D * S <= A).
  { assert (0 <= (r * r + a * a) * (2 * M * r)) by (apply Rmult_le_pos; nra). lra. }
  assert (HiA : 0 < / A) by (apply Rinv_0_lt_compat; exact HA0).
  assert (Hq1 : D * S / A <= 1).
  { apply Rmult_le_reg_r with A; [exact HA0 |].
    replace (D * S / A * A) with (D * S) by (field; lra). lra. }
  split; [split |].
  - apply sqrt_pos.
  - apply Rle_trans with (sqrt 1); [| rewrite sqrt_1; lra].
    apply sqrt_le_1; [apply Rmax_r | lra | apply Rmax_lub; lra].
  - split; [| split].
    + intros HD. rewrite Rmax_right; [apply sqrt_0 |].
      assert (0 <= (- D) * S * / A).
      { apply Rmult_le_pos; [apply Rmult_le_pos; lra | lra]. }
      unfold Rdiv. lra.
    + intros HD. apply sqrt_lt_R0.
      apply Rlt_le_trans with (D * S / A); [| apply Rmax_l].
      unfold Rdiv. apply Rmult_lt_0_compat; [apply Rmult_lt_0_compat; lra | lra].
    + intros HM0.
      assert (Hlt : D * S < A).
      { assert (0 < (r * r + a * a) * (2 * M * r)) by (apply Rmult_lt_0_compat; nra). lra. }
      assert (Hq : D * S / A < 1).
      { apply Rmult_lt_reg_r with A; [exact HA0 |].
        replace (D * S / A * A) with (D * S) by (field; lra). lra. }
      apply Rlt_le_trans with (sqrt 1); [| rewrite sqrt_1; lra].
      apply sqrt_lt_1; [apply Rmax_r | lra | apply Rmax_lub_lt; lra].
Qed.

(** Witness for X20: the theorem at concrete parameters. *)
Lemma X20_witness :
  let g := getMetricComponents (F := R) 3 (Rtrigo1.PI / 2) 1 0.5 in
  g_tt g * g_phph g - g_tph g * g_tph g
  = - delta 3 1 0.5 * (sin (Rtrigo1.PI / 2) * sin (Rtrigo1.PI / 2))
  /\ g_rr g * delta 3 1 0.5 = sigma 3 (Rtrigo1.PI / 2) 0.5.
Proof.
  intros g.
  assert (HS : sigma (F := R) 3 (Rtrigo1.PI / 2) 0.5 <> 0).
  { rewrite sigma_R, cos_PI2. lra. }
  assert (HD : delta (F := R) 3 1 0.5 <> 0) by (rewrite delta_R; lra).
  destruct (X20_metric_components_determinant 3 (Rtrigo1.PI / 2) 1 0.5) as (_ & H1 & H2).
  split; [exact (H1 HS) | exact (proj1 (H2 HS HD))].
Defined.

(** Witness for X21: the theorem at concrete parameters. *)
Lemma X21_witness :
  0 <= lapseFunction (F := R) 3 (Rtrigo1.PI / 2) 1 0.5 < 1
  /\ 0 < lapseFunction (F := R) 3 (Rtrigo1.PI / 2) 1 0.5
  /\ lapseFunction (F := R) 1 (Rtrigo1.PI / 2) 1 0.5 = 0.
Proof.
  assert (H3 : 0 < 3) by lra. assert (H1 : 0 < 1) by lra.
  assert (HM : 0 <= 1) by lra.
  destruct (X21_lapse_function_range 3 (Rtrigo1.PI / 2) 1 0.5 H3 HM)
    as ((Hlo & _) & _ & Hpos & Hlt).
  destruct (X21_lapse_function_range 1 (Rtrigo1.PI / 2) 1 0.5 H1 HM)
    as (_ & Hzero & _).
  split; [split; [exact Hlo | exact (Hlt H1)] | split].
  - apply Hpos. rewrite delta_R. lra.
  - apply Hzero. rewrite delta_R. lra.
Defined.

End MetricComponents.

(* ====================================================================== *)
(** * Part XVI.  Shader utilities, radiance and overlays                  *)
(* ====================================================================== *)

Section ShaderUtilities.

Import GLSL.
Local Open Scope R_scope.

Ltac rlit := cbn [lit RFloat]; unfold Q2R; cbn.

(** [sign] of a positive number is 1. *)
Lemma sign_pos : forall x : R, 0 < x -> sign x = 1.
Proof.
  intros x Hx. unfold sign. cbn [flt RFloat]. rewrite lit_0, lit_1.
  rewrite Rltb_true by exact Hx. reflexivity.
Qed.

(** X22. [safeInverse x] for [x <> 0] has absolute value at most [1e6]
    and the sign of [x]; it is [1 / x] when [|x| >= 1e-6] and has absolute
    value [1e6] below.  At [x = 0] the guard does not act ([sign 0 = 0]):
    the result is [1.0 / 0.0]. *)
Theorem X22_safeInverse_is_bounded_except_at_zero :
  (forall x : R, x <> 0 ->
     Rabs (safeInverse x) <= 1e6
     /\ 0 < x * safeInverse x
     /\ (1e-6 <= Rabs x -> safeInverse x = 1 / x)
     /\ (Rabs x < 1e-6 -> Rabs (safeInverse x) = 1e6))
  /\ safeInverse (F := R) 0 = 1 / 0.
Proof.
  split.
  - intros x Hx. unfold safeInverse. cbn [fabs flt fmul fdiv RFloat].
    rewrite EPSILON_R, lit_1. unfold RealMath.Rltb.
    destruct (Rlt_dec (Rabs x) 1e-6) as [Hs | Hs].
    + assert (Hd : (0 < x /\ sign x * 1e-6 = 1e-6) \/ (x < 0 /\ sign x * 1e-6 = - 1e-6)).
      { destruct (Rlt_dec 0 x) as [Hp | Hp].
        - left. split; [exact Hp |]. rewrite sign_pos by exact Hp. lra.
        - right. assert (x < 0) by lra. split; [assumption |].
          rewrite sign_neg by assumption. lra. }
      destruct Hd as [[Hp ->] | [Hn ->]].
      * assert (Hv : 1 / 1e-6 = 1e6) by lra. rewrite Hv.
        assert (Rabs 1e6 = 1e6) by (apply Rabs_pos_eq; lra).
        repeat split; try lra; intros; try (exfalso; lra).
      * assert (Hv : 1 / - 1e-6 = - 1e6) by lra. rewrite Hv.
        assert (Rabs (- 1e6) = 1e6) by (unfold Rabs; destruct (Rcase_abs _); lra).
        repeat split; try lra; try nra; intros; try (exfalso; lra).
    + assert (Ha : 1e-6 <= Rabs x) by lra.
      assert (Hi : Rabs (1 / x) <= 1e6).
      { unfold Rdiv. rewrite Rmult_1_l, Rabs_inv.
        replace 1e6 with (/ 1e-6) by lra.
        apply Rinv_le_contravar; lra. }
      repeat split; try assumption.
      * replace (x * (1 / x)) with 1 by (field; exact Hx). lra.
      * intros; exfalso; lra.
  - unfold safeInverse. cbn [fabs flt fmul fdiv RFloat].
    rewrite EPSILON_R, lit_1, Rabs_R0, Rltb_true by lra.
    rewrite sign_zero. f_equal. ring.
Qed.


(** X25. [getRayDirection] returns a unit vector with a positive [z]
    component, for every pixel coordinate, field of view and aspect
    ratio. *)
Theorem X25_ray_direction_is_a_unit_vector :
  forall (uv : vec2 R) (fov aspect : R),
    let d := getRayDirection uv fov aspect in
    dot d d = 1 /\ length d = 1 /\ 0 < vz d <= 1.
Proof.
  intros uv fov aspect d. subst d. unfold getRayDirection. cbv zeta.
  cbn [ux uy].
  match goal with |- context [mkVec3 ?u ?v (lit 1)] => set (x := u); set (y := v) end.
  unfold normalize, length, vdiv, dot. cbn [vx vy vz fadd fmul fdiv fsqrt RFloat].
  rewrite lit_1. clearbody x y.
  assert (Hn : 1 <= x * x + y * y + 1 * 1) by nra.
  assert (Hs : 1 <= sqrt (x * x + y * y + 1 * 1)).
  { rewrite <- sqrt_1 at 1. apply sqrt_le_1; lra. }
  assert (Hss : sqrt (x * x + y * y + 1 * 1) * sqrt (x * x + y * y + 1 * 1)
                = x * x + y * y + 1 * 1) by (apply sqrt_sqrt; lra).
  set (n := sqrt (x * x + y * y + 1 * 1)) in *. clearbody n.
  assert (Hd : x / n * (x / n) + y / n * (y / n) + 1 / n * (1 / n) = 1).
  { replace (x / n * (x / n) + y / n * (y / n) + 1 / n * (1 / n))
      with ((x * x + y * y + 1 * 1) / (n * n)) by (field; lra).
    rewrite Hss. field. lra. }
  rewrite Hd. split; [reflexivity | split; [apply sqrt_1 |]].
  split.
  - apply Rdiv_lt_0_compat; lra.
  - apply Rmult_le_reg_r with n; [lra |].
    replace (1 / n * n) with 1 by (field; lra). lra.
Qed.

(** Witness for X22: the theorem at concrete parameters. *)
Lemma X22_witness :
  safeInverse (F := R) 2 = 1 / 2
  /\ Rabs (safeInverse (F := R) 1e-7) = 1e6
  /\ 0 < 1e-7 * safeInverse (F := R) 1e-7.
Proof.
  destruct X22_safeInverse_is_bounded_except_at_zero as [H _].
  assert (H2 : (2 : R) <> 0) by lra.
  assert (Hs : (1e-7 : R) <> 0) by lra.
  destruct (H 2 H2) as (_ & _ & Hbig & _).
  destruct (H 1e-7 Hs) as (_ & Hpos & _ & Hsmall).
  split; [apply Hbig; rewrite Rabs_pos_eq; lra | split; [| exact Hpos]].
  apply Hsmall. rewrite Rabs_pos_eq; lra.
Defined.


End ShaderUtilities.

Section ShaderRadiance.

Import GLSL.
Local Open Scope R_scope.

Ltac rlit := cbn [lit RFloat]; unfold Q2R; cbn.

(** [clamp(v, 0.0, 1.0)] puts every channel in [[0, 1]]. *)
Lemma vclamp_unit_range :
  forall v : vec3 R,
    let c := vclamp v (lit 0) (lit 1) in
    0 <= vx c <= 1 /\ 0 <= vy c <= 1 /\ 0 <= vz c <= 1.
Proof.
  intros v c. subst c. unfold vclamp, vmap. cbn [vx vy vz]. rewrite lit_0, lit_1.
  repeat split; apply clamp_R_range; lra.
Qed.

(** The final clamp of [temperatureToRGB] bounds every channel. *)
Lemma temperatureToRGB_range :
  forall T : R,
    let c := temperatureToRGB T in
    0 <= vx c <= 1 /\ 0 <= vy c <= 1 /\ 0 <= vz c <= 1.
Proof. intros T c. subst c. unfold temperatureToRGB. cbv zeta. apply vclamp_unit_range. Qed.

(** The scaled temperature [clamp(T, 1000, 40000) / 100] and the branch
    it selects. *)
Lemma scaled_temperature :
  forall T : R,
    let t := fdiv (clamp T (lit 1000) (lit 40000)) (lit 100) in
    10 <= t <= 400
    /\ (T <= 6600 -> t <= 66) /\ (6600 <= T -> 66 <= t) /\ (T <= 1900 -> t <= 19)
    /\ (T <= 1000 -> t = 10) /\ (40000 <= T -> t = 400).
Proof.
  intros T t. subst t. cbn [fdiv RFloat]. rewrite clamp_R.
  replace (lit (F := R) 1000) with 1000 by (rlit; lra).
  replace (lit (F := R) 40000) with 40000 by (rlit; lra).
  replace (lit (F := R) 100) with 100 by (rlit; lra).
  unfold Rmin, Rmax.
  destruct (Rle_dec T 1000); destruct (Rle_dec _ 40000); repeat split; intros; lra.
Qed.

(** X26. [temperatureToRGB] returns channels in [[0, 1]]; red is 1 up to
    6600 K, blue is 1 from 6600 K on and 0 up to 1900 K; temperatures below
    1000 K and above 40000 K give the colours of 1000 K and 40000 K. *)
Theorem X26_blackbody_colour_channels :
  forall T : R,
    let c := temperatureToRGB T in
    (0 <= vx c <= 1 /\ 0 <= vy c <= 1 /\ 0 <= vz c <= 1)
    /\ (T <= 6600 -> vx c = 1)
    /\ (6600 <= T -> vz c = 1)
    /\ (T <= 1900 -> vz c = 0)
    /\ (T <= 1000 -> c = temperatureToRGB 1000)
    /\ (40000 <= T -> c = temperatureToRGB 40000).
Proof.
  intros T c. split; [apply temperatureToRGB_range |].
  pose proof (scaled_temperature T) as HT. cbv zeta in HT.
  destruct HT as (Hr & H66 & H66' & H19 & Hlo & Hhi).
  pose proof (scaled_temperature 1000) as H1. cbv zeta in H1.
  destruct H1 as (_ & _ & _ & _ & H1 & _). specialize (H1 ltac:(lra)).
  pose proof (scaled_temperature 40000) as H4. cbv zeta in H4.
  destruct H4 as (_ & _ & _ & _ & _ & H4). specialize (H4 ltac:(lra)).
  assert (L66 : lit (F := R) 66 = 66) by (rlit; lra).
  assert (L19 : lit (F := R) 19 = 19) by (rlit; lra).
  subst c. unfold temperatureToRGB. cbv zeta.
  set (t := fdiv (clamp T (lit 1000) (lit 40000)) (lit 100)) in *.
  split; [| split; [| split; [| split]]].
  - intros H. unfold vclamp, vmap. cbn [vx vy vz fle RFloat]. rewrite L66, lit_0, lit_1.
    rewrite (Rleb_true t 66) by (apply H66; exact H). apply clamp_R_id. lra.
  - intros H. unfold vclamp, vmap. cbn [vx vy vz fle RFloat]. rewrite L66, lit_0, lit_1.
    rewrite (Rleb_true 66 t) by (apply H66'; exact H). apply clamp_R_id. lra.
  - intros H. specialize (H19 H).
    unfold vclamp, vmap. cbn [vx vy vz fle RFloat]. rewrite L66, L19, lit_0, lit_1.
    rewrite (Rleb_false 66 t) by lra. rewrite (Rleb_true t 19) by exact H19.
    apply clamp_R_id. lra.
  - intros H. rewrite (Hlo H), H1. reflexivity.
  - intros H. rewrite (Hhi H), H4. reflexivity.
Qed.

(** [vec3(0.0)] over the reals. *)
Lemma vzero_R : vzero (F := R) = mkVec3 0 0 0.
Proof. unfold vzero. rewrite lit_0. reflexivity. Qed.


(** X28. [rayDiskIntersection] returns either [-1] or a parameter
    [lambda >= 0] at which the straight ray reaches the equatorial plane
    ([theta + lambda * dtheta = HALF_PI]) at a radius inside
    [[innerRadius, outerRadius]]; a hit needs [|dtheta| >= 1e-6]. *)
Theorem X28_ray_disk_intersection_parameter :
  forall r theta phi dr dtheta dphi innerRadius outerRadius M a : R,
    let lambda := rayDiskIntersection r theta phi dr dtheta dphi
                                      innerRadius outerRadius M a in
    lambda = -1
    \/ (0 <= lambda
        /\ theta + lambda * dtheta = HALF_PI
        /\ innerRadius <= r + lambda * dr <= outerRadius
        /\ 1e-6 <= Rabs dtheta).
Proof.
  intros r theta phi dr dtheta dphi innerRadius outerRadius M a lambda.
  subst lambda. unfold rayDiskIntersection. cbv zeta.
  cbn [fabs flt fle fsub fadd fmul fdiv RFloat]. rewrite EPSILON_R, lit_0, lit_m1.
  unfold RealMath.Rltb, RealMath.Rleb.
  destruct (Rlt_dec (Rabs dtheta) 1e-6) as [Hd | Hd]; [left; reflexivity |].
  destruct (Rlt_dec ((HALF_PI - theta) / dtheta) 0) as [Hl | Hl]; [left; reflexivity |].
  destruct (Rle_dec innerRadius _) as [Hi | Hi]; cbn [andb]; [| left; reflexivity].
  destruct (Rle_dec _ outerRadius) as [Ho | Ho]; [| left; reflexivity].
  right. assert (Hnz : dtheta <> 0).
  { intros H0. rewrite H0, Rabs_R0 in Hd. lra. }
  repeat split; try lra. field. exact Hnz.
Qed.

(** Witness for X26: the theorem at concrete parameters. *)
Lemma X26_witness :
  vx (temperatureToRGB (F := R) 1500) = 1
  /\ vz (temperatureToRGB (F := R) 1500) = 0
  /\ vz (temperatureToRGB (F := R) 7000) = 1
  /\ temperatureToRGB (F := R) 500 = temperatureToRGB 1000
  /\ temperatureToRGB (F := R) 50000 = temperatureToRGB 40000.
Proof.
  destruct (X26_blackbody_colour_channels 1500) as (_ & Hr & _ & Hb & _).
  destruct (X26_blackbody_colour_channels 7000) as (_ & _ & Hb' & _).
  destruct (X26_blackbody_colour_channels 500) as (_ & _ & _ & _ & Hlo & _).
  destruct (X26_blackbody_colour_channels 50000) as (_ & _ & _ & _ & _ & Hhi).
  split; [apply Hr; lra | split; [apply Hb; lra | split; [apply Hb'; lra |]]].
  split; [apply Hlo; lra | apply Hhi; lra].
Defined.


End ShaderRadiance.

Section ShaderJets.

Import GLSL.
Local Open Scope R_scope.

Ltac rlit := cbn [lit RFloat]; unfold Q2R; cbn.

(** [vec3(0.0)] over the reals. *)
(** The jet parameters over the reals. *)
Lemma getJetParams_R :
  forall M a : R,
    getJetParams M a = mkJetParams (0.5 * M) 0.1 (30 * M) 0.3 (a / M * (a / M) * 2).
Proof.
  intros. unfold getJetParams. cbv zeta. cbn [fmul fdiv RFloat]. rewrite lit_2.
  replace (lit (F := R) 0.5) with 0.5 by (rlit; lra).
  replace (lit (F := R) 0.1) with 0.1 by (rlit; lra).
  replace (lit (F := R) 30) with 30 by (rlit; lra).
  replace (lit (F := R) 0.3) with 0.3 by (rlit; lra).
  reflexivity.
Qed.

(** [isInJet] with the default parameters: the region and the range of
    the fraction it reports. *)
Lemma isInJet_default :
  forall (pos : vec3 R) (M a : R),
    let z := Rabs (vz pos) in
    let rCyl := sqrt (vx pos * vx pos + vy pos * vy pos) in
    match isInJet pos (getJetParams M a) M a with
    | None => True
    | Some (jetFraction, distAlongJet) =>
        distAlongJet = z
        /\ eventHorizonRadius M a * 2 <= z <= 30 * M
        /\ rCyl <= 0.5 * M + z * tan 0.1
        /\ (0 < M -> 0 <= jetFraction <= 1)
    end.
Proof.
  intros pos M a z rCyl. rewrite getJetParams_R. unfold isInJet. cbv zeta.
  cbn [baseRadius openingAngle jetLength coreFraction].
  unfold length2. cbn [fabs flt fadd fsub fmul fdiv fsqrt ftan RFloat RFloatLib].
  fold z rCyl. rewrite lit_1, lit_2.
  unfold RealMath.Rltb.
  destruct (Rlt_dec z (eventHorizonRadius M a * 2)) as [H1 | H1]; [exact I |].
  destruct (Rlt_dec (0.5 * M + z * tan 0.1) rCyl) as [H2 | H2]; cbn [orb]; [exact I |].
  destruct (Rlt_dec (30 * M) z) as [H3 | H3]; [exact I |].
  assert (Hr0 : 0 <= rCyl) by apply sqrt_pos.
  assert (Hfrac : 0 < M -> 0 <= 1 - rCyl / (0.5 * M + z * tan 0.1) <= 1).
  { intros HM.
    assert (Hz : 0 <= z) by apply Rabs_pos.
    assert (Ht : 0 < tan 0.1).
    { apply tan_gt_0; [lra |]. pose proof PI_lower_bound. lra. }
    assert (Hj : 0 < 0.5 * M + z * tan 0.1) by nra.
    assert (0 <= rCyl / (0.5 * M + z * tan 0.1) <= 1); [| lra].
    split.
    - apply Rmult_le_pos; [exact Hr0 | left; apply Rinv_0_lt_compat; exact Hj].
    - apply Rmult_le_reg_r with (0.5 * M + z * tan 0.1); [exact Hj |].
      replace (rCyl / (0.5 * M + z * tan 0.1) * (0.5 * M + z * tan 0.1)) with rCyl
        by (field; lra).
      lra. }
  repeat split; try lra.
  - destruct (Rlt_dec (1 - 0.3) _); [lra |].
    destruct (Hfrac H) as [Hf0 Hf1]. apply Rmult_le_pos; lra.
  - destruct (Rlt_dec (1 - 0.3) _) as [Hc | Hc]; [lra |].
    destruct (Hfrac H) as [Hf0 Hf1].
    set (q := 1 - rCyl / (0.5 * M + z * tan 0.1)) in *. clearbody q.
    apply Rmult_le_reg_r with (1 - 0.3); [lra |].
    replace (q / (1 - 0.3) * (1 - 0.3)) with q by (field; lra).
    lra.
Qed.

(** [pow] is never negative. *)
Lemma pow_nonneg : forall x y, 0 <= RealMath.pow x y.
Proof.
  intros x y. unfold RealMath.pow.
  destruct (Req_dec_T y 0); [lra |].
  destruct (Rlt_dec 0 x); [left; apply exp_pos | lra].
Qed.

(** [smoothstep] is never negative. *)
Lemma smoothstep_nonneg : forall e0 e1 x : R, 0 <= smoothstep e0 e1 x.
Proof.
  intros e0 e1 x. unfold smoothstep. cbv zeta.
  pose proof (clamp_R_range ((x - e0) / (e1 - e0)) (lit 0) (lit 1)) as H.
  rewrite lit_0, lit_1 in H. specialize (H ltac:(lra)).
  cbn [fsub fmul fdiv RFloat] in *. rewrite lit_0, lit_1.
  replace (lit (F := R) 3) with 3 by (rlit; lra). rewrite lit_2.
  set (t := clamp ((x - e0) / (e1 - e0)) 0 1) in *. clearbody t.
  assert (0 <= t * t) by nra. nra.
Qed.

(** [mix] of non-negative values with a weight in [[0, 1]] is non-
    negative. *)
Lemma mix_nonneg : forall x y t : R, 0 <= x -> 0 <= y -> 0 <= t <= 1 -> 0 <= mix x y t.
Proof.
  intros x y t Hx Hy Ht. unfold mix. cbn [fadd fsub fmul RFloat]. rewrite lit_1. nra.
Qed.

(** A product of six non-negative factors, in the association of
    [jetEmission]. *)
Lemma product6_nonneg :
  forall p f c k d o : R,
    0 <= p -> 0 <= f -> 0 <= c -> 0 <= k -> 0 <= d -> 0 <= o ->
    0 <= fmul (fmul (fmul (fmul (fmul p f) c) k) d) o.
Proof.
  intros. cbn [fmul RFloat]. repeat apply Rmult_le_pos; assumption.
Qed.

(** The channels of [jetEmission] are non-negative for [M > 0]. *)
Lemma jetEmission_nonneg :
  forall (pos rayDir : vec3 R) (M a time : R),
    0 < M ->
    let e := jetEmission pos rayDir (getJetParams M a) M a time in
    0 <= vx e /\ 0 <= vy e /\ 0 <= vz e.
Proof.
  intros pos rayDir M a time HM e. subst e. unfold jetEmission.
  pose proof (isInJet_default pos M a) as HJ. cbv zeta in HJ.
  destruct (isInJet pos (getJetParams M a) M a) as [[jf dj] |];
    [| rewrite vzero_R; cbn [vx vy vz]; lra].
  destruct HJ as (_ & _ & _ & Hjf). specialize (Hjf HM).
  cbv zeta. rewrite getJetParams_R. cbn [power jetLength].
  match goal with
  | |- context [vmul (vmul (vmix ?s ?c jf) ?i) ?h] =>
      assert (Hi : 0 <= i); [| set (k := i) in *; clearbody k]
  end.
  { apply product6_nonneg.
    - cbn [fmul RFloat]. assert (0 <= a / M * (a / M)) by nra. lra.
    - left. apply exp_pos.
    - cbn [fmul fadd RFloat]. rewrite lit_1, lit_2. nra.
    - match goal with |- 0 <= fadd _ (fmul (fmul ?p ?q) _) =>
        pose proof (pow_nonneg (lit 0.5 + lit 0.5 * sin
          (dj / M * lit 5 + time * lit 0.5)) (lit 4)) as Hp;
        pose proof (smoothstep_nonneg (lit 0.5) (lit 1) jf) as Hs;
        change p with (RealMath.pow (lit 0.5 + lit 0.5 * sin
          (dj / M * lit 5 + time * lit 0.5)) (lit 4));
        set (pp := RealMath.pow _ _) in *; set (qq := q) in *; clearbody pp qq
      end.
      cbn [fmul fadd RFloat]. rewrite lit_1.
      replace (lit (F := R) 0.5) with 0.5 by (rlit; lra). nra.
    - apply pow_nonneg.
    - cbn [fmul RFloat]. replace (lit (F := R) 0.3) with 0.3 by (rlit; lra). lra. }
  unfold vmul, vmix. cbn [vx vy vz].
  replace (lit (F := R) 0.5) with 0.5 by (rlit; lra).
  replace (lit (F := R) 0.6) with 0.6 by (rlit; lra).
  replace (lit (F := R) 0.7) with 0.7 by (rlit; lra).
  replace (lit (F := R) 0.8) with 0.8 by (rlit; lra).
  replace (lit (F := R) 0.9) with 0.9 by (rlit; lra).
  rewrite lit_1.
  pose proof (mix_nonneg 0.5 0.7 jf ltac:(lra) ltac:(lra) Hjf).
  pose proof (mix_nonneg 0.6 0.8 jf ltac:(lra) ltac:(lra) Hjf).
  pose proof (mix_nonneg 0.9 1 jf ltac:(lra) ltac:(lra) Hjf).
  cbn [fmul RFloat].
  split; [| split]; (apply Rmult_le_pos; [apply Rmult_le_pos; assumption | lra]).
Qed.

(** X30. [sampleJet] is black when [|a| < 0.1 M], when
    [|z| < 2 * eventHorizon], when [|z| > 30 M], and when the cylindrical
    radius exceeds [0.5 M + |z| tan 0.1]; for [M > 0] its channels are
    never negative. *)
Theorem X30_jets_are_confined_to_the_polar_cones :
  forall (pos rayDir : vec3 R) (M a time : R),
    let e := sampleJet pos rayDir M a time in
    let z := Rabs (vz pos) in
    let rCyl := sqrt (vx pos * vx pos + vy pos * vy pos) in
    (Rabs a < 0.1 * M -> e = mkVec3 0 0 0)
    /\ (z < eventHorizonRadius M a * 2 -> e = mkVec3 0 0 0)
    /\ (30 * M < z -> e = mkVec3 0 0 0)
    /\ (0.5 * M + z * tan 0.1 < rCyl -> e = mkVec3 0 0 0)
    /\ (0 < M -> 0 <= vx e /\ 0 <= vy e /\ 0 <= vz e).
Proof.
  intros pos rayDir M a time e z rCyl.
  assert (Hout : isInJet pos (getJetParams M a) M a = None -> e = mkVec3 0 0 0).
  { intros H. subst e. unfold sampleJet. cbv zeta.
    destruct (flt _ _); [apply vzero_R |].
    unfold jetEmission. rewrite H. apply vzero_R. }
  pose proof (isInJet_default pos M a) as HJ. cbv zeta in HJ. fold z rCyl in HJ.
  split; [| split; [| split; [| split]]].
  5:{ intros HM. subst e. unfold sampleJet. cbv zeta.
      destruct (flt _ _); [rewrite vzero_R; cbn [vx vy vz]; lra |].
      apply jetEmission_nonneg. exact HM. }
  - intros H. subst e. unfold sampleJet. cbn [fabs flt fmul RFloat].
    replace (lit (F := R) 0.1) with 0.1 by (rlit; lra).
    rewrite Rltb_true by exact H. apply vzero_R.
  - intros H. apply Hout.
    destruct (isInJet pos (getJetParams M a) M a) as [[jf dj] |]; [| reflexivity].
    exfalso. lra.
  - intros H. apply Hout.
    destruct (isInJet pos (getJetParams M a) M a) as [[jf dj] |]; [| reflexivity].
    exfalso. lra.
  - intros H. apply Hout.
    destruct (isInJet pos (getJetParams M a) M a) as [[jf dj] |]; [| reflexivity].
    exfalso. lra.
Qed.

(** Witness for X30: the theorem at concrete parameters. *)
Lemma X30_witness :
  sampleJet (F := R) (mkVec3 0 0 5) (mkVec3 0 0 1) 1 0 0 = mkVec3 0 0 0
  /\ sampleJet (F := R) (mkVec3 0 0 40) (mkVec3 0 0 1) 1 0.9 0 = mkVec3 0 0 0
  /\ 0 <= vz (sampleJet (F := R) (mkVec3 0 0 5) (mkVec3 0 0 1) 1 0.9 0).
Proof.
  destruct (X30_jets_are_confined_to_the_polar_cones (mkVec3 0 0 5) (mkVec3 0 0 1) 1 0 0)
    as (H1 & _).
  destruct (X30_jets_are_confined_to_the_polar_cones (mkVec3 0 0 40) (mkVec3 0 0 1) 1 0.9 0)
    as (_ & _ & H3 & _).
  destruct (X30_jets_are_confined_to_the_polar_cones (mkVec3 0 0 5) (mkVec3 0 0 1) 1 0.9 0)
    as (_ & _ & _ & _ & H5).
  split; [apply H1; rewrite Rabs_R0; lra | split].
  - apply H3. cbn [vz]. rewrite Rabs_pos_eq; lra.
  - apply H5. lra.
Defined.

End ShaderJets.
